(** * DealersEdge analytics core: a shallow embedding and its properties

    The Python sources under [backend/] are embedded function by function.
    Python floats are idealised: the arithmetic-only components (max pain,
    gamma channel, ACF, thesis tree, Kelly sizing) compute over the
    rationals [Q], so every definition evaluates on concrete inputs; the
    Black-Scholes part of [gex_calculator.py] needs [exp], [ln] and [sqrt]
    and is embedded over the reals [R].  NaN and infinities are not
    modelled; where the source returns an array of NaN the embedding
    returns [None]. *)

From Stdlib Require Import Reals Machin.
From Stdlib Require Import QArith Qround Qminmax Qabs Psatz.
From Stdlib Require Import ZArith Lia Bool String List Permutation Sorted.
From Stdlib Require Import SetoidList QOrderedType.
Import ListNotations.

Open Scope Q_scope.

(* ================================================================== *)
(** * Part I: definitions *)
(* ================================================================== *)

(** ** Python numerics over [Q] *)

Module PyNum.

(** [x < y] as a boolean; [Qle_bool] is the library's [x <= y]. *)
Definition Qltb (x y : Q) : bool := negb (Qle_bool y x).

(** Round to the nearest integer, ties to the even one: the rule behind
    Python's [round]. *)
Definition round_half_even (x : Q) : Z :=
  let n := Qfloor x in
  match Qcompare (x - inject_Z n) (1 # 2) with
  | Lt => n
  | Gt => (n + 1)%Z
  | Eq => if Z.even n then n else (n + 1)%Z
  end.

(** [round(x, ndigits)]. *)
Definition py_round (x : Q) (ndigits : nat) : Q :=
  inject_Z (round_half_even (x * inject_Z (10 ^ Z.of_nat ndigits)))
  / inject_Z (10 ^ Z.of_nat ndigits).

(** [d.get(key, default)] on a field that may be absent. *)
Definition get {A : Type} (field : option A) (default : A) : A :=
  match field with
  | Some v => v
  | None => default
  end.

(** A float as a dict hands it over: a number, an infinity, or NaN. *)
Inductive Float :=
| Num (q : Q)
| PosInf
| NegInf
| NaN.

(** [x > y]; a comparison with NaN is False. *)
Definition fgt (x y : Float) : bool :=
  match x, y with
  | Num a, Num b => Qltb b a
  | PosInf, Num _ => true
  | PosInf, NegInf => true
  | Num _, NegInf => true
  | _, _ => false
  end.

(** [x < y] *)
Definition flt (x y : Float) : bool := fgt y x.

(** [max(a, b)]: [b] when [b > a], else [a]; so [max(nan, b)] is NaN. *)
Definition fmax (a b : Float) : Float := if fgt b a then b else a.

(** [inf * q] for the infinity [i] and its opposite [o]. *)
Definition inf_times (i o : Float) (q : Q) : Float :=
  if Qltb 0 q then i else if Qltb q 0 then o else NaN.

(** [x * y] *)
Definition fmul (x y : Float) : Float :=
  match x, y with
  | NaN, _ | _, NaN => NaN
  | Num a, Num b => Num (a * b)
  | PosInf, Num b | Num b, PosInf => inf_times PosInf NegInf b
  | NegInf, Num b | Num b, NegInf => inf_times NegInf PosInf b
  | PosInf, PosInf | NegInf, NegInf => PosInf
  | PosInf, NegInf | NegInf, PosInf => NegInf
  end.

(** [x / y]; a zero divisor, which raises in Python, is not reached by
    the divisions below. *)
Definition fdiv (x y : Float) : Float :=
  match x, y with
  | NaN, _ | _, NaN => NaN
  | Num a, Num b => Num (a / b)
  | Num _, PosInf | Num _, NegInf => Num 0
  | PosInf, Num b => inf_times PosInf NegInf b
  | NegInf, Num b => inf_times NegInf PosInf b
  | _, _ => NaN
  end.


End PyNum.

Import PyNum.

(** ** directional_engine.py *)

Module DirectionalEngine.

Open Scope string_scope.

(** The keys of the [acf] dict that the thesis tree reads; [None] is an
    absent key, and a number read from a dict may be an infinity or NaN. *)
Record SelfExcitation := {
  se_regime : option string
}.

Record Acf := {
  acf_regime : option string;
  acf_mean_acf1 : option Float;
  acf_pct_amplified : option Float;
  acf_pct_dampened : option Float;
  acf_self_excitation : option SelfExcitation
}.

Record Reynolds := {
  re_reynolds_number : option Float;
  re_regime_key : option string
}.

Record RelativeStrength := {
  rs_beta_60d : option Float
}.

Record GexEntropy := {
  ge_regime : option string
}.

Record Technicals := {
  tech_relative_strength : option RelativeStrength;
  tech_gex_entropy : option GexEntropy
}.

Definition empty_technicals : Technicals :=
  {| tech_relative_strength := None; tech_gex_entropy := None |}.

Section ThesisTree.

Variable acf : Acf.
Variable reynolds : Reynolds.
Variable technicals : option Technicals.

Definition acf_regime_of : string := get (acf_regime acf) "NEUTRAL".
Definition acf1 : Float := get (acf_mean_acf1 acf) (Num 0).
Definition pct_amp : Float := get (acf_pct_amplified acf) (Num 0).
Definition pct_damp : Float := get (acf_pct_dampened acf) (Num 0).

Definition re_gamma : Float := get (re_reynolds_number reynolds) (Num 0).
Definition re_regime : string := get (re_regime_key reynolds) "LAMINAR".

(** [tech = technicals or {}] *)
Definition tech : Technicals := get technicals empty_technicals.

Definition beta : Float :=
  get (rs_beta_60d (get (tech_relative_strength tech)
                        {| rs_beta_60d := None |})) (Num 1.0).
Definition beta_adj : Float := fdiv (Num 1.0) (fmax beta (Num 0.3)).
Definition re_gamma_adj : Float := fmul re_gamma beta_adj.

Definition sei_regime : string :=
  get (se_regime (get (acf_self_excitation acf) {| se_regime := None |}))
      "NONE".

Definition entropy_regime : string :=
  get (ge_regime (get (tech_gex_entropy tech) {| ge_regime := None |}))
      "DISPERSED".

Definition acf_net_momentum : bool :=
  (fgt pct_amp pct_damp && (fgt pct_amp (Num 13) || fgt acf1 (Num 0.05)))
  || (((sei_regime =? "HIGH_EXCITATION")
       || (sei_regime =? "MODERATE_EXCITATION"))
      && fgt acf1 (Num 0)).

(** Lines 104-106: the ratio the decision tree compares. *)
Definition effective_re : Float :=
  if (entropy_regime =? "CRITICAL") && (re_regime =? "TRANSITIONAL")
  then fmax re_gamma_adj (Num 1.05)
  else re_gamma_adj.

(** Lines 108-121: the value stored under the result's ["thesis"] key.
    Nothing computed after the tree (bias, positions, level actions)
    writes to it. *)
Definition classify_thesis : string :=
  if fgt effective_re (Num 1.0) && acf_net_momentum then "MOMENTUM_BREAKOUT"
  else if fgt effective_re (Num 1.0) then "MOMENTUM_EARLY"
  else if fgt pct_amp pct_damp && fgt pct_amp (Num 13)
          && flt effective_re (Num 0.7) then "CONFLICTED_PIN"
  else if (acf_regime_of =? "SHORT_GAMMA") || fgt acf1 (Num 0.05)
       then "MOMENTUM_TREND"
  else if (acf_regime_of =? "LONG_GAMMA") && flt acf1 (Num (-0.10))
       then "FADE_MOVES"
  else if acf_regime_of =? "LONG_GAMMA" then "FADE_MILD"
  else "NEUTRAL".

End ThesisTree.

(** The branch of the label f-string that [_kelly_size] takes. *)
Inductive KellyLabel :=
| LabelZero
| LabelFullConviction
| LabelStandard
| LabelReduced
| LabelMinimal.

(** Lines 398-405: the vol-regime multiplier. *)
Definition regime_scale (iv_hv_ratio : Q) (vrp_context : string) : Q :=
  if Qltb 1.5 iv_hv_ratio || (vrp_context =? "HIGH_PREMIUM") then 0.7
  else if Qltb 1.3 iv_hv_ratio && (vrp_context =? "MODERATE_PREMIUM")
       then 0.8
  else if Qltb iv_hv_ratio 0.9 || (vrp_context =? "DISCOUNT") then 1.2
  else 1.0.

Definition _kelly_size (edge_pct win_prob iv_hv_ratio : Q)
           (vrp_context : string) : Q * KellyLabel :=
  if Qle_bool edge_pct 0 || Qle_bool win_prob 0 then (0, LabelZero)
  else
    let b := Qmax (edge_pct / 100) 0.5 in
    let p := Qmin (win_prob / 100) 0.9 in
    let q := 1 - p in
    let kelly_full := if Qltb 0 b then (b * p - q) / b else 0 in
    let kelly_half := Qmax 0 (kelly_full * 0.5) in
    let final_pct :=
      py_round (kelly_half * regime_scale iv_hv_ratio vrp_context * 100) 1 in
    let final_pct := Qmax 0.25 (Qmin 5.0 final_pct) in
    let label :=
      if Qle_bool 3.0 final_pct then LabelFullConviction
      else if Qle_bool 1.5 final_pct then LabelStandard
      else if Qle_bool 0.75 final_pct then LabelReduced
      else LabelMinimal in
    (final_pct, label).

End DirectionalEngine.





(** The clamp of line 408 on a value [n / 10]. *)
Definition clamp_tenths (n : Z) : Q := Qmax 0.25 (Qmin 5.0 (inject_Z n / 10)).

(** ** max_pain.py *)

Module MaxPain.

(** One record of the chain, as [calculate_max_pain] reads it:
    [c["strike"]] and [c.get("openInterest", 0)]. *)
Record Quote := {
  strike : Q;
  openInterest : option Z
}.

(** [strikes.add(k)] followed by [sorted(strikes)]: the set is kept as a
    strictly increasing list; adding a value already present changes
    nothing. *)
Fixpoint add_strike (k : Q) (strikes : list Q) : list Q :=
  match strikes with
  | [] => [k]
  | x :: rest =>
      match Qcompare k x with
      | Lt => k :: strikes
      | Eq => strikes
      | Gt => x :: add_strike k rest
      end
  end.

(** The [(k, oi)] pairs appended to [call_data] and [put_data]. *)
Definition leg_data (leg : list Quote) : list (Q * Z) :=
  map (fun c => (strike c, get (openInterest c) 0%Z)) leg.

(** The strike set after both input loops, sorted. *)
Definition sorted_strikes (calls puts : list Quote) : list Q :=
  fold_left (fun acc c => add_strike (strike c) acc) puts
    (fold_left (fun acc c => add_strike (strike c) acc) calls []).

(** Lines 36-44: the payout to option holders if the underlying expires
    at [test_price]. *)
Definition total_pain (call_data put_data : list (Q * Z)) (test_price : Q)
  : Q :=
  let after_calls :=
    fold_left
      (fun total kv =>
         if Qltb (fst kv) test_price
         then total + (test_price - fst kv) * inject_Z (snd kv) * 100
         else total)
      call_data 0 in
  fold_left
    (fun total kv =>
       if Qltb test_price (fst kv)
       then total + (fst kv - test_price) * inject_Z (snd kv) * 100
       else total)
    put_data after_calls.

(** One entry of [pain_by_strike]. *)
Record PainEntry := {
  pe_strike : Q;
  pe_total_pain : Q
}.

(** [min(entries, key=lambda x: x["total_pain"])] scanning from [best]:
    a later entry replaces the current one only when strictly smaller. *)
Fixpoint min_by_total_pain (best : PainEntry) (entries : list PainEntry)
  : PainEntry :=
  match entries with
  | [] => best
  | x :: rest =>
      min_by_total_pain
        (if Qltb (pe_total_pain x) (pe_total_pain best) then x else best)
        rest
  end.

(** The returned dict; [max_pain_value] is absent on the empty chain. *)
Record Result := {
  max_pain : Q;
  max_pain_value : option Q;
  pain_by_strike : list PainEntry
}.

Definition calculate_max_pain (calls puts : list Quote) : Result :=
  let call_data := leg_data calls in
  let put_data := leg_data puts in
  let entry test_price :=
    {| pe_strike := test_price;
       pe_total_pain :=
         py_round (total_pain call_data put_data test_price) 2 |} in
  match sorted_strikes calls puts with
  | [] => {| max_pain := 0; max_pain_value := None; pain_by_strike := [] |}
  | first :: rest =>
      let max_pain_entry := min_by_total_pain (entry first) (map entry rest) in
      {| max_pain := pe_strike max_pain_entry;
         max_pain_value := Some (pe_total_pain max_pain_entry);
         pain_by_strike := map entry (first :: rest) |}
  end.

(** [make_option(strike, oi)] of the test fixtures. *)
Definition make_option (k : Q) (oi : Z) : Quote :=
  {| strike := k; openInterest := Some oi |}.

End MaxPain.

(** ** Auxiliary notions for the max-pain statements *)

Module MaxPainAux.

Import MaxPain.

(** What one call contributes to the first loop of [total_pain]. *)
Definition call_term (test_price : Q) (kv : Q * Z) : Q :=
  if Qltb (fst kv) test_price
  then (test_price - fst kv) * inject_Z (snd kv) * 100
  else 0.

(** What one put contributes to the second loop. *)
Definition put_term (test_price : Q) (kv : Q * Z) : Q :=
  if Qltb test_price (fst kv)
  then (fst kv - test_price) * inject_Z (snd kv) * 100
  else 0.

Definition sumQ (l : list Q) : Q := fold_right Qplus 0 l.

(** Two entries that agree as numbers. *)
Definition entry_eq (e e' : PainEntry) : Prop :=
  pe_strike e == pe_strike e' /\ pe_total_pain e == pe_total_pain e'.

(** Two optional values that agree as numbers. *)
Definition opt_Qeq (a b : option Q) : Prop :=
  match a, b with
  | Some x, Some y => x == y
  | None, None => True
  | _, _ => False
  end.

(** The entry that [calculate_max_pain] builds for [test_price]. *)
Definition entry_of (calls puts : list Quote) (test_price : Q) : PainEntry :=
  {| pe_strike := test_price;
     pe_total_pain :=
       py_round (total_pain (leg_data calls) (leg_data puts) test_price) 2 |}.

End MaxPainAux.

(** The chain of [test_simple_three_strikes]. *)
Definition three_strikes : list MaxPain.Quote :=
  [MaxPain.make_option 95 100; MaxPain.make_option 100 500;
   MaxPain.make_option 105 100].

(** The chain of [test_single_strike]. *)
Definition single_strike : list MaxPain.Quote := [MaxPain.make_option 100 500].

(** ** gamma_channel.py *)

Module GammaChannel.

(** The keys of a profile row that the channel reads. *)
Record Row := {
  strike : Q;
  net_gex : Q
}.

(** The returned dict. *)
Record Channel := {
  floor : option Q;
  ceiling : option Q;
  floor_distance_pct : option Q;
  ceiling_distance_pct : option Q;
  width_pct : option Q;
  channel_position : option Q;
  floor_gex : Q;
  ceiling_gex : Q;
  degenerate : bool
}.

Definition _empty_channel : Channel :=
  {| floor := None; ceiling := None;
     floor_distance_pct := None; ceiling_distance_pct := None;
     width_pct := None; channel_position := None;
     floor_gex := 0; ceiling_gex := 0;
     degenerate := false |}.

(** [max(xs, key=key)] scanning from [best]: a later item replaces the
    current one only when its key is strictly larger. *)
Fixpoint max_from {A : Type} (key : A -> Q) (best : A) (xs : list A) : A :=
  match xs with
  | [] => best
  | x :: rest => max_from key (if Qltb (key best) (key x) then x else best) rest
  end.

(** [min(xs, key=key)] scanning from [best]. *)
Fixpoint min_from {A : Type} (key : A -> Q) (best : A) (xs : list A) : A :=
  match xs with
  | [] => best
  | x :: rest => min_from key (if Qltb (key x) (key best) then x else best) rest
  end.

(** [max(xs, key=key, default=None)] and [min(...)]. *)
Definition py_max {A : Type} (key : A -> Q) (xs : list A) : option A :=
  match xs with
  | [] => None
  | x :: rest => Some (max_from key x rest)
  end.

Definition py_min {A : Type} (key : A -> Q) (xs : list A) : option A :=
  match xs with
  | [] => None
  | x :: rest => Some (min_from key x rest)
  end.

(** Truthiness of an optional float: set and not zero. *)
Definition truthy (x : option Q) : bool :=
  match x with
  | Some v => negb (Qeq_bool v 0)
  | None => false
  end.

(** Insertion behind every row that [before] puts strictly ahead. *)
Fixpoint insert_row (before : Row -> Row -> bool) (s : Row) (l : list Row)
  : list Row :=
  match l with
  | [] => [s]
  | x :: rest =>
      if before x s then x :: insert_row before s rest else s :: x :: rest
  end.

(** [sorted(l, key=strike)] with [before x s := strike x < strike s], and
    [sorted(l, key=strike, reverse=True)] with [before x s := strike s <
    strike x]; rows of equal strike keep their original order, as in
    Python's stable sort. *)
Definition sorted_rows (before : Row -> Row -> bool) (l : list Row)
  : list Row :=
  fold_right (insert_row before) [] l.

(** The two [for ... break] loops of [_widen_channel]: walk outward and
    stop at the first candidate far enough from spot. *)
Fixpoint widen_scan (far_enough : Q -> bool) (current : Q)
         (candidates : list Row) : Q :=
  match candidates with
  | [] => current
  | s :: rest =>
      if far_enough (strike s) then strike s
      else widen_scan far_enough (strike s) rest
  end.

Definition _widen_channel (gex_by_strike : list Row)
           (spot floor ceiling max_gex min_width_pct : Q) : Q * Q :=
  let target_half := (min_width_pct / 100) * spot / 2 in
  let candidates_below :=
    sorted_rows (fun x s => Qltb (strike s) (strike x))
      (filter (fun s => Qltb (strike s) floor
                        && Qltb (max_gex * 0.05) (Qabs (net_gex s)))
              gex_by_strike) in
  let new_floor :=
    widen_scan (fun k => Qle_bool target_half (spot - k)) floor
               candidates_below in
  let candidates_above :=
    sorted_rows (fun x s => Qltb (strike x) (strike s))
      (filter (fun s => Qltb ceiling (strike s)
                        && Qltb (max_gex * 0.05) (Qabs (net_gex s)))
              gex_by_strike) in
  let new_ceiling :=
    widen_scan (fun k => Qle_bool target_half (k - spot)) ceiling
               candidates_above in
  (new_floor, new_ceiling).

(** Lines 73-77: the last row whose strike equals [level] supplies the
    reported GEX. *)
Definition gex_at (level : option Q) (gex_by_strike : list Row) : Q :=
  fold_left
    (fun acc s =>
       match level with
       | Some k => if truthy level && Qeq_bool (strike s) k
                   then net_gex s else acc
       | None => acc
       end)
    gex_by_strike 0.

(** Lines 24-29 and 38-42: the floor before widening. *)
Definition initial_floor (gex_by_strike : list Row)
           (spot max_gex floor_threshold : Q) : option Q :=
  let below_positive :=
    filter (fun s => Qltb (strike s) spot
                     && Qltb (max_gex * floor_threshold) (net_gex s))
           gex_by_strike in
  match py_max (fun x => x) (map strike below_positive) with
  | Some floor_strike => Some floor_strike
  | None =>
      let below_any :=
        filter (fun s => Qltb (strike s) spot
                         && Qltb (max_gex * 0.10) (Qabs (net_gex s)))
               gex_by_strike in
      option_map strike (py_max (fun s => Qabs (net_gex s)) below_any)
  end.

(** Lines 31-36 and 44-47: the ceiling before widening. *)
Definition initial_ceiling (gex_by_strike : list Row)
           (spot max_gex ceiling_threshold : Q) : option Q :=
  let above_positive :=
    filter (fun s => Qltb spot (strike s)
                     && Qltb (max_gex * ceiling_threshold) (net_gex s))
           gex_by_strike in
  match py_min (fun x => x) (map strike above_positive) with
  | Some ceiling_strike => Some ceiling_strike
  | None =>
      let above_any :=
        filter (fun s => Qltb spot (strike s)
                         && Qltb (max_gex * 0.10) (Qabs (net_gex s)))
               gex_by_strike in
      option_map strike (py_min (fun s => Qabs (net_gex s)) above_any)
  end.

(** Lines 51-59: the degenerate flag with the levels after the optional
    widening. *)
Definition widen_if_degenerate (gex_by_strike : list Row)
           (spot max_gex min_width_pct : Q)
           (floor_strike ceiling_strike : option Q)
  : bool * option Q * option Q :=
  match floor_strike, ceiling_strike with
  | Some f, Some c =>
      if truthy floor_strike && truthy ceiling_strike
         && Qltb (100 * (c - f) / spot) min_width_pct
      then
        let '(new_floor, new_ceiling) :=
          _widen_channel gex_by_strike spot f c max_gex min_width_pct in
        (true, Some new_floor, Some new_ceiling)
      else (false, floor_strike, ceiling_strike)
  | _, _ => (false, floor_strike, ceiling_strike)
  end.

(** Lines 61-89: the derived fields and the returned dict. *)
Definition build_channel (gex_by_strike : list Row) (spot : Q)
           (degenerate : bool) (floor_strike ceiling_strike : option Q)
  : Channel :=
  let both := truthy floor_strike && truthy ceiling_strike in
  let width_pct :=
    match floor_strike, ceiling_strike with
    | Some f, Some c =>
        if both then Some (py_round (100 * (c - f) / spot) 2) else None
    | _, _ => None
    end in
  let channel_position :=
    match floor_strike, ceiling_strike with
    | Some f, Some c =>
        if both && Qltb f c
        then Some (py_round ((spot - f) / (c - f)) 3) else None
    | _, _ => None
    end in
  let floor_dist :=
    match floor_strike with
    | Some f => if truthy floor_strike
                then Some (py_round (100 * (spot - f) / spot) 2) else None
    | None => None
    end in
  let ceiling_dist :=
    match ceiling_strike with
    | Some c => if truthy ceiling_strike
                then Some (py_round (100 * (c - spot) / spot) 2) else None
    | None => None
    end in
  {| floor := floor_strike;
     ceiling := ceiling_strike;
     floor_distance_pct := floor_dist;
     ceiling_distance_pct := ceiling_dist;
     width_pct := width_pct;
     channel_position := channel_position;
     floor_gex := py_round (gex_at floor_strike gex_by_strike) 2;
     ceiling_gex := py_round (gex_at ceiling_strike gex_by_strike) 2;
     degenerate := degenerate |}.

Definition extract_channel (gex_by_strike : list Row)
           (spot floor_threshold ceiling_threshold min_width_pct : Q)
  : Channel :=
  match gex_by_strike with
  | [] => _empty_channel
  | _ :: _ =>
      if Qle_bool spot 0 then _empty_channel
      else
        match py_max (fun x => x)
                (map (fun s => Qabs (net_gex s)) gex_by_strike) with
        | None => _empty_channel
        | Some max_gex =>
            if Qle_bool max_gex 0 then _empty_channel
            else
              let floor_strike :=
                initial_floor gex_by_strike spot max_gex floor_threshold in
              let ceiling_strike :=
                initial_ceiling gex_by_strike spot max_gex ceiling_threshold in
              let '(degenerate, floor_strike, ceiling_strike) :=
                widen_if_degenerate gex_by_strike spot max_gex min_width_pct
                                    floor_strike ceiling_strike in
              build_channel gex_by_strike spot degenerate
                            floor_strike ceiling_strike
        end
  end.

End GammaChannel.

(** The profile of [test_narrow_channel_widens]. *)
Definition narrow_profile : list GammaChannel.Row :=
  [ {| GammaChannel.strike := 99.5; GammaChannel.net_gex := 800 |};
    {| GammaChannel.strike := 100.5; GammaChannel.net_gex := 800 |};
    {| GammaChannel.strike := 95; GammaChannel.net_gex := 200 |};
    {| GammaChannel.strike := 105; GammaChannel.net_gex := 200 |} ].

(** ** acf_engine.py *)

Module AcfEngine.

(** [pd.Series(prices).pct_change().dropna().values]: one return per
    consecutive pair, [cur / prev - 1]. *)
Fixpoint pct_change (prices : list Q) : list Q :=
  match prices with
  | [] => []
  | prev :: rest =>
      match rest with
      | [] => []
      | cur :: _ => (cur / prev - 1) :: pct_change rest
      end
  end.

Definition np_sum (xs : list Q) : Q := fold_right Qplus 0 xs.

Definition np_mean (xs : list Q) : Q :=
  np_sum xs / inject_Z (Z.of_nat (length xs)).

(** [np.var]: the mean squared deviation from the mean. *)
Definition np_var (xs : list Q) : Q :=
  let m := np_mean xs in
  np_mean (map (fun x => (x - m) * (x - m)) xs).

(** The elementwise product of two arrays of equal length. *)
Definition np_mul (xs ys : list Q) : list Q :=
  map (fun p => fst p * snd p) (combine xs ys).

(** Line 32: the biased autocorrelation at one lag. *)
Definition acf_at (returns : list Q) (mean var : Q) (lag : nat) : Q :=
  let n := length returns in
  np_mean (np_mul (map (fun x => x - mean) (firstn (n - lag) returns))
                  (map (fun x => x - mean) (skipn lag returns)))
  / var.

(** [None] stands for [np.full(max_lag, np.nan)]. *)
Definition compute_daily_acf (prices : list Q) (max_lag : nat)
  : option (list Q) :=
  let returns := pct_change prices in
  if (length returns <? max_lag + 10)%nat then None
  else
    let mean := np_mean returns in
    let var := np_var returns in
    if Qltb var (1 # 1000000000000) then None
    else Some (map (acf_at returns mean var) (seq 1 max_lag)).

Definition classify_regime (acf_lag1 : Q) : string :=
  if Qltb acf_lag1 (-0.05) then "LONG_GAMMA"%string
  else if Qltb 0.05 acf_lag1 then "SHORT_GAMMA"%string
  else "NEUTRAL"%string.

End AcfEngine.

(** ** Price series for the ACF statements *)

Module AcfSeries.

(** [n] prices that start at [a] and alternate with [b]. *)
Fixpoint alternating (a b : Q) (n : nat) : list Q :=
  match n with
  | O => []
  | S k => a :: alternating b a k
  end.

(** [n] prices [start, start + 1, ...]: the ramp of
    [test_positively_autocorrelated], which is [ramp 1 200]. *)
Fixpoint ramp (start : Q) (n : nat) : list Q :=
  match n with
  | O => []
  | S k => start :: ramp (start + 1) k
  end.

(** A strictly increasing series whose steps alternate between 10 and 1. *)
Fixpoint staircase (start : Q) (n : nat) : list Q :=
  match n with
  | O => []
  | S O => [start]
  | S (S k) => start :: (start + 10) :: staircase (start + 11) k
  end.

(** Adjacent products [x0*x1 + x1*x2 + ...]. *)
Fixpoint adjacent_sum (xs : list Q) : Q :=
  match xs with
  | [] => 0
  | x :: rest =>
      match rest with
      | [] => 0
      | y :: _ => x * y + adjacent_sum rest
      end
  end.

(** How many entries lie strictly above, resp. below, [m]. *)
Definition count_above (m : Q) (xs : list Q) : nat :=
  length (filter (fun x => Qltb m x) xs).

Definition count_below (m : Q) (xs : list Q) : nat :=
  length (filter (fun x => Qltb x m) xs).

(** [x >= y], as a relation for sortedness. *)
Definition Qge_rel (x y : Q) : Prop := y <= x.

End AcfSeries.

(** ** gex_calculator.py

    This file needs [exp], [ln] and [sqrt]: its floats are real numbers. *)

Module GexCalculator.

Local Open Scope R_scope.

Definition SHARES_PER_CONTRACT : R := 100.

(** Comparisons as booleans. *)
Definition Rleb (x y : R) : bool := if Rle_dec x y then true else false.
Definition Rltb (x y : R) : bool := if Rlt_dec x y then true else false.
Definition Reqb (x y : R) : bool := if Req_dec_T x y then true else false.

(** Python's [round(x, ndigits)] on a real: nearest multiple of
    [10 ^ -ndigits], ties to the even one. *)
Definition round_half_even (x : R) : Z :=
  let n := Int_part x in
  if Rltb (x - IZR n) (1 / 2) then n
  else if Rltb (1 / 2) (x - IZR n) then (n + 1)%Z
  else if Z.even n then n else (n + 1)%Z.

Definition py_round (x : R) (ndigits : nat) : R :=
  IZR (round_half_even (x * 10 ^ ndigits)) / 10 ^ ndigits.

(** [scipy.stats.norm.pdf]: the standard normal density. *)
Definition norm_pdf (x : R) : R := exp (- (x * x) / 2) / sqrt (2 * PI).

Lemma norm_pdf_continuity : continuity norm_pdf.
Proof. unfold norm_pdf. reg. Qed.

(** [scipy.stats.norm.cdf]: one half plus the integral of the density
    from 0 to [x]. *)
Definition norm_cdf (x : R) : R :=
  match Rle_dec 0 x with
  | left H =>
      1 / 2 + RiemannInt (continuity_implies_RiemannInt H
                            (fun t _ => norm_pdf_continuity t))
  | right H =>
      1 / 2 - RiemannInt (continuity_implies_RiemannInt
                            (Rlt_le _ _ (Rnot_le_lt _ _ H))
                            (fun t _ => norm_pdf_continuity t))
  end.

(** Over the reals the density never vanishes, so past the guard gamma
    is positive; in double precision [norm.pdf] underflows to 0.0 once
    [d1 * d1 / 2] exceeds about 745.  Positivity is used below only at
    strikes where the density is far above that range. *)
Definition black_scholes_gamma (S K T r sigma : R) : R :=
  if Rleb T 0 || Rleb sigma 0 || Rleb S 0 then 0
  else
    let d1 := (ln (S / K) + (r + 0.5 * sigma ^ 2) * T) / (sigma * sqrt T) in
    norm_pdf d1 / (S * sigma * sqrt T).

Definition black_scholes_delta (S K T r sigma : R) (option_type : string)
  : R :=
  if Rleb T 0 || Rleb sigma 0 || Rleb S 0 then 0
  else
    let d1 := (ln (S / K) + (r + 0.5 * sigma ^ 2) * T) / (sigma * sqrt T) in
    if (option_type =? "call")%string then norm_cdf d1
    else norm_cdf d1 - 1.

Definition black_scholes_charm (S K T r sigma : R) (option_type : string)
  : R :=
  if Rleb T 0.001 || Rleb sigma 0 || Rleb S 0 then 0
  else
    let sqrt_T := sqrt T in
    let d1 := (ln (S / K) + (r + 0.5 * sigma ^ 2) * T) / (sigma * sqrt_T) in
    let d2 := d1 - sigma * sqrt_T in
    let charm_base :=
      - norm_pdf d1 * (2 * r * T - d2 * sigma * sqrt_T)
      / (2 * T * sigma * sqrt_T) in
    if (option_type =? "put")%string
    then charm_base + r * exp (- r * T) * norm_cdf (- d2)
    else charm_base - r * exp (- r * T) * norm_cdf d2.

Definition black_scholes_vanna (S K T r sigma : R) : R :=
  if Rleb T 0.001 || Rleb sigma 0 || Rleb S 0 then 0
  else
    let sqrt_T := sqrt T in
    let d1 := (ln (S / K) + (r + 0.5 * sigma ^ 2) * T) / (sigma * sqrt_T) in
    let d2 := d1 - sigma * sqrt_T in
    - norm_pdf d1 * d2 / sigma.

(** One record of the chain; [None] is an absent key. *)
Record Quote := {
  strike : option R;
  openInterest : option Z;
  impliedVolatility : option R
}.

(** [float(c.get("strike", 0))] *)
Definition strike_of (c : Quote) : R := get (strike c) 0.

(** [strikes.add(k)], the set kept sorted. *)
Fixpoint add_strike (k : R) (strikes : list R) : list R :=
  match strikes with
  | [] => [k]
  | x :: rest =>
      if Rltb k x then k :: strikes
      else if Reqb k x then strikes
      else x :: add_strike k rest
  end.

(** Lines 77-89: one input loop; strikes [<= 0] are skipped. *)
Definition collect_strikes (leg : list Quote) (strikes : list R) : list R :=
  fold_left
    (fun acc c => if Rleb (strike_of c) 0 then acc
                  else add_strike (strike_of c) acc)
    leg strikes.

(** [call_map.get(k)]: the last record of the leg stored under [k]. *)
Definition leg_get (leg : list Quote) (k : R) : option Quote :=
  fold_left
    (fun found c => if Rleb (strike_of c) 0 then found
                    else if Reqb (strike_of c) k then Some c else found)
    leg None.

(** [int(leg_map.get(k, {}).get("openInterest", 0))] *)
Definition leg_oi (leg : list Quote) (k : R) : Z :=
  match leg_get leg k with
  | Some c => get (openInterest c) 0%Z
  | None => 0%Z
  end.

(** [max(float(leg_map.get(k, {}).get("impliedVolatility", 0.3)), 0.01)] *)
Definition leg_iv (leg : list Quote) (k : R) : R :=
  Rmax (match leg_get leg k with
        | Some c => get (impliedVolatility c) 0.3
        | None => 0.3
        end) 0.01.

(** One entry of [gex_by_strike]. *)
Record Row := {
  row_strike : R;
  call_oi : Z;
  put_oi : Z;
  call_gex : R;
  put_gex : R;
  net_gex : R;
  call_delta : R;
  put_delta : R;
  net_dealer_delta : R;
  call_charm : R;
  put_charm : R;
  net_charm : R;
  call_vanna : R;
  put_vanna : R;
  net_vanna : R
}.

Section Profile.

Variables (calls puts : list Quote) (spot : R) (dte : Z) (risk_free_rate : R).

Definition time_to_expiry : R := Rmax (IZR dte / 365.0) 0.001.

(** Lines 110-111, before rounding. *)
Definition raw_call_gex (k : R) : R :=
  black_scholes_gamma spot k time_to_expiry risk_free_rate (leg_iv calls k)
  * IZR (leg_oi calls k) * SHARES_PER_CONTRACT * spot.

Definition raw_put_gex (k : R) : R :=
  - black_scholes_gamma spot k time_to_expiry risk_free_rate (leg_iv puts k)
  * IZR (leg_oi puts k) * SHARES_PER_CONTRACT * spot.

(** Lines 97-142: the row appended for strike [k]. *)
Definition make_row (k : R) : Row :=
  let T := time_to_expiry in
  let c_oi := leg_oi calls k in
  let p_oi := leg_oi puts k in
  let c_iv := leg_iv calls k in
  let p_iv := leg_iv puts k in
  let c_gex := raw_call_gex k in
  let p_gex := raw_put_gex k in
  let c_delta := black_scholes_delta spot k T risk_free_rate c_iv "call" in
  let p_delta := black_scholes_delta spot k T risk_free_rate p_iv "put" in
  let c_charm := black_scholes_charm spot k T risk_free_rate c_iv "call" in
  let p_charm := black_scholes_charm spot k T risk_free_rate p_iv "put" in
  let c_vanna := black_scholes_vanna spot k T risk_free_rate c_iv in
  let p_vanna := black_scholes_vanna spot k T risk_free_rate p_iv in
  let net := c_gex + p_gex in
  {| row_strike := k;
     call_oi := c_oi;
     put_oi := p_oi;
     call_gex := py_round c_gex 2;
     put_gex := py_round p_gex 2;
     net_gex := py_round net 2;
     call_delta := py_round c_delta 4;
     put_delta := py_round p_delta 4;
     net_dealer_delta :=
       py_round (- (c_delta * IZR c_oi + p_delta * IZR p_oi)
                 * SHARES_PER_CONTRACT) 2;
     call_charm := py_round (c_charm * IZR c_oi * SHARES_PER_CONTRACT) 2;
     put_charm := py_round (p_charm * IZR p_oi * SHARES_PER_CONTRACT) 2;
     net_charm :=
       py_round ((c_charm * IZR c_oi + p_charm * IZR p_oi)
                 * SHARES_PER_CONTRACT) 2;
     call_vanna := py_round (c_vanna * IZR c_oi * SHARES_PER_CONTRACT) 2;
     put_vanna := py_round (p_vanna * IZR p_oi * SHARES_PER_CONTRACT) 2;
     net_vanna :=
       py_round ((c_vanna * IZR c_oi + p_vanna * IZR p_oi)
                 * SHARES_PER_CONTRACT) 2 |}.

End Profile.

(** [min(xs, key=key)] and [max(xs, key=key)] scanning from [best]. *)
Fixpoint min_from {A : Type} (key : A -> R) (best : A) (xs : list A) : A :=
  match xs with
  | [] => best
  | x :: rest => min_from key (if Rltb (key x) (key best) then x else best) rest
  end.

Fixpoint max_from {A : Type} (key : A -> R) (best : A) (xs : list A) : A :=
  match xs with
  | [] => best
  | x :: rest => max_from key (if Rltb (key best) (key x) then x else best) rest
  end.

(** Lines 353-362: the interpolated zero crossings between neighbours. *)
Fixpoint crossings (gex_by_strike : list Row) : list R :=
  match gex_by_strike with
  | [] => []
  | r1 :: rest =>
      match rest with
      | [] => []
      | r2 :: _ =>
          let g1 := net_gex r1 in
          let g2 := net_gex r2 in
          if Rltb (g1 * g2) 0
          then
            let s1 := row_strike r1 in
            let s2 := row_strike r2 in
            py_round (s1 + (s2 - s1) * Rabs g1 / (Rabs g1 + Rabs g2)) 2
            :: crossings rest
          else crossings rest
      end
  end.

Definition _find_gex_flip (gex_by_strike : list Row) (spot : R) : option R :=
  if (length gex_by_strike <? 2)%nat then None
  else
    match crossings gex_by_strike with
    | [] => None
    | x :: rest => Some (min_from (fun x => Rabs (x - spot)) x rest)
    end.

(** The returned dict, without its ["entropy"] entry, which
    [compute_gex_entropy] derives from [gex_by_strike] alone. *)
Record Profile := {
  gex_by_strike : list Row;
  total_gex : R;
  total_call_gex : R;
  total_put_gex : R;
  flip_point : option R;
  abs_gamma_strike : R;
  regime : string;
  total_charm : R;
  total_vanna : R
}.

(** The running totals after the loop over the strikes. *)
Definition accumulate (f : R -> R) (strikes : list R) : R :=
  fold_left (fun total k => total + f k) strikes 0.

Definition calculate_gex_profile (calls puts : list Quote) (spot : R)
           (dte : Z) (risk_free_rate : R) : Profile :=
  let strikes := collect_strikes puts (collect_strikes calls []) in
  let rows := map (make_row calls puts spot dte risk_free_rate) strikes in
  let total_call := accumulate (raw_call_gex calls spot dte risk_free_rate)
                               strikes in
  let total_put := accumulate (raw_put_gex puts spot dte risk_free_rate)
                              strikes in
  let flip := _find_gex_flip rows spot in
  let abs_gamma :=
    match rows with
    | [] => spot
    | x :: rest => row_strike (max_from (fun x => Rabs (net_gex x)) x rest)
    end in
  let total := total_call + total_put in
  let regime :=
    match flip with
    | Some f => if Rleb f spot then "POSITIVE_GAMMA"%string
                else "NEGATIVE_GAMMA"%string
    | None => if Rleb 0 total then "POSITIVE_GAMMA"%string
              else "NEGATIVE_GAMMA"%string
    end in
  {| gex_by_strike := rows;
     total_gex := py_round total 2;
     total_call_gex := py_round total_call 2;
     total_put_gex := py_round total_put 2;
     flip_point := flip;
     abs_gamma_strike := abs_gamma;
     regime := regime;
     total_charm := py_round (fold_right Rplus 0 (map net_charm rows)) 2;
     total_vanna := py_round (fold_right Rplus 0 (map net_vanna rows)) 2 |}.

(** The aggregate the regime fallback looks at: [total_call_gex +
    total_put_gex] before rounding. *)
Definition aggregate_gex (calls puts : list Quote) (spot : R)
           (dte : Z) (risk_free_rate : R) : R :=
  let strikes := collect_strikes puts (collect_strikes calls []) in
  accumulate (raw_call_gex calls spot dte risk_free_rate) strikes
  + accumulate (raw_put_gex puts spot dte risk_free_rate) strikes.

(** [make_option(strike, oi, iv=iv)] of the test fixtures. *)
Definition make_option (k : R) (oi : Z) (iv : R) : Quote :=
  {| strike := Some k; openInterest := Some oi; impliedVolatility := Some iv |}.

End GexCalculator.

(** The chain behind the row whose parts do not add up: two calls and one
    put at the money, 35% implied volatility, two days to expiry. *)
Definition two_dte_calls : list GexCalculator.Quote :=
  [GexCalculator.make_option 100 2 0.35].

Definition two_dte_puts : list GexCalculator.Quote :=
  [GexCalculator.make_option 100 1 0.35].

(** ** Auxiliary notions for the flip-point statements *)

Module GexAux.

Import GexCalculator.
Local Open Scope R_scope.

(** Two values of opposite sign. *)
Definition opposite_signed (g1 g2 : R) : Prop :=
  (g1 < 0 /\ 0 < g2) \/ (0 < g1 /\ g2 < 0).

(** No two neighbouring rows carry opposite-signed net GEX. *)
Fixpoint no_adjacent_sign_change (rows : list Row) : Prop :=
  match rows with
  | [] => True
  | r1 :: rest =>
      match rest with
      | [] => True
      | r2 :: _ =>
          ~ opposite_signed (net_gex r1) (net_gex r2)
          /\ no_adjacent_sign_change rest
      end
  end.

End GexAux.

(** ** max_pain.py: OI walls *)

Module OiWalls.

Import MaxPain.

(** Insertion behind every pair of strictly larger open interest. *)
Fixpoint insert_by_oi (x : Q * Z) (l : list (Q * Z)) : list (Q * Z) :=
  match l with
  | [] => [x]
  | y :: rest =>
      if (snd x <? snd y)%Z then y :: insert_by_oi x rest else x :: y :: rest
  end.

(** [l.sort(key=lambda x: x[1], reverse=True)]: descending open interest,
    pairs of equal open interest in their original order. *)
Definition sort_by_oi_desc (l : list (Q * Z)) : list (Q * Z) :=
  fold_right insert_by_oi [] l.

(** Descending open interest. *)
Definition oi_desc (a b : Q * Z) : Prop := (snd b <= snd a)%Z.

(** The returned dict. *)
Record Walls := {
  call_wall : Q * Z;
  put_wall : Q * Z;
  top_call_walls : list (Q * Z);
  top_put_walls : list (Q * Z)
}.

Definition find_oi_walls (calls puts : list Quote) (spot : Q) : Walls :=
  let calls_above :=
    sort_by_oi_desc
      (leg_data (filter (fun c => Qltb spot (strike c)) calls)) in
  let puts_below :=
    sort_by_oi_desc
      (leg_data (filter (fun p => Qltb (strike p) spot) puts)) in
  {| call_wall := hd (0, 0%Z) calls_above;
     put_wall := hd (0, 0%Z) puts_below;
     top_call_walls := firstn 5 calls_above;
     top_put_walls := firstn 5 puts_below |}.

End OiWalls.

(** ** gamma_channel.py: the channel strategy *)

Module ChannelStrategy.

Import GammaChannel.
Open Scope string_scope.

(** The returned dict. *)
Record Strategy := {
  strategy : string;
  edge_type : string;
  notes : list string;
  channel : Channel
}.

Definition channel_strategy (channel : Channel)
           (regime reynolds_regime : string) (re_gamma : Q) : Strategy :=
  let pos := channel_position channel in
  if negb (truthy (floor channel)) || negb (truthy (ceiling channel))
     || negb (truthy (width_pct channel))
  then {| strategy := "NO_CHANNEL"; edge_type := "NEUTRAL"; notes := [];
          channel := channel |}
  else
    let is_long_gamma :=
      (regime =? "POSITIVE_GAMMA") || (regime =? "LONG_GAMMA") in
    let is_laminar := (reynolds_regime =? "LAMINAR") || Qltb re_gamma 0.7 in
    let notes :=
      if degenerate channel
      then ["Channel was widened — original bounds were <1% apart (pin zone)"]
      else [] in
    let below (bound : Q) :=
      match pos with Some p => Qltb p bound | None => false end in
    let above (bound : Q) :=
      match pos with Some p => Qltb bound p | None => false end in
    if is_long_gamma && is_laminar then
      if below 0.25 then
        {| strategy := "GEX_FLOOR_BOUNCE"; edge_type := "WITH_DEALER";
           notes := notes ++ ["Price near floor — dealers will buy the dip here";
                              "BUY CALLS targeting mid-channel"];
           channel := channel |}
      else if above 0.75 then
        {| strategy := "GEX_CEILING_FADE"; edge_type := "WITH_DEALER";
           notes := notes ++ ["Price near ceiling — dealers will sell the rip here";
                              "BUY PUTS targeting mid-channel"];
           channel := channel |}
      else
        {| strategy := "CHANNEL_RANGE"; edge_type := "WITH_DEALER";
           notes := notes ++ ["Mid-channel in long gamma. Fade moves to bounds."];
           channel := channel |}
    else if (reynolds_regime =? "TURBULENT") || Qltb 1.0 re_gamma then
      {| strategy := "BREAKOUT_CHANNEL"; edge_type := "AGAINST_DEALER";
         notes := notes ++ ["Dealers overwhelmed — channel bounds become breakout triggers"];
         channel := channel |}
    else if reynolds_regime =? "TRANSITIONAL" then
      {| strategy := "TRANSITION_WATCH"; edge_type := "TRANSITIONAL";
         notes := notes ++ ["Reynolds at transition zone — watch for regime flip"];
         channel := channel |}
    else
      {| strategy := "WAIT"; edge_type := "NEUTRAL"; notes := notes;
         channel := channel |}.

(** The strategies that trade with the dealer. *)
Definition with_dealer_strategy (s : string) : bool :=
  (s =? "GEX_FLOOR_BOUNCE") || (s =? "GEX_CEILING_FADE")
  || (s =? "CHANNEL_RANGE").

End ChannelStrategy.

(** ** Auxiliary notion for the ACF bound *)

Module AcfAux.

(** The sum of the squares of a list. *)
Definition sum_squares (xs : list Q) : Q :=
  AcfEngine.np_sum (map (fun x => x * x) xs).

End AcfAux.

(** ** acf_engine.py: self-excitation *)

Module SelfExcitation.

Import AcfEngine.
Open Scope string_scope.

(** The returned dict. *)
Record Sei := {
  sei : Q;
  regime : string;
  description : string;
  n_clusters : nat;
  avg_cluster_size : Q;
  max_cluster_size : nat;
  total_excitation_events : nat
}.

Definition _empty_sei : Sei :=
  {| sei := 0; regime := "NONE"; description := "Insufficient data";
     n_clusters := 0; avg_cluster_size := 0; max_cluster_size := 0;
     total_excitation_events := 0 |}.

(** The loop variables [clusters], [current_cluster], [last_sign]. *)
Record Scan := {
  clusters : list (list Q);
  current_cluster : list Q;
  last_sign : Z
}.

(** [if len(current_cluster) >= 2: clusters.append(current_cluster[:])] *)
Definition flush (st : Scan) : list (list Q) :=
  if (2 <=? length (current_cluster st))%nat
  then clusters st ++ [current_cluster st]
  else clusters st.

(** One pass of the loop body, for the return [r]. *)
Definition scan_step (threshold : Q) (st : Scan) (r : Q) : Scan :=
  if Qle_bool threshold (Qabs r) then
    let sign := if Qltb 0 r then 1%Z else (-1)%Z in
    if (sign =? last_sign st)%Z || (last_sign st =? 0)%Z then
      {| clusters := clusters st;
         current_cluster := current_cluster st ++ [Qabs r];
         last_sign := sign |}
    else
      {| clusters := flush st;
         current_cluster := [Qabs r];
         last_sign := sign |}
  else
    {| clusters := flush st; current_cluster := []; last_sign := 0%Z |}.

(** The clusters after the loop and the final flush. *)
Definition find_clusters (threshold : Q) (returns : list Q) : list (list Q) :=
  flush (fold_left (scan_step threshold) returns
           {| clusters := []; current_cluster := []; last_sign := 0%Z |}).

(** [sum(len(c) for c in clusters)] *)
Definition events (cs : list (list Q)) : nat :=
  fold_right Nat.add 0%nat (map (@length Q) cs).

(** [max(len(c) for c in clusters)] on a non-empty list. *)
Definition max_len (first : list Q) (rest : list (list Q)) : nat :=
  fold_left Nat.max (map (@length Q) rest) (length first).

Definition cluster_score (c : list Q) : Q :=
  inject_Z (Z.of_nat (length c)) * np_sum c * 10000.

Definition compute_self_excitation (prices : list Q) (threshold_pct : Q)
  : Sei :=
  let returns := pct_change prices in
  if (length returns <? 20)%nat then _empty_sei
  else
    let threshold := threshold_pct / 100 in
    match find_clusters threshold returns with
    | [] => _empty_sei
    | first :: rest =>
        let found := first :: rest in
        let cluster_scores := map cluster_score found in
        let sei := np_mean cluster_scores in
        let max_cluster := max_len first rest in
        let avg_size :=
          np_mean (map (fun c => inject_Z (Z.of_nat (length c))) found) in
        let '(regime, desc) :=
          if Qltb 150 sei then
            ("HIGH_EXCITATION",
             "Strong self-exciting feedback — moves amplify rapidly")
          else if Qltb 80 sei then
            ("MODERATE_EXCITATION",
             "Some self-exciting behavior — occasional momentum bursts")
          else if Qltb 40 sei then
            ("LOW_EXCITATION",
             "Weak self-excitation — moves don't consistently amplify")
          else
            ("NONE",
             "No meaningful self-excitation — mean-reversion dominant") in
        {| sei := py_round sei 3;
           regime := regime;
           description := desc;
           n_clusters := length found;
           avg_cluster_size := py_round avg_size 1;
           max_cluster_size := max_cluster;
           total_excitation_events := events found |}
    end.

(** A cluster the scan may record: at least two moves, each at least the
    threshold. *)
Definition well_formed_cluster (threshold : Q) (c : list Q) : Prop :=
  (2 <= length c)%nat /\ Forall (fun x => threshold <= x) c.

End SelfExcitation.

(** ** gamma_reynolds.py: phase transition *)

Module PhaseTransition.

Open Scope string_scope.

(** One entry of [acf_daily_results]; only ["lag1_acf"] is read. *)
Record AcfDay := { lag1_acf : Q }.

(** The dict returned past the first guard. *)
Record Measured := {
  pct_amplified : Q;
  distance_to_transition : Q;
  regime : string;
  warning : option string;
  n_amplified_days : nat;
  window : nat
}.

(** The two shapes of the result: [{"regime": "UNKNOWN", "pct_amplified": 0}]
    or the full dict. *)
Inductive Transition :=
| Unknown
| Known (m : Measured).

(** [xs[s:]] with Python's handling of a negative start. *)
Definition py_slice_from {A : Type} (s : Z) (xs : list A) : list A :=
  let len := Z.of_nat (length xs) in
  let start := if (s <? 0)%Z then Z.max (len + s) 0 else Z.min s len in
  skipn (Z.to_nat start) xs.

(** [None] is the ZeroDivisionError of [100 * n_amplified / len(recent)]
    on an empty slice. *)
Definition detect_phase_transition
    (acf_daily_results : list AcfDay) (window : Z) (threshold_pct : Q)
  : option Transition :=
  match acf_daily_results with
  | [] => Some Unknown
  | _ :: _ =>
      let recent :=
        if (window <=? Z.of_nat (length acf_daily_results))%Z
        then py_slice_from (- window) acf_daily_results
        else acf_daily_results in
      let lag1_values := map lag1_acf recent in
      let n_amplified := length (filter (fun v => Qltb 0.05 v) lag1_values) in
      match recent with
      | [] => None
      | _ :: _ =>
          let pct_amplified :=
            100 * inject_Z (Z.of_nat n_amplified)
            / inject_Z (Z.of_nat (length recent)) in
          let distance := threshold_pct - pct_amplified in
          let '(regime, warning) :=
            if Qltb threshold_pct pct_amplified then
              ("TURBULENT",
               Some "ABOVE critical threshold — phase transition likely")
            else if Qltb (threshold_pct * 0.7) pct_amplified then
              ("APPROACHING",
               Some "Approaching critical threshold — elevated risk")
            else ("LAMINAR", None) in
          Some (Known
            {| pct_amplified := py_round pct_amplified 1;
               distance_to_transition := py_round distance 1;
               regime := regime;
               warning := warning;
               n_amplified_days := n_amplified;
               window := length recent |})
      end
  end.

(** The days of the last [w] entries whose lag-1 value exceeds 0.05. *)
Definition amplified_in_last (w : nat) (days : list AcfDay) : nat :=
  length (filter (fun v => Qltb 0.05 v)
            (map lag1_acf (skipn (length days - w) days))).

End PhaseTransition.

(** ** directional_engine.py: bias, labels and strikes *)

Module DirectionalBias.

Import DirectionalEngine.
Open Scope string_scope.

(** The description of the charm branch is an f-string that prints
    [max_pain]; the other descriptions are literals. *)
Inductive Description :=
| Text (s : string)
| CharmPull (max_pain : Q).

Record Bias := {
  direction : string;
  action : string;
  style : string;
  description : Description;
  strength : string
}.

Section Bias.

Variables (thesis : string) (spot flip_point max_pain : Q)
          (ch_pos : option Q) (charm vanna : Q) (dte : Z)
          (tech_bias_dir : string) (ma_alignment tech_score : Q).

(** The nested helper of lines 241-258. *)
Definition _resolve_direction (gex_dir : string) : string :=
  if Qle_bool 2 (Qabs tech_score) then
    let tech_dir := if Qle_bool 2 tech_score then "BULLISH" else "BEARISH" in
    if negb (tech_dir =? gex_dir) then tech_dir else gex_dir
  else if Qle_bool 3 (Qabs ma_alignment) then
    let tech_dir := if Qle_bool 3 ma_alignment then "BULLISH" else "BEARISH" in
    if negb (tech_dir =? gex_dir) then tech_dir else gex_dir
  else gex_dir.

(** [vanna] and [tech_bias_dir] are accepted and never read. *)
Definition _compute_bias : Bias :=
  if (thesis =? "MOMENTUM_BREAKOUT") || (thesis =? "MOMENTUM_EARLY")
     || (thesis =? "MOMENTUM_TREND") then
    let gex_dir := if Qltb flip_point spot then "BULLISH" else "BEARISH" in
    let direction := _resolve_direction gex_dir in
    {| direction := direction;
       action := if direction =? "BULLISH" then "BUY CALLS" else "BUY PUTS";
       style := "RIDE MOMENTUM";
       description :=
         Text "Moves follow through. Don't fade — ride the trend.";
       strength :=
         if thesis =? "MOMENTUM_BREAKOUT" then "STRONG" else "MODERATE" |}
  else if (thesis =? "FADE_MOVES") || (thesis =? "FADE_MILD") then
    let '(direction, desc) :=
      if Qle_bool 2 (Qabs tech_score) || Qle_bool 3 (Qabs ma_alignment) then
        (if Qle_bool 1 tech_score || Qle_bool 2 ma_alignment
         then "BULLISH" else "BEARISH",
         "Dealers dampen moves. Fade against the trend intraday but structural lean follows MAs.")
      else
        (if Qltb spot max_pain then "BULLISH" else "BEARISH",
         "Dealers dampen moves. Buy the opposite of today's move. Quick in-and-out.") in
    {| direction := direction;
       action := "BUY CALLS on dips, BUY PUTS on rips";
       style := "FADE & MEAN-REVERT";
       description := Text desc;
       strength := if thesis =? "FADE_MOVES" then "STRONG" else "MODERATE" |}
  else if thesis =? "CONFLICTED_PIN" then
    {| direction := "NEUTRAL";
       action := "BUY toward walls, SELL at walls";
       style := "PIN & FADE AT WALLS";
       description :=
         Text "Walls will hold (Re < 1). Trade TO walls, not through them. Fade the touch.";
       strength := "MODERATE" |}
  else
    if match ch_pos with Some p => Qltb p 0.25 | None => false end then
      {| direction := "BULLISH";
         action := "BUY CALLS near floor";
         style := "CHANNEL BOUNCE";
         description :=
           Text "No strong regime signal but price near GEX floor. Lean bullish.";
         strength := "WEAK" |}
    else if match ch_pos with Some p => Qltb 0.75 p | None => false end then
      {| direction := "BEARISH";
         action := "BUY PUTS near ceiling";
         style := "CHANNEL FADE";
         description :=
           Text "No strong regime signal but price near GEX ceiling. Lean bearish.";
         strength := "WEAK" |}
    else if (dte <=? 5)%Z && Qltb charm (-10000) then
      {| direction := if Qltb max_pain spot then "BEARISH" else "BULLISH";
         action := "BUY " ++ (if Qltb max_pain spot then "PUTS" else "CALLS")
                   ++ " — charm drift";
         style := "DRIFT TOWARD MAX PAIN";
         description := CharmPull max_pain;
         strength := "MODERATE" |}
    else
      {| direction := "NEUTRAL";
         action := "WAIT or small lottery";
         style := "NO CLEAR EDGE";
         description :=
           Text "No confirmed regime. Stay flat or take tiny positions.";
         strength := "NONE" |}.

End Bias.

(** [labels.get(thesis, thesis)] *)
Definition _thesis_label (thesis : string) : string :=
  if thesis =? "MOMENTUM_BREAKOUT" then "Confirmed Breakout — Ride It"
  else if thesis =? "MOMENTUM_EARLY"
       then "Early Momentum — Position Before Confirmation"
  else if thesis =? "MOMENTUM_TREND" then "Trending — Ride the Direction"
  else if thesis =? "CONFLICTED_PIN"
       then "Walls Hold — Trade TO Walls, Not Through"
  else if thesis =? "FADE_MOVES"
       then "Strong Mean-Reversion — Fade Every Move"
  else if thesis =? "FADE_MILD" then "Mild Dampening — Fade Cautiously"
  else if thesis =? "NEUTRAL" then "No Clear Edge — Wait or Lottery Only"
  else thesis.

Definition _build_avoid_list (thesis phase_regime : string) : list string :=
  let avoid : list string := [] in
  let avoid :=
    if (thesis =? "MOMENTUM_BREAKOUT") || (thesis =? "MOMENTUM_TREND")
       || (thesis =? "MOMENTUM_EARLY")
    then (avoid ++ ["Do NOT fade the move — ACF says moves follow through";
                   "Do NOT sell premium — you'll get run over in momentum regimes"])%list
    else avoid in
  let avoid :=
    if (thesis =? "FADE_MOVES") || (thesis =? "FADE_MILD")
    then (avoid ++ ["Do NOT chase breakouts — they're more likely to reverse";
                   "Do NOT hold fades too long — take profit in 1-2 days"])%list
    else avoid in
  let avoid :=
    if thesis =? "CONFLICTED_PIN"
    then (avoid ++ ["Do NOT assume walls will break — Re says dealers have capacity";
                   "Do NOT hold calls through the wall — take profit AT the wall"])%list
    else avoid in
  let avoid :=
    if thesis =? "NEUTRAL"
    then (avoid ++ ["Do NOT force a trade — no edge means no trade"])%list
    else avoid in
  let avoid :=
    if phase_regime =? "TURBULENT"
    then (avoid ++ ["Do NOT undersize — phase transitions move fast"])%list
    else avoid in
  avoid.

(** Lines 330-341. *)
Definition _round_strike (price spot : Q) : Q :=
  let inc :=
    if Qltb 500 spot then 5.0
    else if Qltb 100 spot then 5.0
    else if Qltb 50 spot then 2.5
    else if Qltb 20 spot then 1.0
    else 0.5 in
  inject_Z (round_half_even (price / inc)) * inc.

(** The seven theses of the decision tree. *)
Definition theses : list string :=
  ["MOMENTUM_BREAKOUT"; "MOMENTUM_EARLY"; "CONFLICTED_PIN"; "MOMENTUM_TREND";
   "FADE_MOVES"; "FADE_MILD"; "NEUTRAL"].

End DirectionalBias.

(** ** directional_engine.py: reachability and wall-break odds *)

Module WallBreak.

Import GexCalculator.
Local Open Scope R_scope.
Open Scope string_scope.

(** Lines 344-349. *)
Definition _atr_max_move (atr_dollar : R) (dte : Z) (multiplier : R) : R :=
  if Rleb atr_dollar 0 || (dte <=? 0)%Z then 0
  else atr_dollar * sqrt (IZR dte) * multiplier.

(** Lines 330-341 over the reals, as the clamps below feed it values
    built with [np.sqrt]. *)
Definition _round_strike (price spot : R) : R :=
  let inc :=
    if Rltb 500 spot then 5.0
    else if Rltb 100 spot then 5.0
    else if Rltb 50 spot then 2.5
    else if Rltb 20 spot then 1.0
    else 0.5 in
  IZR (round_half_even (price / inc)) * inc.

Definition _clamp_strike (desired spot atr_dollar : R) (dte : Z)
           (is_call : bool) : R :=
  if Rleb atr_dollar 0 || (dte <=? 0)%Z then desired
  else
    let max_move := _atr_max_move atr_dollar dte 1.5 in
    if is_call then
      let cap := spot + max_move in
      Rmin desired (_round_strike cap spot)
    else
      let floor := spot - max_move in
      Rmax desired (_round_strike floor spot).

Definition _clamp_target (target_price spot atr_dollar : R) (dte : Z) : R :=
  if Rleb atr_dollar 0 || (dte <=? 0)%Z then target_price
  else
    let max_move := _atr_max_move atr_dollar dte 2.0 in
    let upper := spot + max_move in
    let lower := spot - max_move in
    Rmax lower (Rmin upper target_price).

Definition _collision_probability (spot level atr_dollar : R) (dte : Z) : R :=
  if Rleb atr_dollar 0 || (dte <=? 0)%Z || Rleb level 0 then 0.5
  else
    let distance := Rabs (spot - level) in
    if Rltb distance 0.01 then 0.95
    else
      let max_move := atr_dollar * sqrt (IZR dte) in
      Rmin 0.95 (Rmax 0.05 (max_move / (2 * distance))).

Record WallBreakEstimate := {
  probability : Z;
  confidence : string;
  explanation : string;
  re_says : string;
  acf_says : string;
  sei_says : string;
  gamma_asymmetry : R;
  collision_prob_call_wall : R;
  collision_prob_put_wall : R;
  beta_adj_factor : R;
  re_beta_adj : R
}.

(** [sum(1 for s in signals if s == verdict)] *)
Definition count_saying (verdict : string) (signals : list string) : nat :=
  length (filter (String.eqb verdict) signals).

(** [re_regime] and [cp_ratio] are accepted and never read. *)
Definition _estimate_wall_break_probability
    (re_gamma : R) (re_regime : string) (acf1 pct_amp pct_damp : R)
    (phase_regime : string) (cp_ratio beta_adj atr_dollar : R) (dte : Z)
    (call_wall_strike put_wall_strike spot sei : R)
    (entropy_regime gex_regime : string) : WallBreakEstimate :=
  let prob := 15.0 in
  let re_adj := re_gamma * beta_adj in
  let prob :=
    if Rltb 2.0 re_adj then prob + 45
    else if Rltb 1.0 re_adj then prob + 30
    else if Rltb 0.7 re_adj then prob + 15
    else if Rltb 0.3 re_adj then prob + 5
    else prob in
  let gamma_asymmetry :=
    if gex_regime =? "POSITIVE_GAMMA" then -12 else 5 in
  let prob := prob + gamma_asymmetry in
  let prob :=
    if Rltb 0.10 acf1 then prob + 10
    else if Rltb 0.05 acf1 then prob + 5
    else if Rltb acf1 (-0.15) then prob - 10
    else if Rltb acf1 (-0.05) then prob - 5
    else prob in
  let prob :=
    if phase_regime =? "TURBULENT" then prob + 10
    else if phase_regime =? "APPROACHING" then prob + 5
    else prob in
  let prob :=
    if Rltb 150 sei then prob + 8
    else if Rltb 80 sei then prob + 4
    else prob in
  let prob :=
    if entropy_regime =? "CRITICAL" then prob + 10
    else if entropy_regime =? "APPROACHING" then prob + 5
    else prob in
  let p_cw :=
    if Rltb 0 call_wall_strike && Rltb 0 spot
    then _collision_probability spot call_wall_strike atr_dollar dte
    else 0.5 in
  let p_pw :=
    if Rltb 0 put_wall_strike && Rltb 0 spot
    then _collision_probability spot put_wall_strike atr_dollar dte
    else 0.5 in
  let p_nearest := Rmax p_cw p_pw in
  let prob :=
    if Rltb 0.05 p_nearest && Rltb p_nearest 0.95 then
      let odds := p_nearest / (1 - p_nearest) in
      let collision_adj := (1 + ln (1 + odds)) / 2 in
      prob * collision_adj
    else prob in
  let prob := Rmax 5 (Rmin 95 prob) in
  let re_says := if Rltb 1.0 re_adj then "BREAK" else "HOLD" in
  let acf_says :=
    if (Rltb pct_damp pct_amp && Rltb 0 acf1) || Rltb 0.10 acf1
    then "BREAK" else "HOLD" in
  let sei_says := if Rltb 150 sei then "BREAK" else "HOLD" in
  let agree_break := count_saying "BREAK" [re_says; acf_says; sei_says] in
  let agree_hold := count_saying "HOLD" [re_says; acf_says; sei_says] in
  let '(confidence, explanation) :=
    if (2 <=? agree_break)%nat && (re_says =? "BREAK") then
      ("HIGH",
       "Reynolds (beta-adj) + "
       ++ (if acf_says =? "BREAK" then "ACF" else "SEI")
       ++ " agree: walls should break")
    else if (2 <=? agree_hold)%nat && (re_says =? "HOLD") then
      ("HIGH", "Reynolds + ACF agree: walls hold (expect reversal)")
    else if re_says =? "BREAK" then
      ("MEDIUM",
       "Reynolds says break, waiting for ACF/SEI confirmation — early stage")
    else if (acf_says =? "BREAK") || (sei_says =? "BREAK") then
      ("LOW",
       "Flow signals suggest break but Reynolds says dealers still in control")
    else
      ("HIGH", "All signals agree: walls hold (expect reversal)") in
  {| probability := round_half_even prob;
     confidence := confidence;
     explanation := explanation;
     re_says := re_says;
     acf_says := acf_says;
     sei_says := sei_says;
     gamma_asymmetry := gamma_asymmetry;
     collision_prob_call_wall := py_round (p_cw * 100) 1;
     collision_prob_put_wall := py_round (p_pw * 100) 1;
     beta_adj_factor := py_round beta_adj 2;
     re_beta_adj := py_round re_adj 2 |}.

End WallBreak.

(** ** gamma_reynolds.py: the gamma Reynolds number *)

Module GammaReynolds.

Import GexCalculator.
Local Open Scope R_scope.
Open Scope string_scope.

(** One record of the chain; [None] is an absent key or a [None] value,
    which [c.get(key, 0) or 0] treats alike. *)
Record Quote := {
  strike : option R;
  volume : option Z;
  openInterest : option Z;
  impliedVolatility : option R
}.

(** [float(c.get("impliedVolatility", 0.3) or 0.3)]: a zero is falsy. *)
Definition iv_of (c : Quote) : R :=
  match impliedVolatility c with
  | Some v => if Reqb v 0 then 0.3 else v
  | None => 0.3
  end.

(** [re_gamma] is a float that may be [float("inf")]. *)
Inductive Ratio :=
| Finite (r : R)
| Infinite.

(** [re_gamma > c] and [min(re_gamma, c)]. *)
Definition exceeds (re : Ratio) (c : R) : bool :=
  match re with
  | Finite r => Rltb c r
  | Infinite => true
  end.

Definition capped (re : Ratio) (c : R) : R :=
  match re with
  | Finite r => Rmin r c
  | Infinite => c
  end.

Record Reynolds := {
  reynolds_number : R;
  speculative_gamma : R;
  dealer_gamma : R;
  regime : string;
  call_put_ratio : R;
  call_volume : Z;
  put_volume : Z;
  call_oi : Z;
  put_oi : Z;
  atm_iv : R
}.

(** The loop variables. *)
Record Tally := {
  t_volume : Z;
  t_oi : Z;
  t_speculative : R;
  t_dealer : R;
  t_atm_ivs : list R
}.

Definition gamma_proxy (spot strike iv : R) : R :=
  let moneyness := spot / strike in
  exp (- 0.5 * (ln moneyness / Rmax iv 0.01) ^ 2).

(** One pass of the loop over the calls. *)
Definition call_step (spot : R) (t : Tally) (c : Quote) : Tally :=
  let strike := get (strike c) 0 in
  let vol := get (volume c) 0%Z in
  let oi := get (openInterest c) 0%Z in
  let iv := iv_of c in
  let call_volume := (t_volume t + vol)%Z in
  let call_oi := (t_oi t + oi)%Z in
  if Rleb strike 0 || Rleb iv 0 then
    {| t_volume := call_volume; t_oi := call_oi;
       t_speculative := t_speculative t; t_dealer := t_dealer t;
       t_atm_ivs := t_atm_ivs t |}
  else
    let proxy := gamma_proxy spot strike iv in
    let near := Rleb (Rabs (strike - spot) / spot) 0.10 in
    {| t_volume := call_volume; t_oi := call_oi;
       t_speculative :=
         if near
         then t_speculative t + proxy * IZR vol * 100 * spot * spot * 0.01
         else t_speculative t;
       t_dealer := t_dealer t + proxy * IZR oi * 100 * spot * spot * 0.01;
       t_atm_ivs :=
         if near && Rltb 0 iv then t_atm_ivs t ++ [iv] else t_atm_ivs t |}.

(** One pass of the loop over the puts; it continues the calls' tally of
    [dealer_gamma] and counts put volume and open interest. *)
Definition put_step (spot : R) (t : Tally) (p : Quote) : Tally :=
  let strike := get (strike p) 0 in
  let vol := get (volume p) 0%Z in
  let oi := get (openInterest p) 0%Z in
  let iv := iv_of p in
  let put_volume := (t_volume t + vol)%Z in
  let put_oi := (t_oi t + oi)%Z in
  if Rleb strike 0 || Rleb iv 0 then
    {| t_volume := put_volume; t_oi := put_oi;
       t_speculative := t_speculative t; t_dealer := t_dealer t;
       t_atm_ivs := t_atm_ivs t |}
  else
    let proxy := gamma_proxy spot strike iv in
    {| t_volume := put_volume; t_oi := put_oi;
       t_speculative := t_speculative t;
       t_dealer := t_dealer t - proxy * IZR oi * 100 * spot * spot * 0.01;
       t_atm_ivs := t_atm_ivs t |}.

Definition unknown : Reynolds :=
  {| reynolds_number := 0; speculative_gamma := 0; dealer_gamma := 0;
     regime := "UNKNOWN"; call_put_ratio := 0; call_volume := 0;
     put_volume := 0; call_oi := 0; put_oi := 0; atm_iv := 0 |}.

Definition compute_gamma_reynolds (calls puts : list Quote) (spot : R)
  : Reynolds :=
  match calls, puts with
  | [], _ | _, [] => unknown
  | _ :: _, _ :: _ =>
      if Rleb spot 0 then unknown
      else
        let after_calls :=
          fold_left (call_step spot) calls
            {| t_volume := 0; t_oi := 0; t_speculative := 0; t_dealer := 0;
               t_atm_ivs := [] |} in
        let after_puts :=
          fold_left (put_step spot) puts
            {| t_volume := 0; t_oi := 0;
               t_speculative := t_speculative after_calls;
               t_dealer := t_dealer after_calls;
               t_atm_ivs := t_atm_ivs after_calls |} in
        let speculative_gamma := t_speculative after_puts in
        let dealer_gamma := t_dealer after_puts in
        let atm_ivs := t_atm_ivs after_puts in
        let re_gamma :=
          if Rltb (Rabs dealer_gamma) 0.000001 then
            if Rltb 0 speculative_gamma then Infinite else Finite 0
          else Finite (Rabs (speculative_gamma / dealer_gamma)) in
        let regime :=
          if exceeds re_gamma 1.0 then "TURBULENT"
          else if exceeds re_gamma 0.7 then "TRANSITIONAL"
          else "LAMINAR" in
        let cp_ratio :=
          IZR (t_volume after_calls) / IZR (Z.max (t_volume after_puts) 1) in
        let atm_iv :=
          match atm_ivs with
          | [] => 0
          | _ :: _ => fold_right Rplus 0 atm_ivs / INR (length atm_ivs)
          end in
        {| reynolds_number := py_round (capped re_gamma 99) 4;
           speculative_gamma := py_round speculative_gamma 2;
           dealer_gamma := py_round dealer_gamma 2;
           regime := regime;
           call_put_ratio := py_round cp_ratio 2;
           call_volume := t_volume after_calls;
           put_volume := t_volume after_puts;
           call_oi := t_oi after_calls;
           put_oi := t_oi after_puts;
           atm_iv := py_round atm_iv 4 |}
  end.

(** [sum] of a field over a leg, absent values counting 0. *)
Definition total_of (field : Quote -> option Z) (leg : list Quote) : Z :=
  fold_right Z.add 0%Z (map (fun c => get (field c) 0%Z) leg).

End GammaReynolds.

(** ** gex_calculator.py: the entropy of the GEX distribution *)

Module GexEntropy.

Import GexCalculator.
Local Open Scope R_scope.
Open Scope string_scope.

(** Which description the result carries; the CRITICAL one is an
    f-string over the top concentration. *)
Inductive Note :=
| NoData
| TooFewStrikes
| ZeroTotalGex
| Concentrated
| SignificantClustering
| SomeClustering
| EvenlyDistributed.

(** The returned dict without ["top_concentrations"], whose order under
    ties is left to [np.argsort]. *)
Record Entropy := {
  entropy : R;
  entropy_norm : R;
  regime : string;
  description : Note;
  n_strikes : nat
}.

Definition np_sum (xs : list R) : R := fold_right Rplus 0 xs.

Definition compute_gex_entropy (gex_by_strike : list Row) (spot : R)
           (atm_range_pct : R) : Entropy :=
  match gex_by_strike with
  | [] => {| entropy := 1.0; entropy_norm := 1.0; regime := "DISPERSED";
             description := NoData; n_strikes := 0 |}
  | _ :: _ =>
      let relevant :=
        filter (fun s =>
                  Rleb (Rabs (row_strike s - spot) / spot * 100) atm_range_pct
                  && Rltb 0 (Rabs (net_gex s)))
               gex_by_strike in
      if (length relevant <? 3)%nat then
        {| entropy := 1.0; entropy_norm := 1.0; regime := "DISPERSED";
           description := TooFewStrikes; n_strikes := length relevant |}
      else
        let gex_abs := map (fun s => Rabs (net_gex s)) relevant in
        let total := np_sum gex_abs in
        if Rleb total 0 then
          {| entropy := 1.0; entropy_norm := 1.0; regime := "DISPERSED";
             description := ZeroTotalGex; n_strikes := length relevant |}
        else
          let probs := map (fun g => g / total) gex_abs in
          let probs := filter (fun p => Rltb 0 p) probs in
          let H := - np_sum (map (fun p => p * ln p) probs) in
          let H_max := ln (INR (length probs)) in
          let H_norm := if Rltb 0 H_max then H / H_max else 1.0 in
          let '(regime, desc) :=
            if Rltb H_norm 0.3 then ("CRITICAL", Concentrated)
            else if Rltb H_norm 0.5 then ("APPROACHING", SignificantClustering)
            else if Rltb H_norm 0.7 then ("MODERATE", SomeClustering)
            else ("DISPERSED", EvenlyDistributed) in
          {| entropy := py_round H 4;
             entropy_norm := py_round H_norm 3;
             regime := regime;
             description := desc;
             n_strikes := length relevant |}
  end.

End GexEntropy.

(** ** collision_time.py *)

Module CollisionTime.

Import GexCalculator.
Local Open Scope R_scope.
Open Scope string_scope.

(** [scipy.special.erfc], through the normal distribution:
    [erfc z = 2 * Phi (- z * sqrt 2)]. *)
Definition erfc (z : R) : R := 2 * norm_cdf (- z * sqrt 2).

Record Collision := {
  level_label : string;
  level_price : R;
  distance : R;
  distance_pct : R;
  expected_days_raw : R;
  expected_days_adj : R;
  regime_mult : R;
  prob_within_dte : R;
  urgency : string;
  side : string
}.

(** [regime_mult] of lines 27-33. *)
Definition regime_multiplier (acf_regime reynolds_regime : string) : R :=
  if reynolds_regime =? "TURBULENT" then 0.6
  else if reynolds_regime =? "TRANSITIONAL" then 0.8
  else if acf_regime =? "LONG_GAMMA" then 1.4
  else 1.0.

(** The dict appended for one level that passes the price guard. *)
Definition collision_entry (spot atr_dollar : R) (dte : Z) (mult : R)
           (label : string) (price : R) : Collision :=
  let sigma := atr_dollar in
  let sigma_sq := sigma ^ 2 in
  let distance := Rabs (spot - price) in
  let t_raw :=
    if Rltb distance 0.01 then 0.0 else distance ^ 2 / (2 * sigma_sq) in
  let t_adjusted := t_raw * mult in
  let p_within_dte :=
    if (0 <? dte)%Z && Rltb 0 sigma && Rltb 0 distance then
      let z := distance / (sigma * sqrt (2 * IZR (Z.max dte 1))) in
      erfc z
    else if Rltb distance 0.01 then 0.95 else 0.0 in
  let p_within_dte := Rmin 0.99 (Rmax 0.01 p_within_dte) in
  let urgency :=
    if Rltb t_adjusted 1 then "NOW"
    else if Rltb t_adjusted 2 then "IMMINENT"
    else if Rleb t_adjusted (IZR dte) then "SOON"
    else if Rltb (IZR dte * 2) t_adjusted then "UNLIKELY"
    else "POSSIBLE" in
  {| level_label := label;
     level_price := py_round price 2;
     distance := py_round distance 2;
     distance_pct := py_round (distance / spot * 100) 2;
     expected_days_raw := py_round t_raw 1;
     expected_days_adj := py_round t_adjusted 1;
     regime_mult := mult;
     prob_within_dte := py_round (p_within_dte * 100) 1;
     urgency := urgency;
     side := if Rltb spot price then "above" else "below" |}.

(** [results.sort(key=...)]: stable, ascending. *)
Fixpoint insert_by_days (c : Collision) (sorted : list Collision)
  : list Collision :=
  match sorted with
  | [] => [c]
  | y :: rest =>
      if Rltb (expected_days_adj c) (expected_days_adj y) then c :: sorted
      else y :: insert_by_days c rest
  end.

Definition sort_by_days (results : list Collision) : list Collision :=
  fold_left (fun sorted c => insert_by_days c sorted) results [].

(** [levels] is the dict in insertion order; a price may be [None]. *)
Definition compute_collision_times (spot : R)
           (levels : list (string * option R)) (atr_dollar : R)
           (acf_regime reynolds_regime : string) (dte : Z)
  : list Collision :=
  if Rleb atr_dollar 0 || Rleb spot 0 then []
  else
    let regime_mult := regime_multiplier acf_regime reynolds_regime in
    let results :=
      fold_left
        (fun results lp =>
           match snd lp with
           | None => results
           | Some price =>
               if Reqb price 0 || Rleb price 0 then results
               else (results ++ [collision_entry spot atr_dollar dte
                                   regime_mult (fst lp) price])%list
           end)
        levels [] in
    sort_by_days results.

(** The levels that pass the price guard, in dict order. *)
Definition priced_levels (levels : list (string * option R))
  : list (string * R) :=
  flat_map (fun lp => match snd lp with
                      | Some price => if Rltb 0 price then [(fst lp, price)]
                                      else []
                      | None => []
                      end) levels.

End CollisionTime.




(* ================================================================== *)
(** * Part II: properties *)
(* ================================================================== *)

(** ** Facts about the numeric layer *)

Lemma Qltb_lt (x y : Q) : Qltb x y = true <-> x < y.
Proof.
  unfold Qltb. rewrite negb_true_iff.
  destruct (Qle_bool y x) eqn:E; split; intro H; try discriminate; try reflexivity.
  - apply Qle_bool_iff in E. lra.
  - assert (Hn : ~ y <= x) by (intro H'; apply Qle_bool_iff in H'; congruence).
    lra.
Qed.

Lemma Qltb_ge (x y : Q) : Qltb x y = false <-> y <= x.
Proof.
  unfold Qltb. rewrite negb_false_iff. apply Qle_bool_iff.
Qed.

Lemma Qcompare_half_comp (x y : Q) :
  x == y -> round_half_even x = round_half_even y.
Proof.
  intro E. unfold round_half_even.
  rewrite (Qfloor_comp _ _ E).
  assert (E' : x - inject_Z (Qfloor y) == y - inject_Z (Qfloor y))
    by (rewrite E; reflexivity).
  rewrite (Qcompare_comp _ _ E' _ _ (Qeq_refl (1 # 2))).
  reflexivity.
Qed.

(** [lra] over [Q] does not look through a division by a literal. *)
Ltac qdiv_consts :=
  unfold Qdiv in *;
  change (/ 10) with (1 # 10) in *;
  change (/ 100) with (1 # 100) in *.

Lemma inject_Z_succ (n : Z) : inject_Z (n + 1) == inject_Z n + 1.
Proof. rewrite inject_Z_plus. reflexivity. Qed.

(** The rounded integer is within one half of the argument. *)
Lemma round_half_even_near (x : Q) :
  inject_Z (round_half_even x) - (1 # 2) <= x /\
  x <= inject_Z (round_half_even x) + (1 # 2).
Proof.
  unfold round_half_even.
  pose proof (Qfloor_le x) as Hlo.
  pose proof (Qlt_floor x) as Hhi.
  rewrite inject_Z_succ in Hhi.
  destruct (Qcompare_spec (x - inject_Z (Qfloor x)) (1 # 2)) as [E | E | E].
  - destruct (Z.even (Qfloor x)); [| rewrite inject_Z_succ]; split; lra.
  - split; lra.
  - rewrite inject_Z_succ. split; lra.
Qed.

Lemma inject_Z_lt_succ (a b : Z) :
  inject_Z a < inject_Z b + 1 -> (a <= b)%Z.
Proof.
  intro H. rewrite <- inject_Z_succ in H.
  rewrite <- Zlt_Qlt in H. lia.
Qed.

(** Rounding is monotone. *)
Lemma round_half_even_mono (x y : Q) :
  x <= y -> (round_half_even x <= round_half_even y)%Z.
Proof.
  intro Hxy.
  destruct (Qlt_le_dec (inject_Z (Qfloor x) + 1) (inject_Z (Qfloor y) + 1))
    as [Hf | Hf].
  - (* the floors differ: round x <= floor x + 1 <= floor y <= round y *)
    assert (Hz : (Qfloor x + 1 <= Qfloor y)%Z).
    { apply inject_Z_lt_succ. rewrite inject_Z_succ. exact Hf. }
    assert (Hx : (round_half_even x <= Qfloor x + 1)%Z).
    { unfold round_half_even.
      destruct (Qcompare _ _); [destruct (Z.even _) | |]; lia. }
    assert (Hy : (Qfloor y <= round_half_even y)%Z).
    { unfold round_half_even.
      destruct (Qcompare _ _); [destruct (Z.even _) | |]; lia. }
    lia.
  - (* same floor: compare the fractional parts *)
    assert (Hz : Qfloor x = Qfloor y).
    { apply Z.le_antisymm; [apply Qfloor_resp_le; exact Hxy |].
      apply inject_Z_lt_succ. lra. }
    unfold round_half_even. rewrite <- Hz.
    destruct (Qcompare_spec (x - inject_Z (Qfloor x)) (1 # 2)) as [E | E | E];
      destruct (Qcompare_spec (y - inject_Z (Qfloor x)) (1 # 2)) as [F | F | F];
      try destruct (Z.even (Qfloor x)); try lia; lra.
Qed.

(** Arguments more than one apart round to different integers. *)
Lemma round_half_even_gap (x y : Q) :
  x + 1 < y -> (round_half_even x < round_half_even y)%Z.
Proof.
  intro H.
  destruct (round_half_even_near x) as [Hx _].
  destruct (round_half_even_near y) as [_ Hy].
  rewrite Zlt_Qlt. lra.
Qed.

(** ** directional_engine.py: the thesis tree *)

Section ThesisFacts.

Import DirectionalEngine.
Open Scope string_scope.

Variable acf : Acf.
Variable reynolds : Reynolds.
Variable technicals : option Technicals.




End ThesisFacts.



(** ** directional_engine.py: Kelly sizing *)

Section KellyFacts.

Import DirectionalEngine.
Open Scope string_scope.

Lemma kelly_positive_unfold (e w iv : Q) (v : string) :
  0 < e -> 0 < w ->
  fst (_kelly_size e w iv v) =
  Qmax 0.25
    (Qmin 5.0
       (py_round
          (Qmax 0
             ((if Qltb 0 (Qmax (e / 100) 0.5)
               then (Qmax (e / 100) 0.5 * Qmin (w / 100) 0.9
                     - (1 - Qmin (w / 100) 0.9)) / Qmax (e / 100) 0.5
               else 0) * 0.5)
           * regime_scale iv v * 100) 1)).
Proof.
  intros He Hw. unfold _kelly_size.
  assert (E1 : Qle_bool e 0 = false).
  { destruct (Qle_bool e 0) eqn:E; [| reflexivity].
    apply Qle_bool_iff in E. lra. }
  assert (E2 : Qle_bool w 0 = false).
  { destruct (Qle_bool w 0) eqn:E; [| reflexivity].
    apply Qle_bool_iff in E. lra. }
  rewrite E1, E2. reflexivity.
Qed.

(** C7. Non-positive edge or win probability gives 0; otherwise the
    fraction lies in [0.25, 5]. *)
Theorem kelly_zero_or_clamped (e w iv : Q) (v : string) :
  ((e <= 0 \/ w <= 0) -> _kelly_size e w iv v = (0, LabelZero)) /\
  (0 < e -> 0 < w ->
   0.25 <= fst (_kelly_size e w iv v) /\ fst (_kelly_size e w iv v) <= 5).
Proof.
  split.
  - intros H. unfold _kelly_size.
    destruct (Qle_bool e 0) eqn:E1; [reflexivity |].
    destruct (Qle_bool w 0) eqn:E2; [reflexivity |].
    exfalso. destruct H as [H | H]; apply Qle_bool_iff in H; congruence.
  - intros He Hw. rewrite (kelly_positive_unfold e w iv v He Hw).
    split.
    + apply Q.le_max_l.
    + apply Q.max_lub; [lra |].
      eapply Qle_trans; [apply Q.le_min_l | lra].
Qed.

End KellyFacts.

Lemma kelly_zero_or_clamped_witness :
  DirectionalEngine._kelly_size 0 60 1.0 "FAIR"
    = (0, DirectionalEngine.LabelZero) /\
  0.25 <= fst (DirectionalEngine._kelly_size 10 60 1.0 "FAIR") /\
  fst (DirectionalEngine._kelly_size 10 60 1.0 "FAIR") <= 5.
Proof.
  split.
  - apply (proj1 (kelly_zero_or_clamped 0 60 1.0 "FAIR")).
    left. lra.
  - apply (proj2 (kelly_zero_or_clamped 10 60 1.0 "FAIR")); lra.
Defined.

Section KellyVolContext.

Import DirectionalEngine.
Open Scope string_scope.

Lemma py_round_1 (x : Q) :
  py_round x 1 = inject_Z (round_half_even (x * 10)) / 10.
Proof. reflexivity. Qed.

Lemma regime_scale_expensive (iv : Q) (v : string) :
  1.5 < iv -> regime_scale iv v = 0.7.
Proof.
  intro H. unfold regime_scale.
  apply Qltb_lt in H. rewrite H. reflexivity.
Qed.

Lemma clamp_tenths_mono (a b : Z) :
  (a <= b)%Z -> clamp_tenths a <= clamp_tenths b.
Proof.
  intro H. unfold clamp_tenths.
  apply Q.max_le_compat_l, Q.min_le_compat_l.
  rewrite Zle_Qle in H. qdiv_consts. lra.
Qed.

Lemma clamp_tenths_low (a : Z) : (a <= 2)%Z -> clamp_tenths a == 0.25.
Proof.
  intro H. unfold clamp_tenths. rewrite Zle_Qle in H.
  apply Q.max_l. eapply Qle_trans; [apply Q.le_min_r |].
  change (inject_Z 2) with 2 in H. qdiv_consts. lra.
Qed.

Lemma clamp_tenths_strict (a b : Z) :
  (3 <= a)%Z -> (a < b)%Z -> clamp_tenths a < 5 ->
  clamp_tenths a < clamp_tenths b.
Proof.
  intros H3 Hab H5. unfold clamp_tenths in *.
  rewrite Zle_Qle in H3. rewrite Zlt_Qlt in Hab.
  change (inject_Z 3) with 3 in H3. qdiv_consts.
  destruct (Q.max_spec 0.25 (Qmin 5.0 (inject_Z a * (1 # 10))))
    as [[Ha Ea] | [Ha Ea]];
    destruct (Q.min_spec 5.0 (inject_Z a * (1 # 10))) as [[Ha' Ea'] | [Ha' Ea']];
    destruct (Q.max_spec 0.25 (Qmin 5.0 (inject_Z b * (1 # 10))))
      as [[Hb Eb] | [Hb Eb]];
    destruct (Q.min_spec 5.0 (inject_Z b * (1 # 10))) as [[Hb' Eb'] | [Hb' Eb']];
    rewrite ?Ea, ?Eb in *; rewrite ?Ea', ?Eb' in *; lra.
Qed.

Lemma kelly_half_nonneg (x : Q) : 0 <= Qmax 0 x.
Proof. apply Q.le_max_l. Qed.

(** C2 (amended). At equal positive edge, win probability and VRP context,
    an expensive IV context (iv/hv > 1.5, multiplier 0.7) never sizes
    larger than a fair one (multiplier 1.0), and sizes strictly smaller as
    soon as the fair size is above the 0.25 floor and the expensive size
    below the 5 cap. *)
Theorem kelly_expensive_not_larger (e w iv_exp iv_fair : Q) (v : string) :
  0 < e -> 0 < w -> 1.5 < iv_exp -> regime_scale iv_fair v == 1.0 ->
  fst (_kelly_size e w iv_exp v) <= fst (_kelly_size e w iv_fair v) /\
  (0.25 < fst (_kelly_size e w iv_fair v) ->
   fst (_kelly_size e w iv_exp v) < 5 ->
   fst (_kelly_size e w iv_exp v) < fst (_kelly_size e w iv_fair v)).
Proof.
  intros He Hw Hiv Hfair.
  rewrite !(kelly_positive_unfold e w _ v He Hw).
  rewrite (regime_scale_expensive iv_exp v Hiv).
  set (kh := Qmax 0 _).
  assert (Hkh : 0 <= kh) by apply kelly_half_nonneg.
  rewrite !py_round_1.
  set (a := round_half_even (kh * 0.7 * 100 * 10)).
  assert (Eb : round_half_even (kh * regime_scale iv_fair v * 100 * 10)
               = round_half_even (kh * 1000)).
  { apply Qcompare_half_comp. rewrite Hfair. ring. }
  rewrite Eb. set (b := round_half_even (kh * 1000)).
  fold (clamp_tenths a). fold (clamp_tenths b).
  assert (Hab : (a <= b)%Z).
  { apply round_half_even_mono. lra. }
  split; [apply clamp_tenths_mono; exact Hab |].
  intros Hfloor Hcap.
  destruct (Z_le_gt_dec a 2) as [Ha | Ha].
  - rewrite (clamp_tenths_low a Ha). exact Hfloor.
  - apply clamp_tenths_strict; [lia | | exact Hcap].
    apply round_half_even_gap.
    destruct (round_half_even_near (kh * 0.7 * 100 * 10)) as [Hlo _].
    fold a in Hlo.
    assert (H3 : 3 <= inject_Z a).
    { change 3 with (inject_Z 3). rewrite <- Zle_Qle. lia. }
    lra.
Qed.

End KellyVolContext.

Lemma kelly_expensive_not_larger_witness :
  fst (DirectionalEngine._kelly_size 10 68 1.8 "FAIR")
  < fst (DirectionalEngine._kelly_size 10 68 1.0 "FAIR").
Proof.
  apply (proj2 (kelly_expensive_not_larger 10 68 1.8 1.0 "FAIR"
                  ltac:(lra) ltac:(lra) ltac:(lra) ltac:(vm_compute; reflexivity)));
    vm_compute; reflexivity.
Defined.

(** C2 as stated fails: with edge 10 and win probability 60 both contexts
    are clamped to the 0.25 floor. *)
Lemma kelly_expensive_not_strict :
  0 < 10 /\ 0 < 60 /\ 1.5 < 1.8 /\
  DirectionalEngine.regime_scale 1.0 "FAIR" == 1.0 /\
  ~ fst (DirectionalEngine._kelly_size 10 60 1.8 "FAIR")
    < fst (DirectionalEngine._kelly_size 10 60 1.0 "FAIR").
Proof.
  repeat split; try lra; try (vm_compute; reflexivity).
  vm_compute. intro H. discriminate H.
Qed.

(** ** max_pain.py *)

Section MaxPainFacts.

Import MaxPain.

Lemma Qltb_comp (x x' y y' : Q) :
  x == x' -> y == y' -> Qltb x y = Qltb x' y'.
Proof.
  intros Ex Ey. unfold Qltb. rewrite (Qleb_comp _ _ Ey _ _ Ex). reflexivity.
Qed.

(** *** The strike set *)

Lemma add_strike_In (k x : Q) (l : list Q) :
  In x (add_strike k l) -> x = k \/ In x l.
Proof.
  induction l as [| y l IH]; simpl.
  - intros [H | []]; auto.
  - destruct (Qcompare k y).
    + intros H; right; exact H.
    + intros [H | H]; [left; auto | right; exact H].
    + intros [H | H]; [right; left; exact H |].
      destruct (IH H) as [E | E]; [left; exact E | right; right; exact E].
Qed.

Lemma add_strike_InA (k x : Q) (l : list Q) :
  InA Qeq x (add_strike k l) <-> x == k \/ InA Qeq x l.
Proof.
  induction l as [| y l IH]; simpl.
  - rewrite InA_cons, InA_nil. tauto.
  - destruct (Qcompare_spec k y) as [E | E | E].
    + rewrite InA_cons. split; [tauto |].
      intros [H | H]; [left; rewrite H; exact E | exact H].
    + rewrite !InA_cons. tauto.
    + rewrite !InA_cons, IH. tauto.
Qed.

Lemma add_strike_HdRel (k a : Q) (l : list Q) :
  a < k -> HdRel Qlt a l -> HdRel Qlt a (add_strike k l).
Proof.
  intros Hak Hd. destruct l as [| y l]; simpl.
  - constructor. exact Hak.
  - destruct (Qcompare k y).
    + exact Hd.
    + constructor. exact Hak.
    + constructor. inversion Hd; assumption.
Qed.

Lemma add_strike_Sorted (k : Q) (l : list Q) :
  Sorted Qlt l -> Sorted Qlt (add_strike k l).
Proof.
  induction l as [| y l IH]; simpl; intro Hs.
  - repeat constructor.
  - inversion Hs as [| ? ? Hs' Hd]; subst.
    destruct (Qcompare_spec k y) as [E | E | E].
    + exact Hs.
    + constructor; [exact Hs | constructor; exact E].
    + constructor; [apply IH; exact Hs' |].
      apply add_strike_HdRel; assumption.
Qed.

Lemma fold_add_strike_Sorted (leg : list Quote) (acc : list Q) :
  Sorted Qlt acc ->
  Sorted Qlt (fold_left (fun acc c => add_strike (strike c) acc) leg acc).
Proof.
  revert acc. induction leg as [| c leg IH]; simpl; intros acc Hs.
  - exact Hs.
  - apply IH, add_strike_Sorted, Hs.
Qed.

Lemma fold_add_strike_InA (x : Q) (leg : list Quote) (acc : list Q) :
  InA Qeq x (fold_left (fun acc c => add_strike (strike c) acc) leg acc)
  <-> InA Qeq x (map strike leg) \/ InA Qeq x acc.
Proof.
  revert acc. induction leg as [| c leg IH]; simpl; intros acc.
  - rewrite InA_nil. tauto.
  - rewrite IH, add_strike_InA, InA_cons. tauto.
Qed.

Lemma fold_add_strike_In (x : Q) (leg : list Quote) (acc : list Q) :
  In x (fold_left (fun acc c => add_strike (strike c) acc) leg acc) ->
  In x (map strike leg) \/ In x acc.
Proof.
  revert acc. induction leg as [| c leg IH]; simpl; intros acc H.
  - right. exact H.
  - destruct (IH _ H) as [H' | H']; [left; right; exact H' |].
    destruct (add_strike_In _ _ _ H') as [E | E]; [left; left; auto | right; exact E].
Qed.

Lemma sorted_strikes_Sorted (calls puts : list Quote) :
  Sorted Qlt (sorted_strikes calls puts).
Proof.
  unfold sorted_strikes. apply fold_add_strike_Sorted, fold_add_strike_Sorted.
  constructor.
Qed.

Lemma sorted_strikes_InA (x : Q) (calls puts : list Quote) :
  InA Qeq x (sorted_strikes calls puts)
  <-> InA Qeq x (map strike (calls ++ puts)).
Proof.
  unfold sorted_strikes. rewrite !fold_add_strike_InA, InA_nil.
  rewrite map_app, InA_app_iff. tauto.
Qed.

Lemma sorted_strikes_In (x : Q) (calls puts : list Quote) :
  In x (sorted_strikes calls puts) -> In x (map strike (calls ++ puts)).
Proof.
  unfold sorted_strikes. intro H. rewrite map_app, in_app_iff.
  destruct (fold_add_strike_In _ _ _ H) as [H1 | H1]; [right; exact H1 |].
  destruct (fold_add_strike_In _ _ _ H1) as [H2 | []]. left; exact H2.
Qed.

Lemma Permutation_InA_strikes (x : Q) (l l' : list Q) :
  Permutation l l' -> InA Qeq x l -> InA Qeq x l'.
Proof.
  intros HP H. apply InA_alt in H. destruct H as [y [E Hy]].
  apply InA_alt. exists y. split; [exact E |].
  eapply Permutation_in; eassumption.
Qed.

(** Permuting either leg leaves the sorted strike list unchanged, entry by
    entry. *)
Lemma sorted_strikes_perm (calls calls' puts puts' : list Quote) :
  Permutation calls calls' -> Permutation puts puts' ->
  eqlistA Qeq (sorted_strikes calls puts) (sorted_strikes calls' puts').
Proof.
  intros Hc Hp.
  apply (SortA_equivlistA_eqlistA Q_Setoid Q_as_OT.lt_strorder Q_as_OT.lt_compat);
    try apply sorted_strikes_Sorted.
  assert (HP : Permutation (map strike (calls ++ puts))
                           (map strike (calls' ++ puts'))).
  { apply Permutation_map, Permutation_app; assumption. }
  intro x. rewrite !sorted_strikes_InA.
  split; apply Permutation_InA_strikes; [| symmetry]; exact HP.
Qed.

(** *** The payout sum *)

Import MaxPainAux.

Lemma py_round_comp (x y : Q) (n : nat) :
  x == y -> py_round x n = py_round y n.
Proof.
  intro E. unfold py_round.
  set (m := inject_Z (10 ^ Z.of_nat n)).
  rewrite (Qcompare_half_comp (x * m) (y * m)); [reflexivity |].
  rewrite E. reflexivity.
Qed.

Lemma fold_call_terms (t : Q) (l : list (Q * Z)) (a : Q) :
  fold_left
    (fun total kv =>
       if Qltb (fst kv) t
       then total + (t - fst kv) * inject_Z (snd kv) * 100
       else total) l a
  == a + sumQ (map (call_term t) l).
Proof.
  revert a. induction l as [| kv l IH]; simpl; intro a.
  - ring.
  - rewrite IH. unfold call_term at 2.
    destruct (Qltb (fst kv) t); ring.
Qed.

Lemma fold_put_terms (t : Q) (l : list (Q * Z)) (a : Q) :
  fold_left
    (fun total kv =>
       if Qltb t (fst kv)
       then total + (fst kv - t) * inject_Z (snd kv) * 100
       else total) l a
  == a + sumQ (map (put_term t) l).
Proof.
  revert a. induction l as [| kv l IH]; simpl; intro a.
  - ring.
  - rewrite IH. unfold put_term at 2.
    destruct (Qltb t (fst kv)); ring.
Qed.

Lemma total_pain_sum (cd pd : list (Q * Z)) (t : Q) :
  total_pain cd pd t
  == sumQ (map (call_term t) cd) + sumQ (map (put_term t) pd).
Proof.
  unfold total_pain. rewrite fold_put_terms, fold_call_terms. ring.
Qed.

Lemma call_term_comp (t t' : Q) (kv : Q * Z) :
  t == t' -> call_term t kv == call_term t' kv.
Proof.
  intro E. unfold call_term.
  rewrite (Qltb_comp (fst kv) (fst kv) t t' (Qeq_refl _) E).
  destruct (Qltb (fst kv) t'); [rewrite E |]; reflexivity.
Qed.

Lemma put_term_comp (t t' : Q) (kv : Q * Z) :
  t == t' -> put_term t kv == put_term t' kv.
Proof.
  intro E. unfold put_term.
  rewrite (Qltb_comp t t' (fst kv) (fst kv) E (Qeq_refl _)).
  destruct (Qltb t' (fst kv)); [rewrite E |]; reflexivity.
Qed.

Lemma sumQ_map_perm (f g : Q * Z -> Q) (l l' : list (Q * Z)) :
  (forall kv, f kv == g kv) -> Permutation l l' ->
  sumQ (map f l) == sumQ (map g l').
Proof.
  intros Hfg HP. induction HP as [| x l l' HP IH | x y l | l l' l'' H1 IH1 H2 IH2];
    simpl.
  - reflexivity.
  - rewrite IH, Hfg. reflexivity.
  - assert (E : sumQ (map f l) == sumQ (map g l)).
    { clear x y. induction l as [| z l IHl]; simpl; [reflexivity |].
      rewrite IHl, Hfg. reflexivity. }
    rewrite E, !Hfg. ring.
  - rewrite IH1. rewrite <- IH2.
    clear - Hfg. induction l' as [| z l IHl]; simpl; [reflexivity |].
    rewrite IHl, Hfg. reflexivity.
Qed.

(** The payout does not depend on the order of either leg. *)
Lemma total_pain_perm (calls calls' puts puts' : list Quote) (t t' : Q) :
  Permutation calls calls' -> Permutation puts puts' -> t == t' ->
  total_pain (leg_data calls) (leg_data puts) t
  == total_pain (leg_data calls') (leg_data puts') t'.
Proof.
  intros Hc Hp E. rewrite !total_pain_sum.
  rewrite (sumQ_map_perm (call_term t) (call_term t') (leg_data calls)
             (leg_data calls'));
    [| intro; apply call_term_comp; exact E
     | apply Permutation_map; exact Hc].
  rewrite (sumQ_map_perm (put_term t) (put_term t') (leg_data puts)
             (leg_data puts'));
    [| intro; apply put_term_comp; exact E
     | apply Permutation_map; exact Hp].
  reflexivity.
Qed.

Lemma entry_of_perm (calls calls' puts puts' : list Quote) (t t' : Q) :
  Permutation calls calls' -> Permutation puts puts' -> t == t' ->
  entry_eq (entry_of calls puts t) (entry_of calls' puts' t').
Proof.
  intros Hc Hp E. split; simpl; [exact E |].
  rewrite (py_round_comp _ _ 2 (total_pain_perm _ _ _ _ _ _ Hc Hp E)).
  reflexivity.
Qed.

(** *** The scan for the minimum *)

Lemma min_by_total_pain_compat (b b' : PainEntry) (l l' : list PainEntry) :
  entry_eq b b' -> Forall2 entry_eq l l' ->
  entry_eq (min_by_total_pain b l) (min_by_total_pain b' l').
Proof.
  intros Hb HF. revert b b' Hb.
  induction HF as [| x x' l l' Hx HF IH]; simpl; intros b b' Hb.
  - exact Hb.
  - apply IH.
    rewrite (Qltb_comp _ _ _ _ (proj2 Hx) (proj2 Hb)).
    destruct (Qltb _ _); assumption.
Qed.

Lemma calculate_max_pain_unfold (calls puts : list Quote) :
  calculate_max_pain calls puts =
  match sorted_strikes calls puts with
  | [] => {| max_pain := 0; max_pain_value := None; pain_by_strike := [] |}
  | first :: rest =>
      let m := min_by_total_pain (entry_of calls puts first)
                 (map (entry_of calls puts) rest) in
      {| max_pain := pe_strike m;
         max_pain_value := Some (pe_total_pain m);
         pain_by_strike := map (entry_of calls puts) (first :: rest) |}
  end.
Proof. reflexivity. Qed.

Lemma entries_perm (calls calls' puts puts' : list Quote) (l l' : list Q) :
  Permutation calls calls' -> Permutation puts puts' -> eqlistA Qeq l l' ->
  Forall2 entry_eq (map (entry_of calls puts) l)
          (map (entry_of calls' puts') l').
Proof.
  intros Hc Hp HE. induction HE as [| x x' l l' Hx HE IH]; simpl.
  - constructor.
  - constructor; [apply entry_of_perm; assumption | exact IH].
Qed.

(** A strictly increasing list whose members all equal [k] has at most one
    member. *)
Lemma sorted_single (k : Q) (l : list Q) :
  Sorted Qlt l -> (forall x, In x l -> x == k) ->
  l = [] \/ exists s, l = [s] /\ s == k.
Proof.
  intros Hs Hall. destruct l as [| s [| s' l]].
  - left. reflexivity.
  - right. exists s. split; [reflexivity | apply Hall; left; reflexivity].
  - exfalso. inversion Hs as [| ? ? _ Hd]; subst.
    inversion Hd as [| ? ? Hlt]; subst.
    assert (E1 : s == k) by (apply Hall; left; reflexivity).
    assert (E2 : s' == k) by (apply Hall; right; left; reflexivity).
    lra.
Qed.

Lemma sumQ_all_zero (f : Q * Z -> Q) (l : list (Q * Z)) :
  (forall kv, In kv l -> f kv == 0) -> sumQ (map f l) == 0.
Proof.
  induction l as [| kv l IH]; simpl; intro H.
  - reflexivity.
  - rewrite (H kv (or_introl eq_refl)), IH; [ring |].
    intros kv' Hin. apply H. right. exact Hin.
Qed.

Lemma sorted_strikes_nonempty (calls puts : list Quote) :
  calls ++ puts <> [] -> sorted_strikes calls puts <> [].
Proof.
  intros Hne Hnil.
  destruct (calls ++ puts) as [| c l] eqn:E; [congruence |].
  assert (H : InA Qeq (strike c) (sorted_strikes calls puts)).
  { apply sorted_strikes_InA. rewrite E. simpl. left. reflexivity. }
  rewrite Hnil in H. inversion H.
Qed.

(** C8. The result does not depend on the order of the calls list or of
    the puts list, and a chain whose quotes all carry one strike has that
    strike as max pain with a pain value of 0. *)
Theorem max_pain_order_invariant_and_single_strike :
  (forall calls calls' puts puts',
      Permutation calls calls' -> Permutation puts puts' ->
      max_pain (calculate_max_pain calls' puts')
        == max_pain (calculate_max_pain calls puts) /\
      opt_Qeq (max_pain_value (calculate_max_pain calls' puts'))
              (max_pain_value (calculate_max_pain calls puts))) /\
  (forall calls puts k,
      calls ++ puts <> [] ->
      (forall c, In c (calls ++ puts) -> strike c == k) ->
      max_pain (calculate_max_pain calls puts) == k /\
      opt_Qeq (max_pain_value (calculate_max_pain calls puts)) (Some 0)).
Proof.
  split.
  - intros calls calls' puts puts' Hc Hp.
    rewrite !calculate_max_pain_unfold.
    pose proof (sorted_strikes_perm calls calls' puts puts' Hc Hp) as HE.
    destruct HE as [| s s' l l' Hs HE]; simpl.
    + split; [reflexivity | exact I].
    + pose proof (min_by_total_pain_compat _ _ _ _
                    (entry_of_perm calls calls' puts puts' s s' Hc Hp Hs)
                    (entries_perm calls calls' puts puts' l l' Hc Hp HE))
        as [H1 H2].
      split; symmetry; assumption.
  - intros calls puts k Hne Hall.
    rewrite calculate_max_pain_unfold.
    destruct (sorted_single k (sorted_strikes calls puts)
                (sorted_strikes_Sorted calls puts)) as [Hnil | [s [Hs Ek]]].
    + intros x Hx. apply sorted_strikes_In in Hx.
      apply in_map_iff in Hx. destruct Hx as [c [Ec Hc]].
      rewrite <- Ec. apply Hall, Hc.
    + exfalso. exact (sorted_strikes_nonempty calls puts Hne Hnil).
    + rewrite Hs. simpl. split; [exact Ek |].
      assert (Hz : total_pain (leg_data calls) (leg_data puts) s == 0).
      { rewrite total_pain_sum.
        rewrite !sumQ_all_zero; [ring | |].
        - intros kv Hin. unfold leg_data in Hin.
          apply in_map_iff in Hin. destruct Hin as [c [Ec Hc]]. subst kv.
          unfold put_term. simpl.
          assert (E : strike c == k) by (apply Hall, in_or_app; right; exact Hc).
          assert (F : Qltb s (strike c) = false) by (apply Qltb_ge; lra).
          rewrite F. reflexivity.
        - intros kv Hin. unfold leg_data in Hin.
          apply in_map_iff in Hin. destruct Hin as [c [Ec Hc]]. subst kv.
          unfold call_term. simpl.
          assert (E : strike c == k) by (apply Hall, in_or_app; left; exact Hc).
          assert (F : Qltb (strike c) s = false) by (apply Qltb_ge; lra).
          rewrite F. reflexivity. }
      rewrite (py_round_comp _ 0 2 Hz). reflexivity.
Qed.

(** What the scan returns on entries built by [f] over increasing strikes:
    an entry of the list, of minimal pain, and the first such. *)
Lemma min_by_total_pain_first (f : Q -> Q) (rest : list Q) (sb : Q) :
  Forall (Qlt sb) rest -> Sorted Qlt rest ->
  exists sm,
    min_by_total_pain {| pe_strike := sb; pe_total_pain := f sb |}
      (map (fun s => {| pe_strike := s; pe_total_pain := f s |}) rest)
    = {| pe_strike := sm; pe_total_pain := f sm |} /\
    (sm = sb \/ In sm rest) /\
    f sm <= f sb /\
    (forall s, In s rest -> f sm <= f s) /\
    (sm = sb \/ f sm < f sb) /\
    (forall s, In s rest -> f s <= f sm -> sm <= s).
Proof.
  revert sb. induction rest as [| x rest IH]; intros sb Hall Hs; simpl.
  - exists sb. repeat split; auto; try lra; intros s [].
  - inversion Hall as [| ? ? Hsx Hall']; subst.
    inversion Hs as [| ? ? Hs' Hd]; subst.
    assert (Hx : Forall (Qlt x) rest).
    { apply (Sorted_extends (R := Qlt)); [| exact Hs].
      intros a b c; apply Qlt_trans. }
    destruct (Qltb (f x) (f sb)) eqn:Ecmp.
    + apply Qltb_lt in Ecmp.
      destruct (IH x Hx Hs') as [sm [Hm [Hin [Hle [Hmin [Hfst Hlow]]]]]].
      exists sm. split; [exact Hm |].
      split; [right; destruct Hin as [-> | Hin]; [left | right]; auto |].
      split; [lra |].
      split; [intros s [<- | Hs0]; [exact Hle | apply Hmin, Hs0] |].
      split; [right; lra |].
      intros s [<- | Hs0] Hfs; [| apply Hlow; assumption].
      destruct Hfst as [-> | Hlt]; lra.
    + apply Qltb_ge in Ecmp.
      destruct (IH sb Hall' Hs') as [sm [Hm [Hin [Hle [Hmin [Hfst Hlow]]]]]].
      exists sm. split; [exact Hm |].
      split; [destruct Hin as [-> | Hin]; [left | right; right]; auto |].
      split; [exact Hle |].
      split; [intros s [<- | Hs0]; [lra | apply Hmin, Hs0] |].
      split; [exact Hfst |].
      intros s [<- | Hs0] Hfs; [| apply Hlow; assumption].
      destruct Hfst as [-> | Hlt]; lra.
Qed.

(** C10. On a non-empty chain the returned strike is one of the input
    strikes, its (reported, rounded) total pain is minimal over all input
    strikes, and among the strikes of minimal total pain it is the lowest. *)
Theorem max_pain_is_lowest_minimiser (calls puts : list Quote) :
  calls ++ puts <> [] ->
  let r := calculate_max_pain calls puts in
  let pain t := py_round (total_pain (leg_data calls) (leg_data puts) t) 2 in
  In (max_pain r) (map strike (calls ++ puts)) /\
  max_pain_value r = Some (pain (max_pain r)) /\
  (forall c, In c (calls ++ puts) -> pain (max_pain r) <= pain (strike c)) /\
  (forall c, In c (calls ++ puts) ->
             pain (strike c) <= pain (max_pain r) -> max_pain r <= strike c).
Proof.
  intros Hne r pain. subst r.
  rewrite calculate_max_pain_unfold.
  pose proof (sorted_strikes_Sorted calls puts) as Hs.
  pose proof (sorted_strikes_In) as Hin.
  pose proof (sorted_strikes_InA) as HinA.
  pose proof (sorted_strikes_nonempty calls puts Hne) as Hne'.
  destruct (sorted_strikes calls puts) as [| sb rest] eqn:ES; [congruence |].
  assert (Hall : Forall (Qlt sb) rest).
  { apply (Sorted_extends (R := Qlt)); [| exact Hs].
    intros a b c; apply Qlt_trans. }
  inversion Hs as [| ? ? Hs' _]; subst.
  destruct (min_by_total_pain_first pain rest sb Hall Hs')
    as [sm [Hm [Hmem [Hle [Hmin [Hfst Hlow]]]]]].
  change (min_by_total_pain (entry_of calls puts sb)
            (map (entry_of calls puts) rest) = entry_of calls puts sm) in Hm.
  cbv zeta. rewrite Hm. simpl. fold (pain sm).
  assert (Hsm : In sm (sb :: rest)).
  { destruct Hmem as [-> | H]; [left | right]; auto. }
  (* every input strike has a representative in the strike list *)
  assert (Hrep : forall c, In c (calls ++ puts) ->
                 exists s, In s (sb :: rest) /\ strike c == s).
  { intros c Hc.
    assert (H : InA Qeq (strike c) (sorted_strikes calls puts)).
    { apply HinA. apply InA_alt. exists (strike c).
      split; [reflexivity | apply in_map; exact Hc]. }
    rewrite ES in H. apply InA_alt in H. destruct H as [s [E Hs0]].
    exists s. split; assumption. }
  assert (Hpain : forall a b, a == b -> pain a = pain b).
  { intros a b E. unfold pain. apply py_round_comp.
    apply total_pain_perm; [reflexivity | reflexivity | exact E]. }
  split; [apply (Hin sm calls puts); rewrite ES; exact Hsm |].
  split; [reflexivity |].
  split.
  - intros c Hc. destruct (Hrep c Hc) as [s [Hs0 E]].
    rewrite (Hpain _ _ E).
    destruct Hs0 as [<- | Hs0]; [exact Hle | apply Hmin, Hs0].
  - intros c Hc Hpc. destruct (Hrep c Hc) as [s [Hs0 E]].
    rewrite (Hpain _ _ E) in Hpc. rewrite E.
    destruct Hs0 as [<- | Hs0]; [| apply Hlow; assumption].
    destruct Hfst as [-> | Hlt]; lra.
Qed.

End MaxPainFacts.

Example max_pain_three_strikes :
  MaxPain.max_pain (MaxPain.calculate_max_pain three_strikes three_strikes)
  = 100.
Proof. vm_compute. reflexivity. Qed.

Lemma max_pain_order_invariant_witness :
  MaxPain.max_pain
    (MaxPain.calculate_max_pain (rev three_strikes) three_strikes)
  == MaxPain.max_pain (MaxPain.calculate_max_pain three_strikes three_strikes)
  /\ MaxPain.max_pain (MaxPain.calculate_max_pain single_strike single_strike)
     == 100.
Proof.
  split.
  - apply (proj1 max_pain_order_invariant_and_single_strike
             three_strikes (rev three_strikes) three_strikes three_strikes).
    + apply Permutation_rev.
    + apply Permutation_refl.
  - apply (proj2 max_pain_order_invariant_and_single_strike
             single_strike single_strike 100).
    + discriminate.
    + intros c [<- | [<- | []]]; reflexivity.
Defined.

Lemma max_pain_is_lowest_minimiser_witness :
  In (MaxPain.max_pain (MaxPain.calculate_max_pain three_strikes three_strikes))
     (map MaxPain.strike (three_strikes ++ three_strikes)).
Proof.
  apply (max_pain_is_lowest_minimiser three_strikes three_strikes).
  discriminate.
Defined.

(** ** gamma_channel.py *)

Example narrow_channel_widens :
  let r := GammaChannel.extract_channel narrow_profile 100 0.15 0.15 2.0 in
  (GammaChannel.floor r, GammaChannel.ceiling r, GammaChannel.degenerate r,
   GammaChannel.channel_position r)
  = (Some 95, Some 105, true, Some (500 / 1000)).
Proof. vm_compute. reflexivity. Qed.

Section ChannelFacts.

Import GammaChannel.

Lemma max_from_In {A : Type} (key : A -> Q) (xs : list A) (best : A) :
  In (max_from key best xs) (best :: xs).
Proof.
  revert best. induction xs as [| x xs IH]; intro best; simpl.
  - left. reflexivity.
  - destruct (IH (if Qltb (key best) (key x) then x else best)) as [H | H].
    + rewrite <- H. destruct (Qltb (key best) (key x)); auto.
    + right. right. exact H.
Qed.

Lemma min_from_In {A : Type} (key : A -> Q) (xs : list A) (best : A) :
  In (min_from key best xs) (best :: xs).
Proof.
  revert best. induction xs as [| x xs IH]; intro best; simpl.
  - left. reflexivity.
  - destruct (IH (if Qltb (key x) (key best) then x else best)) as [H | H].
    + rewrite <- H. destruct (Qltb (key x) (key best)); auto.
    + right. right. exact H.
Qed.

Lemma py_max_In {A : Type} (key : A -> Q) (xs : list A) (m : A) :
  py_max key xs = Some m -> In m xs.
Proof.
  destruct xs as [| x xs]; simpl; intro H; [discriminate |].
  injection H as <-. apply max_from_In.
Qed.

Lemma py_min_In {A : Type} (key : A -> Q) (xs : list A) (m : A) :
  py_min key xs = Some m -> In m xs.
Proof.
  destruct xs as [| x xs]; simpl; intro H; [discriminate |].
  injection H as <-. apply min_from_In.
Qed.

Lemma insert_row_In (before : Row -> Row -> bool) (s x : Row) (l : list Row) :
  In x (insert_row before s l) -> x = s \/ In x l.
Proof.
  induction l as [| y l IH]; simpl.
  - intros [H | []]. left. auto.
  - destruct (before y s); simpl.
    + intros [H | H]; [right; left; exact H |].
      destruct (IH H) as [E | E]; [left; exact E | right; right; exact E].
    + intros [H | H]; [left; auto | right; exact H].
Qed.

Lemma sorted_rows_In (before : Row -> Row -> bool) (x : Row) (l : list Row) :
  In x (sorted_rows before l) -> In x l.
Proof.
  induction l as [| y l IH]; simpl; [auto |].
  intro H. destruct (insert_row_In _ _ _ _ H) as [E | E];
    [left; auto | right; apply IH, E].
Qed.

Lemma widen_scan_cases (far : Q -> bool) (cands : list Row) (current : Q) :
  widen_scan far current cands = current \/
  exists s, In s cands /\ widen_scan far current cands = strike s.
Proof.
  revert current. induction cands as [| s cands IH]; intro current; simpl.
  - left. reflexivity.
  - right. destruct (far (strike s)).
    + exists s. split; [left |]; reflexivity.
    + destruct (IH (strike s)) as [E | [s' [Hin E]]].
      * exists s. split; [left; reflexivity | exact E].
      * exists s'. split; [right; exact Hin | exact E].
Qed.

(** Widening only moves the floor down and the ceiling up. *)
Lemma _widen_channel_outward (gex : list Row)
      (spot f c max_gex min_width_pct : Q) :
  fst (_widen_channel gex spot f c max_gex min_width_pct) <= f /\
  c <= snd (_widen_channel gex spot f c max_gex min_width_pct).
Proof.
  unfold _widen_channel. simpl. split.
  - match goal with |- widen_scan ?far f ?cands <= f =>
      destruct (widen_scan_cases far cands f) as [E | [s [Hin E]]]
    end; rewrite E; [lra |].
    apply sorted_rows_In, filter_In in Hin. destruct Hin as [_ Hin].
    apply andb_prop in Hin. destruct Hin as [Hin _].
    apply Qltb_lt in Hin. lra.
  - match goal with |- c <= widen_scan ?far c ?cands =>
      destruct (widen_scan_cases far cands c) as [E | [s [Hin E]]]
    end; rewrite E; [lra |].
    apply sorted_rows_In, filter_In in Hin. destruct Hin as [_ Hin].
    apply andb_prop in Hin. destruct Hin as [Hin _].
    apply Qltb_lt in Hin. lra.
Qed.

Lemma round_half_even_Z (z : Z) : round_half_even (inject_Z z) = z.
Proof.
  unfold round_half_even. rewrite Qfloor_Z.
  destruct (Qcompare_spec (inject_Z z - inject_Z z) (1 # 2)) as [E | E | E];
    [exfalso; lra | reflexivity | exfalso; lra].
Qed.

Lemma pow10_pos (n : nat) : 0 < inject_Z (10 ^ Z.of_nat n).
Proof.
  change 0 with (inject_Z 0). rewrite <- Zlt_Qlt.
  apply Z.pow_pos_nonneg; lia.
Qed.

(** Rounding keeps a value of the unit interval inside it. *)
Lemma py_round_unit (x : Q) (n : nat) :
  0 <= x -> x <= 1 -> 0 <= py_round x n /\ py_round x n <= 1.
Proof.
  intros H0 H1. unfold py_round.
  set (m := (10 ^ Z.of_nat n)%Z).
  pose proof (pow10_pos n) as Hm. fold m in Hm.
  assert (Hlo : (0 <= round_half_even (x * inject_Z m))%Z).
  { rewrite <- (round_half_even_Z 0). apply round_half_even_mono.
    change (inject_Z 0) with 0. nra. }
  assert (Hhi : (round_half_even (x * inject_Z m) <= m)%Z).
  { rewrite <- (round_half_even_Z m) at 2. apply round_half_even_mono. nra. }
  rewrite Zle_Qle in Hlo, Hhi. change (inject_Z 0) with 0 in Hlo.
  split.
  - apply Qle_shift_div_l; [exact Hm | lra].
  - apply Qle_shift_div_r; [exact Hm | lra].
Qed.

Lemma truthy_Some (v : Q) : truthy (Some v) = true <-> ~ v == 0.
Proof.
  simpl. rewrite negb_true_iff. split.
  - intros H E. apply Qeq_bool_iff in E. congruence.
  - intro H. destruct (Qeq_bool v 0) eqn:E; [| reflexivity].
    apply Qeq_bool_iff in E. contradiction.
Qed.

End ChannelFacts.

Section ChannelInvariant.

Import GammaChannel.

Lemma initial_floor_below (gex : list Row) (spot max_gex ft f : Q) :
  initial_floor gex spot max_gex ft = Some f -> f < spot.
Proof.
  unfold initial_floor.
  destruct (py_max (fun x => x) _) as [v |] eqn:E.
  - intro H. injection H as <-.
    apply py_max_In, in_map_iff in E. destruct E as [s [<- Hs]].
    apply filter_In in Hs. destruct Hs as [_ Hs].
    apply andb_prop in Hs. apply Qltb_lt, Hs.
  - destruct (py_max (fun s => Qabs (net_gex s)) _) as [s |] eqn:E';
      simpl; intro H; [| discriminate].
    injection H as <-.
    apply py_max_In, filter_In in E'. destruct E' as [_ Hs].
    apply andb_prop in Hs. apply Qltb_lt, Hs.
Qed.

Lemma initial_ceiling_above (gex : list Row) (spot max_gex ct c : Q) :
  initial_ceiling gex spot max_gex ct = Some c -> spot < c.
Proof.
  unfold initial_ceiling.
  destruct (py_min (fun x => x) _) as [v |] eqn:E.
  - intro H. injection H as <-.
    apply py_min_In, in_map_iff in E. destruct E as [s [<- Hs]].
    apply filter_In in Hs. destruct Hs as [_ Hs].
    apply andb_prop in Hs. apply Qltb_lt, Hs.
  - destruct (py_min (fun s => Qabs (net_gex s)) _) as [s |] eqn:E';
      simpl; intro H; [| discriminate].
    injection H as <-.
    apply py_min_In, filter_In in E'. destruct E' as [_ Hs].
    apply andb_prop in Hs. apply Qltb_lt, Hs.
Qed.

(** The widening step keeps unset levels unset and moves set levels
    outward. *)
Lemma widen_if_degenerate_outward (gex : list Row) (spot max_gex mw : Q)
      (f0 c0 : option Q) (d : bool) (f1 c1 : option Q) :
  widen_if_degenerate gex spot max_gex mw f0 c0 = (d, f1, c1) ->
  (forall f, f1 = Some f -> exists f', f0 = Some f' /\ f <= f') /\
  (forall c, c1 = Some c -> exists c', c0 = Some c' /\ c' <= c).
Proof.
  unfold widen_if_degenerate.
  destruct f0 as [f' |], c0 as [c' |];
    try (intro H; injection H as <- <- <-; split; intros x Hx;
         first [discriminate Hx | exists x; split; [exact Hx | lra]]).
  destruct (truthy (Some f') && truthy (Some c') && _).
  - pose proof (_widen_channel_outward gex spot f' c' max_gex mw) as [Hf Hc].
    destruct (_widen_channel gex spot f' c' max_gex mw) as [nf nc].
    simpl in Hf, Hc.
    intro H. injection H as <- <- <-.
    split; intros x Hx; injection Hx as <-.
    + exists f'. auto.
    + exists c'. auto.
  - intro H. injection H as <- <- <-.
    split; intros x Hx; injection Hx as <-.
    + exists f'. split; [reflexivity | lra].
    + exists c'. split; [reflexivity | lra].
Qed.

End ChannelInvariant.

(** ** acf_engine.py *)

Section AcfFacts.

Import AcfEngine AcfSeries.

Lemma inject_nat_pos (k : nat) : (0 < k)%nat -> 0 < inject_Z (Z.of_nat k).
Proof.
  intro H. change 0 with (inject_Z 0). rewrite <- Zlt_Qlt. lia.
Qed.

Lemma inject_nat_S (k : nat) :
  inject_Z (Z.of_nat (S k)) == inject_Z (Z.of_nat k) + 1.
Proof. rewrite Nat2Z.inj_succ. unfold Z.succ. apply inject_Z_succ. Qed.

(** *** Sums and means *)

Lemma np_sum_bounds (lo hi : Q) (xs : list Q) :
  Forall (fun x => lo <= x /\ x <= hi) xs ->
  inject_Z (Z.of_nat (length xs)) * lo <= np_sum xs /\
  np_sum xs <= inject_Z (Z.of_nat (length xs)) * hi.
Proof.
  induction 1 as [| x xs [Hlo Hhi] _ [IHlo IHhi]].
  - cbn [length np_sum fold_right].
    change (inject_Z (Z.of_nat 0)) with 0. split; lra.
  - cbn [length np_sum fold_right]. fold (np_sum xs).
    rewrite inject_nat_S. split; lra.
Qed.

Lemma np_sum_all_eq (c : Q) (xs : list Q) :
  Forall (fun x => x == c) xs ->
  np_sum xs == inject_Z (Z.of_nat (length xs)) * c.
Proof.
  intro H.
  destruct (np_sum_bounds c c xs) as [H1 H2]; [| lra].
  eapply Forall_impl; [| exact H]. simpl. intros a Ha. lra.
Qed.

Lemma np_mean_all_eq (c : Q) (xs : list Q) :
  xs <> [] -> Forall (fun x => x == c) xs -> np_mean xs == c.
Proof.
  intros Hne H. unfold np_mean. rewrite (np_sum_all_eq c xs H).
  field. intro E.
  assert (Hpos : 0 < inject_Z (Z.of_nat (length xs))).
  { apply inject_nat_pos. destruct xs; [congruence | simpl; lia]. }
  lra.
Qed.

Lemma np_var_all_eq (c : Q) (xs : list Q) :
  xs <> [] -> Forall (fun x => x == c) xs -> np_var xs == 0.
Proof.
  intros Hne H. unfold np_var.
  apply np_mean_all_eq.
  - destruct xs; [congruence | discriminate].
  - apply Forall_map. eapply Forall_impl; [| exact H].
    simpl. intros a Ha. rewrite (np_mean_all_eq c xs Hne H), Ha. ring.
Qed.

(** *** A constant series *)

Lemma pct_change_repeat (p : Q) (n : nat) :
  Forall (fun x => x == p / p - 1) (pct_change (repeat p n)).
Proof.
  induction n as [| n IH]; simpl; [constructor |].
  destruct n as [| n]; simpl in *; [constructor |].
  constructor; [reflexivity | exact IH].
Qed.

Lemma constant_series_undefined (p : Q) (n max_lag : nat) :
  compute_daily_acf (repeat p n) max_lag = None.
Proof.
  unfold compute_daily_acf.
  destruct (length (pct_change (repeat p n)) <? max_lag + 10)%nat eqn:G;
    [reflexivity |].
  apply Nat.ltb_ge in G.
  assert (Hne : pct_change (repeat p n) <> []).
  { intro E. rewrite E in G. simpl in G. lia. }
  pose proof (np_var_all_eq _ _ Hne (pct_change_repeat p n)) as Hv.
  assert (Hlt : Qltb (np_var (pct_change (repeat p n))) (1 # 1000000000000)
                = true).
  { apply Qltb_lt. rewrite Hv. reflexivity. }
  rewrite Hlt. reflexivity.
Qed.

(** *** An alternating series *)

Lemma alternating_length (a b : Q) (n : nat) :
  length (alternating a b n) = n.
Proof.
  revert a b. induction n as [| n IH]; intros a b; simpl;
    [| rewrite IH]; reflexivity.
Qed.

Lemma alternating_Forall (P : Q -> Prop) (a b : Q) (n : nat) :
  P a -> P b -> Forall P (alternating a b n).
Proof.
  revert a b. induction n as [| n IH]; intros a b Ha Hb; simpl;
    constructor; auto.
Qed.

Lemma alternating_map (f : Q -> Q) (a b : Q) (n : nat) :
  map f (alternating a b n) = alternating (f a) (f b) n.
Proof.
  revert a b. induction n as [| n IH]; intros a b; simpl;
    [| rewrite IH]; reflexivity.
Qed.

Lemma alternating_firstn (a b : Q) (n : nat) :
  firstn n (alternating a b (S n)) = alternating a b n.
Proof.
  revert a b. induction n as [| n IH]; intros a b; [reflexivity |].
  change (a :: firstn n (alternating b a (S n)) = a :: alternating b a n).
  rewrite IH. reflexivity.
Qed.

Lemma pct_change_alternating (a b : Q) (n : nat) :
  pct_change (alternating a b (S n)) = alternating (b / a - 1) (a / b - 1) n.
Proof.
  revert a b. induction n as [| n IH]; intros a b; [reflexivity |].
  change ((b / a - 1) :: pct_change (alternating b a (S n))
          = (b / a - 1) :: alternating (a / b - 1) (b / a - 1) n).
  rewrite IH. reflexivity.
Qed.

(** Every product of neighbours in an alternating list is the same. *)
Lemma np_mul_alternating (x y : Q) (k : nat) :
  Forall (fun p => p == x * y)
         (np_mul (alternating x y k) (alternating y x k)).
Proof.
  revert x y. induction k as [| k IH]; intros x y; simpl.
  - constructor.
  - constructor; [reflexivity |].
    eapply Forall_impl; [| apply (IH y x)].
    simpl. intros p Hp. rewrite Hp. ring.
Qed.

(** The mean of at least two alternating values lies strictly between
    them, so the two deviations have opposite signs. *)
Lemma alternating_deviations (u v : Q) (k : nat) :
  ~ u == v ->
  let m := np_mean (alternating u v (S (S k))) in
  (u - m) * (v - m) < 0.
Proof.
  intros Hne m.
  set (N := inject_Z (Z.of_nat (S (S k)))).
  assert (HN : N == inject_Z (Z.of_nat k) + 2).
  { unfold N. rewrite !inject_nat_S. ring. }
  assert (Hk : 0 <= inject_Z (Z.of_nat k)).
  { change 0 with (inject_Z 0). rewrite <- Zle_Qle. lia. }
  assert (Hm : m * N == u + v + np_sum (alternating u v k)).
  { unfold m, np_mean. rewrite alternating_length. fold N.
    change (np_sum (alternating u v (S (S k))))
      with (u + (v + np_sum (alternating u v k))).
    field. lra. }
  destruct (Q_dec u v) as [[Hlt | Hgt] | Heq]; [| | contradiction].
  - destruct (np_sum_bounds u v (alternating u v k)) as [Hlo Hhi].
    { apply alternating_Forall; split; lra. }
    rewrite alternating_length in Hlo, Hhi.
    assert (H1 : u < m) by nra.
    assert (H2 : m < v) by nra.
    nra.
  - destruct (np_sum_bounds v u (alternating u v k)) as [Hlo Hhi].
    { apply alternating_Forall; split; lra. }
    rewrite alternating_length in Hlo, Hhi.
    assert (H1 : v < m) by nra.
    assert (H2 : m < u) by nra.
    nra.
Qed.

Lemma acf_lag1_alternating (u v var : Q) (k : nat) :
  ~ u == v -> 0 < var ->
  acf_at (alternating u v (S (S k)))
         (np_mean (alternating u v (S (S k)))) var 1 < 0.
Proof.
  intros Hne Hvar. unfold acf_at.
  set (m := np_mean (alternating u v (S (S k)))).
  rewrite alternating_length.
  replace (S (S k) - 1)%nat with (S k) by lia.
  rewrite alternating_firstn.
  change (skipn 1 (alternating u v (S (S k)))) with (alternating v u (S k)).
  rewrite !alternating_map.
  pose proof (np_mul_alternating (u - m) (v - m) (S k)) as Hall.
  assert (Hmean : np_mean (np_mul (alternating (u - m) (v - m) (S k))
                                  (alternating (v - m) (u - m) (S k)))
                  == (u - m) * (v - m)).
  { apply np_mean_all_eq; [discriminate | exact Hall]. }
  rewrite Hmean.
  pose proof (alternating_deviations u v k Hne) as Hd.
  cbv zeta in Hd. fold m in Hd.
  apply Qlt_shift_div_r; [exact Hvar | lra].
Qed.

Lemma compute_daily_acf_defined (prices : list Q) (max_lag : nat) :
  (max_lag + 10 <= length (pct_change prices))%nat ->
  (1 # 1000000000000) <= np_var (pct_change prices) ->
  compute_daily_acf prices max_lag =
  Some (map (acf_at (pct_change prices) (np_mean (pct_change prices))
                    (np_var (pct_change prices)))
            (seq 1 max_lag)).
Proof.
  intros Hlen Hvar. unfold compute_daily_acf.
  assert (G : (length (pct_change prices) <? max_lag + 10)%nat = false)
    by (apply Nat.ltb_ge; exact Hlen).
  assert (F : Qltb (np_var (pct_change prices)) (1 # 1000000000000) = false)
    by (apply Qltb_ge; exact Hvar).
  rewrite G, F. reflexivity.
Qed.

(** An exactly alternating series that passes both guards has a negative
    lag-1 autocorrelation. *)
Lemma alternating_series_negative (a b : Q) (n max_lag : nat) :
  let prices := alternating a b n in
  (1 <= max_lag)%nat ->
  (max_lag + 10 <= length (pct_change prices))%nat ->
  (1 # 1000000000000) <= np_var (pct_change prices) ->
  exists lag1 rest,
    compute_daily_acf prices max_lag = Some (lag1 :: rest) /\ lag1 < 0.
Proof.
  intros prices Hlag Hlen Hvar.
  rewrite (compute_daily_acf_defined prices max_lag Hlen Hvar).
  destruct max_lag as [| max_lag]; [lia |].
  cbn [seq map]. eexists. eexists. split; [reflexivity |].
  subst prices.
  destruct n as [| n]; [simpl in Hlen; lia |].
  rewrite pct_change_alternating in *.
  rewrite alternating_length in Hlen.
  destruct n as [| [| k]]; [lia | lia |].
  set (u := b / a - 1) in *. set (v := a / b - 1) in *.
  assert (Hne : ~ u == v).
  { intro E.
    assert (Hz : np_var (alternating u v (S (S k))) == 0).
    { apply (np_var_all_eq u); [discriminate |].
      apply alternating_Forall; [reflexivity | symmetry; exact E]. }
    rewrite Hz in Hvar. revert Hvar. apply Qlt_not_le. reflexivity. }
  apply acf_lag1_alternating; [exact Hne |].
  eapply Qlt_le_trans; [| exact Hvar]. reflexivity.
Qed.

(** *** Monotone returns *)

Lemma Qsquare_nonneg (a : Q) : 0 <= a * a.
Proof. destruct (Qlt_le_dec a 0); nra. Qed.

Lemma Qltb_shift (m x : Q) : Qltb 0 (x - m) = Qltb m x.
Proof.
  destruct (Qltb m x) eqn:E.
  - apply Qltb_lt in E. apply Qltb_lt. lra.
  - apply Qltb_ge in E. apply Qltb_ge. lra.
Qed.

Lemma Qltb_shift' (m x : Q) : Qltb (x - m) 0 = Qltb x m.
Proof.
  destruct (Qltb x m) eqn:E.
  - apply Qltb_lt in E. apply Qltb_lt. lra.
  - apply Qltb_ge in E. apply Qltb_ge. lra.
Qed.

Lemma count_above_shift (m : Q) (xs : list Q) :
  count_above 0 (map (fun x => x - m) xs) = count_above m xs.
Proof.
  unfold count_above. induction xs as [| x xs IH]; simpl; [reflexivity |].
  rewrite Qltb_shift. destruct (Qltb m x); simpl; rewrite IH; reflexivity.
Qed.

Lemma count_below_shift (m : Q) (xs : list Q) :
  count_below 0 (map (fun x => x - m) xs) = count_below m xs.
Proof.
  unfold count_below. induction xs as [| x xs IH]; simpl; [reflexivity |].
  rewrite Qltb_shift'. destruct (Qltb x m); simpl; rewrite IH; reflexivity.
Qed.

Lemma count_above_none (xs : list Q) :
  Forall (fun x => x <= 0) xs -> count_above 0 xs = 0%nat.
Proof.
  unfold count_above. induction 1 as [| x xs Hx _ IH]; simpl; [reflexivity |].
  apply Qltb_ge in Hx. rewrite Hx. exact IH.
Qed.

Lemma adjacent_sum_nonpos (xs : list Q) :
  Forall (fun x => x <= 0) xs -> 0 <= adjacent_sum xs.
Proof.
  induction 1 as [| x xs Hx Hxs IH]; simpl; [lra |].
  destruct xs as [| y xs]; [lra |].
  inversion Hxs as [| ? ? Hy _]; subst. nra.
Qed.

Lemma sorted_below_head (z : Q) (l : list Q) :
  StronglySorted Qge_rel (z :: l) -> z <= 0 ->
  Forall (fun x => x <= 0) (z :: l).
Proof.
  intros Hs Hz. inversion Hs as [| ? ? _ Hall]; subst.
  constructor; [exact Hz |].
  eapply Forall_impl; [| exact Hall]. unfold Qge_rel. simpl. intros a Ha. lra.
Qed.

(** From a positive head onward, with at least two negative entries later,
    the adjacent products cannot fall to minus the head squared. *)
Lemma adjacent_sum_from_positive (l : list Q) (y : Q) :
  StronglySorted Qge_rel (y :: l) -> 0 < y ->
  (2 <= count_below 0 l)%nat ->
  - (y * y) < adjacent_sum (y :: l).
Proof.
  revert y. induction l as [| z l IH]; intros y Hs Hy Hc.
  - unfold count_below in Hc. simpl in Hc. lia.
  - inversion Hs as [| ? ? Hs' Hall]; subst.
    inversion Hall as [| ? ? Hzy _]; subst. unfold Qge_rel in Hzy.
    change (adjacent_sum (y :: z :: l)) with (y * z + adjacent_sum (z :: l)).
    destruct (Qlt_le_dec 0 z) as [Hz | Hz].
    + assert (Hc' : (2 <= count_below 0 l)%nat).
      { unfold count_below in *. simpl in Hc.
        assert (E : Qltb z 0 = false) by (apply Qltb_ge; lra).
        rewrite E in Hc. exact Hc. }
      pose proof (IH z Hs' Hz Hc'). nra.
    + pose proof (sorted_below_head z l Hs' Hz) as Hneg.
      destruct l as [| w l].
      * unfold count_below in Hc. simpl in Hc.
        destruct (Qltb z 0); simpl in Hc; lia.
      * inversion Hs' as [| ? ? Hs'' Hall']; subst.
        inversion Hall' as [| ? ? Hwz _]; subst. unfold Qge_rel in Hwz.
        change (adjacent_sum (z :: w :: l))
          with (z * w + adjacent_sum (w :: l)).
        inversion Hneg as [| ? ? _ Hneg']; subst.
        pose proof (adjacent_sum_nonpos (w :: l) Hneg').
        assert (Hzw : z * z <= z * w) by nra.
        assert (Hyy : 0 < y * y) by nra.
        pose proof (Qsquare_nonneg z).
        pose proof (Qsquare_nonneg (y + z)).
        lra.
Qed.

(** Non-increasing values with two positive and two negative entries have
    a positive sum of adjacent products. *)
Lemma adjacent_sum_positive (d : list Q) :
  StronglySorted Qge_rel d ->
  (2 <= count_above 0 d)%nat -> (2 <= count_below 0 d)%nat ->
  0 < adjacent_sum d.
Proof.
  intros Hs Ha Hb.
  destruct d as [| x [| y l]].
  - unfold count_above in Ha. simpl in Ha. lia.
  - unfold count_above in Ha. simpl in Ha.
    destruct (Qltb 0 x); simpl in Ha; lia.
  - inversion Hs as [| ? ? Hs' Hall]; subst.
    inversion Hall as [| ? ? Hyx _]; subst. unfold Qge_rel in Hyx.
    destruct (Qlt_le_dec 0 y) as [Hy | Hy].
    + assert (Hb' : (2 <= count_below 0 l)%nat).
      { unfold count_below in *. simpl in Hb.
        assert (E1 : Qltb x 0 = false) by (apply Qltb_ge; lra).
        assert (E2 : Qltb y 0 = false) by (apply Qltb_ge; lra).
        rewrite E1, E2 in Hb. exact Hb. }
      pose proof (adjacent_sum_from_positive l y Hs' Hy Hb').
      change (adjacent_sum (x :: y :: l)) with (x * y + adjacent_sum (y :: l)).
      nra.
    + exfalso.
      pose proof (count_above_none _ (sorted_below_head y l Hs' Hy)) as Hn.
      unfold count_above in *. simpl in Ha, Hn.
      destruct (Qltb 0 x); simpl in Ha; rewrite Hn in Ha; lia.
Qed.

Lemma StronglySorted_map (R R' : Q -> Q -> Prop) (f : Q -> Q) (l : list Q) :
  (forall a b, R a b -> R' (f a) (f b)) ->
  StronglySorted R l -> StronglySorted R' (map f l).
Proof.
  intros Hf. induction 1 as [| x l Hs IH Hall]; simpl; constructor.
  - exact IH.
  - apply Forall_map. eapply Forall_impl; [| exact Hall].
    intros a Ha. apply Hf, Ha.
Qed.

Lemma adjacent_sum_opp (d : list Q) :
  adjacent_sum (map Qopp d) == adjacent_sum d.
Proof.
  induction d as [| x d IH]; [reflexivity |].
  destruct d as [| y d]; [reflexivity |].
  change (- x * - y + adjacent_sum (map Qopp (y :: d))
          == x * y + adjacent_sum (y :: d)).
  rewrite IH. ring.
Qed.

Lemma count_above_opp (d : list Q) :
  count_above 0 (map Qopp d) = count_below 0 d.
Proof.
  unfold count_above, count_below.
  induction d as [| x d IH]; simpl; [reflexivity |].
  assert (E : Qltb 0 (- x) = Qltb x 0).
  { destruct (Qltb x 0) eqn:F.
    - apply Qltb_lt in F. apply Qltb_lt. lra.
    - apply Qltb_ge in F. apply Qltb_ge. lra. }
  rewrite E. destruct (Qltb x 0); simpl; rewrite IH; reflexivity.
Qed.

Lemma count_below_opp (d : list Q) :
  count_below 0 (map Qopp d) = count_above 0 d.
Proof.
  unfold count_above, count_below.
  induction d as [| x d IH]; simpl; [reflexivity |].
  assert (E : Qltb (- x) 0 = Qltb 0 x).
  { destruct (Qltb 0 x) eqn:F.
    - apply Qltb_lt in F. apply Qltb_lt. lra.
    - apply Qltb_ge in F. apply Qltb_ge. lra. }
  rewrite E. destruct (Qltb 0 x); simpl; rewrite IH; reflexivity.
Qed.

(** The same for non-decreasing values. *)
Lemma adjacent_sum_positive_asc (d : list Q) :
  StronglySorted Qle d ->
  (2 <= count_above 0 d)%nat -> (2 <= count_below 0 d)%nat ->
  0 < adjacent_sum d.
Proof.
  intros Hs Ha Hb. rewrite <- adjacent_sum_opp.
  apply adjacent_sum_positive.
  - apply (StronglySorted_map Qle); [| exact Hs].
    unfold Qge_rel. intros a b Hab. lra.
  - rewrite count_above_opp. exact Hb.
  - rewrite count_below_opp. exact Ha.
Qed.

Lemma np_mul_tl_sum (d : list Q) :
  np_sum (np_mul d (tl d)) == adjacent_sum d.
Proof.
  induction d as [| x d IH]; [reflexivity |].
  destruct d as [| y d]; [reflexivity |].
  change (x * y + np_sum (np_mul (y :: d) (tl (y :: d)))
          == x * y + adjacent_sum (y :: d)).
  rewrite IH. reflexivity.
Qed.

Lemma np_mul_tl_length (d : list Q) :
  length (np_mul d (tl d)) = (length d - 1)%nat.
Proof.
  unfold np_mul. rewrite length_map, length_combine.
  destruct d as [| x d]; cbn [tl length]; lia.
Qed.

(** Line 32 at lag 1, in terms of the deviations from the mean. *)
Lemma acf_at_lag1 (returns : list Q) (mean var : Q) :
  acf_at returns mean var 1 =
  np_mean (np_mul (map (fun x => x - mean) returns)
                  (tl (map (fun x => x - mean) returns))) / var.
Proof.
  unfold acf_at, np_mul.
  set (f := fun x => x - mean).
  change (skipn 1 returns) with (tl returns).
  rewrite <- firstn_map, tl_map.
  rewrite (combine_firstn_r (map f returns) (map f (tl returns))).
  rewrite !length_map.
  replace (length (tl returns)) with (length returns - 1)%nat
    by (destruct returns; simpl; lia).
  reflexivity.
Qed.

(** Monotone returns with two above and two below their mean give a
    positive lag-1 autocorrelation once both guards pass. *)
Lemma monotone_returns_positive (prices : list Q) (max_lag : nat) :
  let returns := pct_change prices in
  (1 <= max_lag)%nat ->
  (max_lag + 10 <= length returns)%nat ->
  (1 # 1000000000000) <= np_var returns ->
  Sorted Qge_rel returns \/ Sorted Qle returns ->
  (2 <= count_above (np_mean returns) returns)%nat ->
  (2 <= count_below (np_mean returns) returns)%nat ->
  exists lag1 rest,
    compute_daily_acf prices max_lag = Some (lag1 :: rest) /\ 0 < lag1.
Proof.
  intros returns Hlag Hlen Hvar Hsorted Ha Hb.
  rewrite (compute_daily_acf_defined prices max_lag Hlen Hvar).
  destruct max_lag as [| max_lag]; [lia |].
  cbn [seq map]. eexists. eexists. split; [reflexivity |].
  fold returns. rewrite acf_at_lag1.
  set (m := np_mean returns) in *.
  set (d := map (fun x => x - m) returns).
  assert (Hsum : 0 < adjacent_sum d).
  { destruct Hsorted as [Hs | Hs].
    - apply adjacent_sum_positive.
      + apply (StronglySorted_map Qge_rel).
        * unfold Qge_rel. intros a b Hab. lra.
        * apply Sorted_StronglySorted; [| exact Hs].
          intros a b c. unfold Qge_rel. intros H1 H2. lra.
      + unfold d. rewrite count_above_shift. exact Ha.
      + unfold d. rewrite count_below_shift. exact Hb.
    - apply adjacent_sum_positive_asc.
      + apply (StronglySorted_map Qle).
        * intros a b Hab. lra.
        * apply Sorted_StronglySorted; [| exact Hs].
          intros a b c H1 H2. lra.
      + unfold d. rewrite count_above_shift. exact Ha.
      + unfold d. rewrite count_below_shift. exact Hb. }
  assert (Hn : 0 < inject_Z (Z.of_nat (length (np_mul d (tl d))))).
  { apply inject_nat_pos. rewrite np_mul_tl_length. unfold d.
    rewrite length_map. fold returns in Hlen. lia. }
  assert (Hv : 0 < np_var returns).
  { eapply Qlt_le_trans; [| exact Hvar]. reflexivity. }
  apply Qlt_shift_div_l; [exact Hv |].
  unfold np_mean. apply Qlt_shift_div_l; [exact Hn |].
  rewrite np_mul_tl_sum. lra.
Qed.

End AcfFacts.

(** C5 (amended). A constant price series has no defined autocorrelation
    at any lag.  For a series of positive prices that passes the length
    guard and whose return variance reaches the floor: it has lag-1 ACF > 0
    when its returns are monotone with at least two strictly above and two
    strictly below their mean, and lag-1 ACF < 0 when it alternates exactly
    between two prices. *)
Theorem daily_acf_sign_cases :
  (forall (p : Q) (n max_lag : nat),
      AcfEngine.compute_daily_acf (repeat p n) max_lag = None) /\
  (forall (prices : list Q) (max_lag : nat),
      let returns := AcfEngine.pct_change prices in
      Forall (fun p => 0 < p) prices ->
      (1 <= max_lag)%nat ->
      (max_lag + 10 <= length returns)%nat ->
      (1 # 1000000000000) <= AcfEngine.np_var returns ->
      Sorted AcfSeries.Qge_rel returns \/ Sorted Qle returns ->
      (2 <= AcfSeries.count_above (AcfEngine.np_mean returns) returns)%nat ->
      (2 <= AcfSeries.count_below (AcfEngine.np_mean returns) returns)%nat ->
      exists lag1 rest,
        AcfEngine.compute_daily_acf prices max_lag = Some (lag1 :: rest)
        /\ 0 < lag1) /\
  (forall (a b : Q) (n max_lag : nat),
      let prices := AcfSeries.alternating a b n in
      0 < a -> 0 < b ->
      (1 <= max_lag)%nat ->
      (max_lag + 10 <= length (AcfEngine.pct_change prices))%nat ->
      (1 # 1000000000000) <= AcfEngine.np_var (AcfEngine.pct_change prices) ->
      exists lag1 rest,
        AcfEngine.compute_daily_acf prices max_lag = Some (lag1 :: rest)
        /\ lag1 < 0).
Proof.
  split; [exact constant_series_undefined |]. split.
  - intros prices max_lag returns _. apply monotone_returns_positive.
  - intros a b n max_lag prices _ _. apply alternating_series_negative.
Qed.

Lemma daily_acf_sign_cases_witness :
  (exists lag1 rest,
      AcfEngine.compute_daily_acf (AcfSeries.ramp 1 16) 5 = Some (lag1 :: rest)
      /\ 0 < lag1) /\
  (exists lag1 rest,
      AcfEngine.compute_daily_acf (AcfSeries.alternating 2 1 16) 5
      = Some (lag1 :: rest)
      /\ lag1 < 0).
Proof.
  split.
  - apply (proj1 (proj2 daily_acf_sign_cases) (AcfSeries.ramp 1 16) 5%nat).
    + repeat constructor.
    + lia.
    + vm_compute. lia.
    + apply Qle_bool_iff. vm_compute. reflexivity.
    + left. repeat constructor; unfold AcfSeries.Qge_rel;
        apply Qle_bool_iff; vm_compute; reflexivity.
    + vm_compute. lia.
    + vm_compute. lia.
  - apply (proj2 (proj2 daily_acf_sign_cases) 2 1 16%nat 5%nat).
    + reflexivity.
    + reflexivity.
    + lia.
    + vm_compute. lia.
    + apply Qle_bool_iff. vm_compute. reflexivity.
Defined.

(** C5 as stated fails: this series of 16 prices rises strictly, passes
    the length guard for 5 lags, and has a negative lag-1 ACF. *)
Lemma strictly_increasing_negative_acf :
  StronglySorted Qlt (AcfSeries.staircase 10 16) /\
  (5 + 10 <= length (AcfEngine.pct_change (AcfSeries.staircase 10 16)))%nat /\
  exists lag1 rest,
    AcfEngine.compute_daily_acf (AcfSeries.staircase 10 16) 5
    = Some (lag1 :: rest)
    /\ lag1 < 0.
Proof.
  split; [| split].
  - repeat constructor.
  - vm_compute. lia.
  - assert (H : match AcfEngine.compute_daily_acf
                        (AcfSeries.staircase 10 16) 5 with
                | Some (lag1 :: _) => Qltb lag1 0
                | _ => false
                end = true) by (vm_compute; reflexivity).
    destruct (AcfEngine.compute_daily_acf (AcfSeries.staircase 10 16) 5)
      as [[| lag1 rest] |]; try discriminate H.
    exists lag1, rest. split; [reflexivity | apply Qltb_lt; exact H].
Qed.

(** An exactly alternating series whose swings are tiny is stopped by the
    variance floor. *)
Example alternating_below_variance_floor :
  AcfEngine.compute_daily_acf (AcfSeries.alternating 100 100.00001 16) 5
  = None.
Proof. vm_compute. reflexivity. Qed.

(** ** gex_calculator.py: the Greeks *)

Section GreeksFacts.

Import GexCalculator.
Local Open Scope R_scope.

Lemma Rleb_le (x y : R) : Rleb x y = true <-> x <= y.
Proof.
  unfold Rleb. destruct (Rle_dec x y); split; intro H;
    try reflexivity; try assumption; try discriminate; contradiction.
Qed.

Lemma Rleb_gt (x y : R) : Rleb x y = false <-> y < x.
Proof.
  unfold Rleb. destruct (Rle_dec x y); split; intro H;
    try reflexivity; try discriminate; lra.
Qed.

Lemma Rltb_lt (x y : R) : Rltb x y = true <-> x < y.
Proof.
  unfold Rltb. destruct (Rlt_dec x y); split; intro H;
    try reflexivity; try assumption; try discriminate; contradiction.
Qed.

Lemma Rltb_ge (x y : R) : Rltb x y = false <-> y <= x.
Proof.
  unfold Rltb. destruct (Rlt_dec x y); split; intro H;
    try reflexivity; try discriminate; lra.
Qed.

Lemma guard_true (floor_T T sigma S : R) :
  T <= floor_T \/ sigma <= 0 \/ S <= 0 ->
  Rleb T floor_T || Rleb sigma 0 || Rleb S 0 = true.
Proof.
  intros [H | [H | H]]; apply Rleb_le in H; rewrite H;
    rewrite ?orb_true_r; reflexivity.
Qed.

Lemma guard_false (floor_T T sigma S : R) :
  floor_T < T -> 0 < sigma -> 0 < S ->
  Rleb T floor_T || Rleb sigma 0 || Rleb S 0 = false.
Proof.
  intros H1 H2 H3. apply Rleb_gt in H1, H2, H3.
  rewrite H1, H2, H3. reflexivity.
Qed.

Lemma norm_pdf_pos (x : R) : 0 < norm_pdf x.
Proof.
  unfold norm_pdf. apply Rdiv_lt_0_compat; [apply exp_pos |].
  apply sqrt_lt_R0. pose proof PI_RGT_0. lra.
Qed.

(** Gamma is positive whenever none of its guards fires. *)
Lemma black_scholes_gamma_pos (S K T r sigma : R) :
  0 < T -> 0 < sigma -> 0 < S -> 0 < black_scholes_gamma S K T r sigma.
Proof.
  intros HT Hs HS. unfold black_scholes_gamma.
  rewrite (guard_false 0 T sigma S HT Hs HS).
  apply Rdiv_lt_0_compat; [apply norm_pdf_pos |].
  pose proof (sqrt_lt_R0 T HT).
  apply Rmult_lt_0_compat; [apply Rmult_lt_0_compat |]; assumption.
Qed.

(** C3 (amended). Gamma and delta return exactly 0 when T <= 0, sigma <= 0
    or S <= 0; charm and vanna return exactly 0 when T <= 0.001,
    sigma <= 0 or S <= 0. *)
Theorem greeks_zero_under_guards (S K T r sigma : R) (option_type : string) :
  (T <= 0 \/ sigma <= 0 \/ S <= 0 ->
   black_scholes_gamma S K T r sigma = 0 /\
   black_scholes_delta S K T r sigma option_type = 0) /\
  (T <= 0.001 \/ sigma <= 0 \/ S <= 0 ->
   black_scholes_charm S K T r sigma option_type = 0 /\
   black_scholes_vanna S K T r sigma = 0).
Proof.
  split; intro H.
  - unfold black_scholes_gamma, black_scholes_delta.
    rewrite (guard_true 0 T sigma S H). split; reflexivity.
  - unfold black_scholes_charm, black_scholes_vanna.
    rewrite (guard_true 0.001 T sigma S H). split; reflexivity.
Qed.

End GreeksFacts.

Lemma greeks_zero_under_guards_witness :
  (GexCalculator.black_scholes_gamma 100 100 0 0.05 0.3 = 0
   /\ GexCalculator.black_scholes_delta 100 100 0 0.05 0.3 "put" = 0)%R /\
  (GexCalculator.black_scholes_charm 100 100 0.001 0.05 0.3 "put" = 0
   /\ GexCalculator.black_scholes_vanna 100 100 0.001 0.05 0.3 = 0)%R.
Proof.
  split.
  - apply (proj1 (greeks_zero_under_guards 100 100 0 0.05 0.3 "put")).
    left. lra.
  - apply (proj2 (greeks_zero_under_guards 100 100 0.001 0.05 0.3 "put")).
    left. lra.
Defined.

(** C3 as stated fails for gamma: at T = 0.001, the floor that
    [calculate_gex_profile] applies to T, gamma is positive. *)
Lemma gamma_nonzero_at_time_floor :
  (0.001 <= 0.001 /\
   GexCalculator.black_scholes_gamma 100 100 0.001 0.05 0.3 <> 0)%R.
Proof.
  split; [lra |].
  apply Rgt_not_eq, Rlt_gt, black_scholes_gamma_pos; lra.
Qed.

(** ** gex_calculator.py: rounding on reals *)

Section RealRounding.

Import GexCalculator.
Local Open Scope R_scope.

Lemma round_half_even_near_R (x : R) :
  IZR (round_half_even x) - 1 / 2 <= x <= IZR (round_half_even x) + 1 / 2.
Proof.
  unfold round_half_even.
  destruct (base_Int_part x) as [Hlo Hhi].
  destruct (Rltb (x - IZR (Int_part x)) (1 / 2)) eqn:E1.
  - apply Rltb_lt in E1. lra.
  - apply Rltb_ge in E1.
    destruct (Rltb (1 / 2) (x - IZR (Int_part x))) eqn:E2.
    + rewrite plus_IZR. lra.
    + apply Rltb_ge in E2.
      destruct (Z.even (Int_part x)); [| rewrite plus_IZR]; lra.
Qed.

(** A value strictly within one half of an integer rounds to it. *)
Lemma round_half_even_unique (x : R) (n : Z) :
  IZR n - 1 / 2 < x < IZR n + 1 / 2 -> round_half_even x = n.
Proof.
  intros [Hlo Hhi].
  destruct (round_half_even_near_R x) as [Rlo Rhi].
  assert (H1 : (round_half_even x < n + 1)%Z).
  { apply lt_IZR. rewrite plus_IZR. lra. }
  assert (H2 : (n < round_half_even x + 1)%Z).
  { apply lt_IZR. rewrite plus_IZR. lra. }
  lia.
Qed.

Lemma py_round_2 (x : R) : py_round x 2 = IZR (round_half_even (x * 100)) / 100.
Proof.
  unfold py_round. replace (10 ^ 2) with 100 by (simpl; lra). reflexivity.
Qed.

(** Rounding the parts and rounding the sum differ by at most one unit in
    the last place. *)
Lemma py_round_2_sum (a b : R) :
  Rabs (py_round (a + b) 2 - (py_round a 2 + py_round b 2)) <= 0.01.
Proof.
  rewrite !py_round_2.
  set (A := round_half_even (a * 100)).
  set (B := round_half_even (b * 100)).
  set (C := round_half_even ((a + b) * 100)).
  destruct (round_half_even_near_R (a * 100)) as [A1 A2]. fold A in A1, A2.
  destruct (round_half_even_near_R (b * 100)) as [B1 B2]. fold B in B1, B2.
  destruct (round_half_even_near_R ((a + b) * 100)) as [C1 C2].
  fold C in C1, C2.
  assert (H1 : (C - (A + B) < 2)%Z).
  { apply lt_IZR. rewrite minus_IZR, plus_IZR. lra. }
  assert (H2 : (-2 < C - (A + B))%Z).
  { apply lt_IZR. rewrite minus_IZR, plus_IZR. lra. }
  assert (H3 : (-1 <= C - (A + B) <= 1)%Z) by lia.
  destruct H3 as [H3 H4]. apply IZR_le in H3, H4.
  rewrite minus_IZR, plus_IZR in H3, H4.
  apply Rabs_le. lra.
Qed.

End RealRounding.

(** ** gex_calculator.py: the per-strike rows *)

Section RowFacts.

Import GexCalculator.
Local Open Scope R_scope.

(** C4 (amended). Every row of the profile is built from one strike [k]:
    its call_gex, put_gex and net_gex are the two-decimal roundings of the
    unrounded call GEX, put GEX and their sum, each rounded on its own, so
    the stored net_gex differs from the stored call_gex plus the stored
    put_gex by at most 0.01. *)
Theorem row_net_gex_within_a_cent (calls puts : list Quote) (spot : R)
        (dte : Z) (risk_free_rate : R) (row : Row) :
  In row (gex_by_strike
            (calculate_gex_profile calls puts spot dte risk_free_rate)) ->
  (exists k,
      let c := raw_call_gex calls spot dte risk_free_rate k in
      let p := raw_put_gex puts spot dte risk_free_rate k in
      call_gex row = py_round c 2 /\
      put_gex row = py_round p 2 /\
      net_gex row = py_round (c + p) 2) /\
  Rabs (net_gex row - (call_gex row + put_gex row)) <= 0.01.
Proof.
  unfold calculate_gex_profile. cbn [gex_by_strike].
  intro Hin. apply in_map_iff in Hin. destruct Hin as [k [<- _]].
  unfold make_row. cbn [net_gex call_gex put_gex].
  split.
  - exists k. cbv zeta. repeat split; reflexivity.
  - apply py_round_2_sum.
Qed.

End RowFacts.

(** ** gex_calculator.py: a row whose rounded parts do not add up *)

Section RowCounterexample.

Import GexCalculator.
Local Open Scope R_scope.

Lemma PI_bounds : 3.1415926 < PI < 3.1415927.
Proof.
  pose proof (PI_2_3_7_ineq 3) as [Hlo Hhi].
  unfold sum_f_R0, tg_alt, PI_2_3_7_tg, Ratan_seq in Hlo, Hhi.
  simpl in Hlo, Hhi.
  split; lra.
Qed.

(** [exp (- x)] lies between [1 - x] and [1 / (1 + x)]. *)
Lemma exp_neg_bounds (x : R) : 0 <= x -> 1 - x <= exp (- x) <= / (1 + x).
Proof.
  intro Hx. split.
  - pose proof (exp_ineq1_le (- x)). lra.
  - rewrite exp_Ropp. apply Rinv_le_contravar; [lra |].
    apply exp_ineq1_le.
Qed.

Lemma sqrt_between (lo hi x : R) :
  0 <= lo -> 0 <= hi -> lo * lo < x -> x < hi * hi -> lo < sqrt x < hi.
Proof.
  intros Hlo Hhi H1 H2. split.
  - rewrite <- (sqrt_square lo Hlo). apply sqrt_lt_1_alt. nra.
  - rewrite <- (sqrt_square hi Hhi). apply sqrt_lt_1_alt. nra.
Qed.

Lemma atm_gamma_bounds :
  0.153940616 < black_scholes_gamma 100 100 (2 / 365) 0.05 0.35 < 0.153940632.
Proof.
  unfold black_scholes_gamma.
  rewrite (guard_false 0 (2 / 365) 0.35 100) by lra.
  cbv zeta.
  replace (100 / 100) with 1 by field. rewrite ln_1.
  set (sT := sqrt (2 / 365)).
  assert (HsT : 0 < sT) by (apply sqrt_lt_R0; lra).
  assert (HsT2 : sT * sT = 2 / 365) by (apply sqrt_sqrt; lra).
  set (d1 := (0 + (0.05 + 0.5 * 0.35 ^ 2) * (2 / 365)) / (0.35 * sT)).
  assert (Hd : d1 * d1 / 2 = 7921 / 28616000).
  { unfold d1. 
    replace ((0 + (0.05 + 0.5 * 0.35 ^ 2) * (2 / 365)) / (0.35 * sT) *
             ((0 + (0.05 + 0.5 * 0.35 ^ 2) * (2 / 365)) / (0.35 * sT)) / 2)
      with ((0 + (0.05 + 0.5 * 0.35 ^ 2) * (2 / 365))^2 / (0.35^2 * (sT * sT)) / 2)
      by (field; lra).
    rewrite HsT2. lra. }
  unfold norm_pdf.
  replace (- (d1 * d1) / 2) with (- (d1 * d1 / 2)) by field.
  rewrite Hd.
  destruct (exp_neg_bounds (7921 / 28616000)) as [E1 E2]; [lra |].
  set (E := exp (- (7921 / 28616000))) in *.
  set (s2 := sqrt (2 * PI)).
  assert (Hs2 : 0 < s2).
  { apply sqrt_lt_R0. pose proof PI_RGT_0. lra. }
  assert (HD : 0.1855489478 < s2 * sT < 0.1855489509).
  { unfold s2, sT. rewrite <- sqrt_mult by (pose proof PI_RGT_0; lra).
    pose proof PI_bounds as [P1 P2].
    apply sqrt_between; lra. }
  set (D := s2 * sT) in *.
  replace (100 * 0.35 * sT) with (35 * sT) by lra.
  replace (E / s2 / (35 * sT)) with (E / (35 * D))
    by (unfold D; field; lra).
  assert (HE2 : E <= 28616000 / 28623921).
  { eapply Rle_trans; [exact E2 |]. apply Req_le. field. }
  split.
  - apply Rlt_gt. 
    apply Rmult_lt_reg_r with (35 * D); [lra |].
    replace (E / (35 * D) * (35 * D)) with E by (field; lra).
    nra.
  - apply Rmult_lt_reg_r with (35 * D); [lra |].
    replace (E / (35 * D) * (35 * D)) with E by (field; lra).
    nra.
Qed.

Lemma Reqb_refl (x : R) : Reqb x x = true.
Proof. unfold Reqb. destruct (Req_dec_T x x); [reflexivity | contradiction]. Qed.

Lemma Rleb_false (x y : R) : y < x -> Rleb x y = false.
Proof. apply Rleb_gt. Qed.

Lemma Rltb_irrefl (x : R) : Rltb x x = false.
Proof. apply Rltb_ge. lra. Qed.

Lemma py_round_2_value (x : R) (n : Z) :
  IZR n - 1 / 2 < x * 100 < IZR n + 1 / 2 -> py_round x 2 = IZR n / 100.
Proof.
  intro H. rewrite py_round_2, (round_half_even_unique _ n H). reflexivity.
Qed.

Lemma two_dte_strikes :
  collect_strikes two_dte_puts (collect_strikes two_dte_calls []) = [100].
Proof.
  unfold collect_strikes, two_dte_puts, two_dte_calls, make_option, strike_of.
  cbn [fold_left strike get]. 
  rewrite (Rleb_false 100 0) by lra.
  cbn [add_strike]. rewrite Rltb_irrefl, Reqb_refl. reflexivity.
Qed.

Lemma two_dte_time : time_to_expiry 2 = 2 / 365.
Proof.
  unfold time_to_expiry. rewrite Rmax_left by lra. lra.
Qed.

Lemma two_dte_leg (oi : Z) :
  leg_oi [make_option 100 oi 0.35] 100 = oi /\
  leg_iv [make_option 100 oi 0.35] 100 = 0.35.
Proof.
  unfold leg_oi, leg_iv, leg_get, make_option, strike_of.
  cbn [fold_left strike get openInterest impliedVolatility].
  rewrite (Rleb_false 100 0) by lra. rewrite Reqb_refl.
  cbn [get openInterest impliedVolatility].
  split; [reflexivity | apply Rmax_left; lra].
Qed.

Lemma two_dte_row_values :
  map (fun row => (call_gex row, put_gex row, net_gex row))
      (gex_by_strike
         (calculate_gex_profile two_dte_calls two_dte_puts 100 2 0.05))
  = [(307881 / 100, -153941 / 100, 153941 / 100)].
Proof.
  unfold calculate_gex_profile. cbn [gex_by_strike].
  rewrite two_dte_strikes. cbn [map].
  unfold make_row. cbn [call_gex put_gex net_gex].
  unfold raw_call_gex, raw_put_gex, two_dte_calls, two_dte_puts.
  rewrite two_dte_time.
  destruct (two_dte_leg 2) as [-> ->]. destruct (two_dte_leg 1) as [-> ->].
  pose proof atm_gamma_bounds as [G1 G2].
  set (g := black_scholes_gamma 100 100 (2 / 365) 0.05 0.35) in *.
  unfold SHARES_PER_CONTRACT.
  rewrite (py_round_2_value (g * 2 * 100 * 100) 307881) by lra.
  rewrite (py_round_2_value (- g * 1 * 100 * 100) (-153941)) by lra.
  rewrite (py_round_2_value (g * 2 * 100 * 100 + - g * 1 * 100 * 100) 153941)
    by lra.
  repeat f_equal; lra.
Qed.

Lemma two_dte_row_breaks_exact_sum :
  ~ Forall (fun row => net_gex row = call_gex row + put_gex row)
      (gex_by_strike
         (calculate_gex_profile two_dte_calls two_dte_puts 100 2 0.05)).
Proof.
  intro H.
  pose proof two_dte_row_values as E.
  destruct (gex_by_strike _) as [| row rest]; [discriminate E |].
  cbn [map] in E. injection E as E1 E2 E3 _.
  apply Forall_inv in H. rewrite E1, E2, E3 in H. lra.
Qed.

End RowCounterexample.

Lemma row_net_gex_within_a_cent_witness :
  let row :=
    GexCalculator.make_row two_dte_calls two_dte_puts 100 2 0.05 100 in
  (Rabs (GexCalculator.net_gex row
         - (GexCalculator.call_gex row + GexCalculator.put_gex row))
   <= 0.01)%R.
Proof.
  apply (proj2 (row_net_gex_within_a_cent
                  two_dte_calls two_dte_puts 100 2 0.05 _ ltac:(
                    unfold GexCalculator.calculate_gex_profile;
                    cbn [GexCalculator.gex_by_strike];
                    rewrite two_dte_strikes; left; reflexivity))).
Defined.

(** ** gex_calculator.py: flip point and regime *)

Section FlipFacts.

Import GexCalculator GexAux.
Local Open Scope R_scope.

Lemma negative_product_opposite (g1 g2 : R) :
  g1 * g2 < 0 -> opposite_signed g1 g2.
Proof.
  intro H. unfold opposite_signed.
  destruct (Rlt_le_dec g1 0) as [H1 | H1];
    destruct (Rlt_le_dec 0 g2) as [H2 | H2]; try (left; split; assumption).
  - exfalso. nra.
  - exfalso. nra.
  - right. split; nra.
Qed.

Lemma no_sign_change_no_crossings (rows : list Row) :
  no_adjacent_sign_change rows -> crossings rows = [].
Proof.
  induction rows as [| r1 rows IH]; [reflexivity |].
  destruct rows as [| r2 rows]; [reflexivity |].
  intros [Hn Hrest].
  change (crossings (r1 :: r2 :: rows)) with
    (if Rltb (net_gex r1 * net_gex r2) 0
     then py_round (row_strike r1
                    + (row_strike r2 - row_strike r1) * Rabs (net_gex r1)
                      / (Rabs (net_gex r1) + Rabs (net_gex r2))) 2
          :: crossings (r2 :: rows)
     else crossings (r2 :: rows)).
  destruct (Rltb (net_gex r1 * net_gex r2) 0) eqn:E.
  - apply Rltb_lt, negative_product_opposite in E. contradiction.
  - apply IH, Hrest.
Qed.

Lemma no_sign_change_no_flip (rows : list Row) (spot : R) :
  no_adjacent_sign_change rows -> _find_gex_flip rows spot = None.
Proof.
  intro H. unfold _find_gex_flip.
  rewrite (no_sign_change_no_crossings rows H).
  destruct (length rows <? 2)%nat; reflexivity.
Qed.

End FlipFacts.

(** ** max_pain.py: OI walls *)

Section OiWallFacts.

Import MaxPain OiWalls.

Lemma insert_by_oi_In (x y : Q * Z) (l : list (Q * Z)) :
  In y (insert_by_oi x l) <-> y = x \/ In y l.
Proof.
  induction l as [| z l IH]; simpl.
  - split; intros [H | H]; auto.
  - destruct (snd x <? snd z)%Z; simpl; rewrite ?IH; split; intro H;
      intuition congruence.
Qed.

Lemma sort_by_oi_desc_In (y : Q * Z) (l : list (Q * Z)) :
  In y (sort_by_oi_desc l) <-> In y l.
Proof.
  induction l as [| x l IH]; simpl; [reflexivity |].
  rewrite insert_by_oi_In, IH. split; intros [H | H]; auto.
Qed.

Lemma insert_by_oi_sorted (x : Q * Z) (l : list (Q * Z)) :
  StronglySorted oi_desc l -> StronglySorted oi_desc (insert_by_oi x l).
Proof.
  induction 1 as [| z l Hs IH Hall]; simpl.
  - repeat constructor.
  - destruct (snd x <? snd z)%Z eqn:E.
    + apply Z.ltb_lt in E. constructor; [exact IH |].
      apply Forall_forall. intros y Hy. apply insert_by_oi_In in Hy.
      destruct Hy as [-> | Hy]; [unfold oi_desc; lia |].
      rewrite Forall_forall in Hall. apply Hall, Hy.
    + apply Z.ltb_ge in E. constructor; [constructor; assumption |].
      constructor; [unfold oi_desc; lia |].
      eapply Forall_impl; [| exact Hall].
      unfold oi_desc. intros a Ha. lia.
Qed.

Lemma sort_by_oi_desc_sorted (l : list (Q * Z)) :
  StronglySorted oi_desc (sort_by_oi_desc l).
Proof.
  induction l as [| x l IH]; simpl; [constructor |].
  apply insert_by_oi_sorted, IH.
Qed.

Lemma firstn_subset {A : Type} (n : nat) (l : list A) (x : A) :
  In x (firstn n l) -> In x l.
Proof.
  revert n. induction l as [| y l IH]; intros [| n]; simpl; try tauto.
  intros [H | H]; [left; exact H | right; apply (IH n), H].
Qed.

Lemma firstn_StronglySorted {A : Type} (R : A -> A -> Prop) (n : nat)
      (l : list A) :
  StronglySorted R l -> StronglySorted R (firstn n l).
Proof.
  intro Hs. revert n. induction Hs as [| x l Hs IH Hall]; intros [| n]; simpl;
    try constructor.
  - apply IH.
  - rewrite Forall_forall in *. intros y Hy. apply Hall.
    eapply firstn_subset; exact Hy.
Qed.

(** The sorted wall candidates of one side. *)
Lemma wall_of_sorted (cands : list (Q * Z)) :
  match sort_by_oi_desc cands with
  | [] => cands = []
  | w :: _ => In w cands /\ forall c, In c cands -> (snd c <= snd w)%Z
  end.
Proof.
  pose proof (sort_by_oi_desc_sorted cands) as Hs.
  pose proof (fun y => sort_by_oi_desc_In y cands) as Hin.
  destruct (sort_by_oi_desc cands) as [| w rest].
  - destruct cands as [| c cands]; [reflexivity |].
    exfalso. apply (Hin c). left. reflexivity.
  - split; [apply Hin; left; reflexivity |].
    intros c Hc. apply Hin in Hc. destruct Hc as [<- | Hc]; [lia |].
    inversion Hs as [| ? ? _ Hall]; subst.
    rewrite Forall_forall in Hall. apply (Hall c Hc).
Qed.

Lemma insert_by_oi_length (x : Q * Z) (l : list (Q * Z)) :
  length (insert_by_oi x l) = S (length l).
Proof.
  induction l as [| y l IH]; simpl; [reflexivity |].
  destruct (snd x <? snd y)%Z; simpl; [rewrite IH |]; reflexivity.
Qed.

Lemma sort_by_oi_desc_length (l : list (Q * Z)) :
  length (sort_by_oi_desc l) = length l.
Proof.
  induction l as [| x l IH]; simpl; [reflexivity |].
  rewrite insert_by_oi_length, IH. reflexivity.
Qed.

Lemma sorted_app_cross {A : Type} (R : A -> A -> Prop) (l1 l2 : list A) :
  StronglySorted R (l1 ++ l2) ->
  forall x y, In x l1 -> In y l2 -> R x y.
Proof.
  induction l1 as [| a l1 IH]; simpl; intros H x y Hx Hy; [destruct Hx |].
  inversion H as [| ? ? Hs Hall]; subst.
  destruct Hx as [<- | Hx].
  - rewrite Forall_forall in Hall. apply Hall, in_or_app. right. exact Hy.
  - apply (IH Hs x y Hx Hy).
Qed.

(** What the top list of one side holds: the first five of the side's
    candidates by descending open interest. *)
Lemma top_walls_of_side (f : Quote -> bool) (leg : list Quote) :
  let cands := leg_data (filter f leg) in
  let top := firstn 5 (sort_by_oi_desc cands) in
  length top = Nat.min 5 (length (filter f leg)) /\
  (forall x, In x top ->
     exists c, In c leg /\ f c = true /\
               x = (strike c, get (openInterest c) 0%Z)) /\
  (forall c, In c leg -> f c = true ->
     In (strike c, get (openInterest c) 0%Z) top \/
     forall x, In x top -> (get (openInterest c) 0%Z <= snd x)%Z).
Proof.
  intros cands top.
  assert (Hin : forall y, In y (sort_by_oi_desc cands) <-> In y cands)
    by (intro y; apply sort_by_oi_desc_In).
  split; [| split].
  - unfold top. rewrite length_firstn, sort_by_oi_desc_length.
    unfold cands, leg_data. rewrite length_map. reflexivity.
  - intros x Hx. apply firstn_subset, Hin in Hx.
    unfold cands, leg_data in Hx. apply in_map_iff in Hx.
    destruct Hx as (c & <- & Hc). apply filter_In in Hc.
    exists c. repeat split; tauto.
  - intros c Hc Hf.
    assert (Hp : In (strike c, get (openInterest c) 0%Z)
                   (sort_by_oi_desc cands)).
    { apply Hin. unfold cands, leg_data.
      apply (in_map (fun c => (strike c, get (openInterest c) 0%Z))).
      apply filter_In. split; assumption. }
    rewrite <- (firstn_skipn 5 (sort_by_oi_desc cands)) in Hp.
    apply in_app_or in Hp. destruct Hp as [Hp | Hp]; [left; exact Hp |].
    right. intros x Hx.
    pose proof (sort_by_oi_desc_sorted cands) as Hs.
    rewrite <- (firstn_skipn 5 (sort_by_oi_desc cands)) in Hs.
    apply (sorted_app_cross oi_desc _ _ Hs x _ Hx Hp).
Qed.

(** The call wall is the sentinel (0, 0) exactly when no call is struck
    above spot; otherwise it is a call above spot carrying the largest
    open interest of all calls above spot.  The put wall is the same below
    spot.  Each top list holds the first five quotes of its side by
    descending open interest: its entries are quotes of that side, there
    are five of them or as many as the side has, every quote of the side
    left out carries no more open interest than any entry, and the list
    is headed by the wall itself. *)
Theorem find_oi_walls_spec (calls puts : list Quote) (spot : Q) :
  let w := find_oi_walls calls puts spot in
  let above := filter (fun c => Qltb spot (strike c)) calls in
  let below := filter (fun p => Qltb (strike p) spot) puts in
  (above = [] -> call_wall w = (0, 0%Z)) /\
  (above <> [] ->
   spot < fst (call_wall w) /\
   In (call_wall w) (leg_data calls) /\
   forall c, In c calls -> spot < strike c ->
             (get (openInterest c) 0%Z <= snd (call_wall w))%Z) /\
  (below = [] -> put_wall w = (0, 0%Z)) /\
  (below <> [] ->
   fst (put_wall w) < spot /\
   In (put_wall w) (leg_data puts) /\
   forall p, In p puts -> strike p < spot ->
             (get (openInterest p) 0%Z <= snd (put_wall w))%Z) /\
  (length (top_call_walls w) <= 5)%nat /\
  (length (top_put_walls w) <= 5)%nat /\
  StronglySorted oi_desc (top_call_walls w) /\
  StronglySorted oi_desc (top_put_walls w) /\
  hd (0, 0%Z) (top_call_walls w) = call_wall w /\
  hd (0, 0%Z) (top_put_walls w) = put_wall w /\
  length (top_call_walls w) = Nat.min 5 (length above) /\
  length (top_put_walls w) = Nat.min 5 (length below) /\
  (forall x, In x (top_call_walls w) ->
     spot < fst x /\
     exists c, In c calls /\ x = (strike c, get (openInterest c) 0%Z)) /\
  (forall x, In x (top_put_walls w) ->
     fst x < spot /\
     exists p, In p puts /\ x = (strike p, get (openInterest p) 0%Z)) /\
  (forall c, In c calls -> spot < strike c ->
     In (strike c, get (openInterest c) 0%Z) (top_call_walls w) \/
     forall x, In x (top_call_walls w) ->
               (get (openInterest c) 0%Z <= snd x)%Z) /\
  (forall p, In p puts -> strike p < spot ->
     In (strike p, get (openInterest p) 0%Z) (top_put_walls w) \/
     forall x, In x (top_put_walls w) ->
               (get (openInterest p) 0%Z <= snd x)%Z).
Proof.
  intros w above below. subst w. unfold find_oi_walls.
  cbn [call_wall put_wall top_call_walls top_put_walls].
  fold above. fold below.
  pose proof (wall_of_sorted (leg_data above)) as Ha.
  pose proof (wall_of_sorted (leg_data below)) as Hb.
  pose proof (sort_by_oi_desc_sorted (leg_data above)) as Sa.
  pose proof (sort_by_oi_desc_sorted (leg_data below)) as Sb.
  destruct (top_walls_of_side (fun c => Qltb spot (strike c)) calls)
    as (La & Ma & Ta).
  destruct (top_walls_of_side (fun p => Qltb (strike p) spot) puts)
    as (Lb & Mb & Tb).
  fold above in La, Ma, Ta. fold below in Lb, Mb, Tb.
  assert (Hmem : forall (f : Quote -> bool) (leg : list Quote) (x : Q * Z),
             In x (leg_data (filter f leg)) ->
             In x (leg_data leg) /\
             exists c, In c leg /\ f c = true /\ fst x = strike c).
  { intros f leg x Hx. unfold leg_data in Hx |- *.
    apply in_map_iff in Hx. destruct Hx as [c [<- Hc]].
    apply filter_In in Hc. destruct Hc as [Hc Hf].
    split; [apply in_map_iff; exists c; split; [reflexivity | exact Hc] |].
    exists c. auto. }
  split; [intros ->; reflexivity |].
  split.
  { intro Hne.
    destruct (sort_by_oi_desc (leg_data above)) as [| x rest].
    - destruct above; [contradiction | discriminate Ha].
    - destruct Ha as [Hx Hmax].
      destruct (Hmem _ _ _ Hx) as [Hx' [c [_ [Hf E]]]].
      split; [simpl; rewrite E; apply Qltb_lt, Hf |].
      split; [exact Hx' |].
      intros c' Hc' Hs. simpl.
      apply (Hmax (strike c', get (openInterest c') 0%Z)).
      unfold leg_data.
      apply (in_map (fun c => (strike c, get (openInterest c) 0%Z))).
      apply filter_In. split; [exact Hc' | apply Qltb_lt; exact Hs]. }
  split; [intros ->; reflexivity |].
  split.
  { intro Hne.
    destruct (sort_by_oi_desc (leg_data below)) as [| x rest].
    - destruct below; [contradiction | discriminate Hb].
    - destruct Hb as [Hx Hmax].
      destruct (Hmem _ _ _ Hx) as [Hx' [c [_ [Hf E]]]].
      split; [simpl; rewrite E; apply Qltb_lt, Hf |].
      split; [exact Hx' |].
      intros c' Hc' Hs. simpl.
      apply (Hmax (strike c', get (openInterest c') 0%Z)).
      unfold leg_data.
      apply (in_map (fun c => (strike c, get (openInterest c) 0%Z))).
      apply filter_In. split; [exact Hc' | apply Qltb_lt; exact Hs]. }
  split; [apply firstn_le_length |].
  split; [apply firstn_le_length |].
  split; [apply firstn_StronglySorted, Sa |].
  split; [apply firstn_StronglySorted, Sb |].
  split; [destruct (sort_by_oi_desc (leg_data above)); reflexivity |].
  split; [destruct (sort_by_oi_desc (leg_data below)); reflexivity |].
  split; [exact La |]. split; [exact Lb |].
  split.
  { intros x Hx. destruct (Ma x Hx) as (c & Hc & Hf & ->).
    split; [apply Qltb_lt, Hf |]. exists c. split; [exact Hc | reflexivity]. }
  split.
  { intros x Hx. destruct (Mb x Hx) as (c & Hc & Hf & ->).
    split; [apply Qltb_lt, Hf |]. exists c. split; [exact Hc | reflexivity]. }
  split.
  - intros c Hc Hs. apply Ta; [exact Hc | apply Qltb_lt, Hs].
  - intros c Hc Hs. apply Tb; [exact Hc | apply Qltb_lt, Hs].
Qed.

End OiWallFacts.

Lemma find_oi_walls_spec_witness :
  98 < fst (OiWalls.call_wall (OiWalls.find_oi_walls three_strikes three_strikes 98))
  /\ OiWalls.put_wall (OiWalls.find_oi_walls three_strikes three_strikes 90)
     = (0, 0%Z).
Proof.
  pose proof (find_oi_walls_spec three_strikes three_strikes 98) as H98.
  pose proof (find_oi_walls_spec three_strikes three_strikes 90) as H90.
  cbv zeta in H98, H90.
  destruct H98 as [_ [Hcall _]].
  destruct H90 as [_ [_ [Hput _]]].
  split.
  - apply Hcall. vm_compute. discriminate.
  - apply Hput. vm_compute. reflexivity.
Defined.

(** ** max_pain.py: the pain table *)

Section PainTableFacts.

Import MaxPain MaxPainAux.

Lemma py_round_nonneg (x : Q) (n : nat) : 0 <= x -> 0 <= py_round x n.
Proof.
  intro Hx. unfold py_round.
  pose proof (pow10_pos n) as Hm.
  assert (Hlo : (0 <= round_half_even (x * inject_Z (10 ^ Z.of_nat n)))%Z).
  { rewrite <- (round_half_even_Z 0). apply round_half_even_mono.
    change (inject_Z 0) with 0. nra. }
  rewrite Zle_Qle in Hlo. change (inject_Z 0) with 0 in Hlo.
  apply Qle_shift_div_l; [exact Hm | lra].
Qed.

Lemma sumQ_nonneg (l : list Q) : Forall (fun x => 0 <= x) l -> 0 <= sumQ l.
Proof.
  induction 1 as [| x l Hx _ IH]; simpl; lra.
Qed.

Lemma inject_Z_nonneg (z : Z) : (0 <= z)%Z -> 0 <= inject_Z z.
Proof. intro H. rewrite Zle_Qle in H. exact H. Qed.

Lemma total_pain_nonneg (calls puts : list Quote) (t : Q) :
  (forall c, In c (calls ++ puts) -> (0 <= get (openInterest c) 0%Z)%Z) ->
  0 <= total_pain (leg_data calls) (leg_data puts) t.
Proof.
  intro Hoi. rewrite total_pain_sum.
  assert (Hcs : 0 <= sumQ (map (call_term t) (leg_data calls))).
  { apply sumQ_nonneg, Forall_map, Forall_map, Forall_forall.
    intros c Hc. unfold call_term. cbn [fst snd].
    destruct (Qltb (strike c) t) eqn:E; [| lra].
    apply Qltb_lt in E.
    pose proof (inject_Z_nonneg _ (Hoi c (in_or_app _ _ _ (or_introl Hc)))).
    nra. }
  assert (Hps : 0 <= sumQ (map (put_term t) (leg_data puts))).
  { apply sumQ_nonneg, Forall_map, Forall_map, Forall_forall.
    intros c Hc. unfold put_term. cbn [fst snd].
    destruct (Qltb t (strike c)) eqn:E; [| lra].
    apply Qltb_lt in E.
    pose proof (inject_Z_nonneg _ (Hoi c (in_or_app _ _ _ (or_intror Hc)))).
    nra. }
  lra.
Qed.

Lemma pain_by_strike_unfold (calls puts : list Quote) :
  pain_by_strike (calculate_max_pain calls puts)
  = map (entry_of calls puts) (sorted_strikes calls puts).
Proof.
  rewrite calculate_max_pain_unfold.
  destruct (sorted_strikes calls puts); reflexivity.
Qed.

(** The pain table lists every distinct input strike once, in strictly
    increasing order, and nothing else; with no negative open interest no
    reported pain is negative; an empty chain gives max pain 0 and an empty
    table. *)
Theorem pain_by_strike_table (calls puts : list Quote) :
  let r := calculate_max_pain calls puts in
  StronglySorted Qlt (map pe_strike (pain_by_strike r)) /\
  (forall c, In c (calls ++ puts) ->
             exists e, In e (pain_by_strike r) /\ pe_strike e == strike c) /\
  (forall e, In e (pain_by_strike r) ->
             In (pe_strike e) (map strike (calls ++ puts))) /\
  ((forall c, In c (calls ++ puts) -> (0 <= get (openInterest c) 0%Z)%Z) ->
   forall e, In e (pain_by_strike r) -> 0 <= pe_total_pain e) /\
  (calls ++ puts = [] ->
   max_pain r = 0 /\ max_pain_value r = None /\ pain_by_strike r = []).
Proof.
  intro r. subst r. rewrite pain_by_strike_unfold.
  assert (Hmap : map pe_strike (map (entry_of calls puts)
                                    (sorted_strikes calls puts))
                 = sorted_strikes calls puts).
  { rewrite map_map. apply map_id. }
  repeat split.
  - rewrite Hmap. apply Sorted_StronglySorted.
    + intros a b c. apply Qlt_trans.
    + apply sorted_strikes_Sorted.
  - intros c Hc.
    assert (H : InA Qeq (strike c) (sorted_strikes calls puts)).
    { apply sorted_strikes_InA, InA_alt. exists (strike c).
      split; [reflexivity | apply in_map; exact Hc]. }
    apply InA_alt in H. destruct H as [s [E Hs]].
    exists (entry_of calls puts s). split; [apply in_map; exact Hs |].
    simpl. symmetry. exact E.
  - intros e He. apply in_map_iff in He. destruct He as [s [<- Hs]].
    simpl. apply sorted_strikes_In, Hs.
  - intros Hoi e He. apply in_map_iff in He. destruct He as [s [<- Hs]].
    simpl. apply py_round_nonneg, total_pain_nonneg, Hoi.
  - apply app_eq_nil in H. destruct H as [-> ->]. reflexivity.
  - apply app_eq_nil in H. destruct H as [-> ->]. reflexivity.
  - apply app_eq_nil in H. destruct H as [-> ->]. reflexivity.
Qed.

End PainTableFacts.

Lemma pain_by_strike_table_witness :
  Forall (fun e => 0 <= MaxPain.pe_total_pain e)
         (MaxPain.pain_by_strike
            (MaxPain.calculate_max_pain three_strikes three_strikes)).
Proof.
  apply Forall_forall.
  apply (pain_by_strike_table three_strikes three_strikes).
  intros c Hc. simpl in Hc.
  repeat (destruct Hc as [<- | Hc]; [simpl; lia |]). contradiction.
Defined.

(** ** gamma_channel.py: where the levels come from *)

Section ChannelLevelFacts.

Import GammaChannel.

Lemma initial_floor_member (gex : list Row) (spot max_gex ft f : Q) :
  initial_floor gex spot max_gex ft = Some f -> In f (map strike gex).
Proof.
  unfold initial_floor.
  destruct (py_max (fun x => x) _) as [v |] eqn:E.
  - intro H. injection H as <-.
    apply py_max_In, in_map_iff in E. destruct E as [s [<- Hs]].
    apply filter_In in Hs. apply in_map, Hs.
  - destruct (py_max (fun s => Qabs (net_gex s)) _) as [s |] eqn:E';
      simpl; intro H; [| discriminate].
    injection H as <-.
    apply py_max_In, filter_In in E'. apply in_map, E'.
Qed.

Lemma initial_ceiling_member (gex : list Row) (spot max_gex ct c : Q) :
  initial_ceiling gex spot max_gex ct = Some c -> In c (map strike gex).
Proof.
  unfold initial_ceiling.
  destruct (py_min (fun x => x) _) as [v |] eqn:E.
  - intro H. injection H as <-.
    apply py_min_In, in_map_iff in E. destruct E as [s [<- Hs]].
    apply filter_In in Hs. apply in_map, Hs.
  - destruct (py_min (fun s => Qabs (net_gex s)) _) as [s |] eqn:E';
      simpl; intro H; [| discriminate].
    injection H as <-.
    apply py_min_In, filter_In in E'. apply in_map, E'.
Qed.

Lemma _widen_channel_member (gex : list Row)
      (spot f c max_gex mw : Q) :
  In f (map strike gex) -> In c (map strike gex) ->
  In (fst (_widen_channel gex spot f c max_gex mw)) (map strike gex) /\
  In (snd (_widen_channel gex spot f c max_gex mw)) (map strike gex).
Proof.
  intros Hf Hc. unfold _widen_channel. simpl. split.
  - match goal with |- In (widen_scan ?far f ?cands) _ =>
      destruct (widen_scan_cases far cands f) as [E | [s [Hin E]]]
    end; rewrite E; [exact Hf |].
    apply sorted_rows_In, filter_In in Hin. apply in_map, Hin.
  - match goal with |- In (widen_scan ?far c ?cands) _ =>
      destruct (widen_scan_cases far cands c) as [E | [s [Hin E]]]
    end; rewrite E; [exact Hc |].
    apply sorted_rows_In, filter_In in Hin. apply in_map, Hin.
Qed.

Lemma widen_if_degenerate_member (gex : list Row) (spot max_gex mw : Q)
      (f0 c0 : option Q) (d : bool) (f1 c1 : option Q) :
  widen_if_degenerate gex spot max_gex mw f0 c0 = (d, f1, c1) ->
  (forall f, f0 = Some f -> In f (map strike gex)) ->
  (forall c, c0 = Some c -> In c (map strike gex)) ->
  (forall f, f1 = Some f -> In f (map strike gex)) /\
  (forall c, c1 = Some c -> In c (map strike gex)).
Proof.
  unfold widen_if_degenerate. intros H Hf Hc.
  destruct f0 as [f' |], c0 as [c' |];
    try (injection H as <- <- <-; split; assumption).
  destruct (truthy (Some f') && truthy (Some c') && _).
  - pose proof (_widen_channel_member gex spot f' c' max_gex mw
                  (Hf f' eq_refl) (Hc c' eq_refl)) as [Mf Mc].
    destruct (_widen_channel gex spot f' c' max_gex mw) as [nf nc].
    simpl in Mf, Mc. injection H as <- <- <-.
    split; intros x Hx; injection Hx as <-; assumption.
  - injection H as <- <- <-. split; assumption.
Qed.

Lemma py_max_all_zero (l : list Q) (m : Q) :
  Forall (fun x => x == 0) l -> py_max (fun x => x) l = Some m -> m == 0.
Proof.
  intros Hall H. apply py_max_In in H.
  rewrite Forall_forall in Hall. apply Hall, H.
Qed.

(** An empty profile, a spot at or below zero, or a profile whose net GEX
    is zero at every strike gives the empty channel.  Otherwise every
    level that is returned, also after widening, is a strike of the
    profile. *)
Theorem extract_channel_levels (gex : list Row) (spot ft ct mw : Q) :
  (gex = [] \/ spot <= 0 \/ Forall (fun s => net_gex s == 0) gex ->
   extract_channel gex spot ft ct mw = _empty_channel) /\
  (forall f, floor (extract_channel gex spot ft ct mw) = Some f ->
             In f (map strike gex)) /\
  (forall c, ceiling (extract_channel gex spot ft ct mw) = Some c ->
             In c (map strike gex)).
Proof.
  split.
  - intros [-> | [Hs | Hz]]; [reflexivity | |].
    + unfold extract_channel. destruct gex; [reflexivity |].
      apply Qle_bool_iff in Hs. rewrite Hs. reflexivity.
    + unfold extract_channel. destruct gex as [| g0 gex']; [reflexivity |].
      remember (g0 :: gex') as rows eqn:Erows. clear Erows g0 gex'.
      destruct (Qle_bool spot 0); [reflexivity |].
      destruct (py_max (fun x => x) _) as [max_gex |] eqn:E; [| reflexivity].
      assert (Hm : max_gex == 0).
      { apply (py_max_all_zero (map (fun s => Qabs (net_gex s)) rows) max_gex);
          [| exact E].
        apply Forall_map. eapply Forall_impl; [| exact Hz].
        simpl. intros a Ha. rewrite Ha. reflexivity. }
      assert (Hle : Qle_bool max_gex 0 = true)
        by (apply Qle_bool_iff; lra).
      rewrite Hle. reflexivity.
  - unfold extract_channel.
    destruct gex as [| g0 gex']; [split; discriminate |].
    remember (g0 :: gex') as rows eqn:Erows. clear Erows g0 gex'.
    destruct (Qle_bool spot 0); [split; discriminate |].
    destruct (py_max (fun x => x) _) as [max_gex |]; [| split; discriminate].
    destruct (Qle_bool max_gex 0); [split; discriminate |].
    cbv zeta.
    destruct (widen_if_degenerate rows spot max_gex mw
                (initial_floor rows spot max_gex ft)
                (initial_ceiling rows spot max_gex ct)) as [[d f1] c1] eqn:EW.
    destruct (widen_if_degenerate_member _ _ _ _ _ _ _ _ _ EW
                (initial_floor_member rows spot max_gex ft)
                (initial_ceiling_member rows spot max_gex ct)) as [Wf Wc].
    unfold build_channel. cbn [floor ceiling]. split; assumption.
Qed.

End ChannelLevelFacts.

Lemma extract_channel_levels_witness :
  GammaChannel.extract_channel narrow_profile 0 0.15 0.15 1.0
  = GammaChannel._empty_channel
  /\ In 95 (map GammaChannel.strike narrow_profile).
Proof.
  split.
  - apply (proj1 (extract_channel_levels narrow_profile 0 0.15 0.15 1.0)).
    right. left. lra.
  - apply (proj1 (proj2 (extract_channel_levels narrow_profile 100 0.15 0.15 2.0))).
    vm_compute. reflexivity.
Defined.

(** ** gamma_channel.py: the channel strategy *)

Section ChannelStrategyFacts.

Import GammaChannel ChannelStrategy.
Open Scope string_scope.

(** The strategy fixes the edge type: the three with-dealer strategies go
    with WITH_DEALER, BREAKOUT_CHANNEL with AGAINST_DEALER,
    TRANSITION_WATCH with TRANSITIONAL, NO_CHANNEL and WAIT with NEUTRAL.
    A with-dealer strategy is issued exactly when floor, ceiling and width
    are all truthy (set and not zero), the regime is POSITIVE_GAMMA or
    LONG_GAMMA, and the flow is laminar by label or by a ratio below 0.7,
    whatever the Reynolds label says otherwise. *)
Theorem channel_strategy_consistent (ch : Channel)
        (regime reynolds_regime : string) (re_gamma : Q) :
  let r := channel_strategy ch regime reynolds_regime re_gamma in
  channel r = ch /\
  (edge_type r =
   if with_dealer_strategy (strategy r) then "WITH_DEALER"
   else if strategy r =? "BREAKOUT_CHANNEL" then "AGAINST_DEALER"
   else if strategy r =? "TRANSITION_WATCH" then "TRANSITIONAL"
   else "NEUTRAL") /\
  (with_dealer_strategy (strategy r) =
   truthy (floor ch) && truthy (ceiling ch) && truthy (width_pct ch)
   && ((regime =? "POSITIVE_GAMMA") || (regime =? "LONG_GAMMA"))
   && ((reynolds_regime =? "LAMINAR") || Qltb re_gamma 0.7)).
Proof.
  intro r. subst r. unfold channel_strategy.
  destruct (truthy (floor ch)); [| repeat split; reflexivity].
  destruct (truthy (ceiling ch)); [| repeat split; reflexivity].
  destruct (truthy (width_pct ch)); [| repeat split; reflexivity].
  cbn [negb orb andb].
  destruct ((regime =? "POSITIVE_GAMMA") || (regime =? "LONG_GAMMA"));
    destruct ((reynolds_regime =? "LAMINAR") || Qltb re_gamma 0.7);
    cbn [andb];
    destruct (degenerate ch);
    destruct (channel_position ch) as [p |];
    try destruct (Qltb p 0.25); try destruct (Qltb 0.75 p);
    destruct ((reynolds_regime =? "TURBULENT") || Qltb 1.0 re_gamma);
    destruct (reynolds_regime =? "TRANSITIONAL");
    repeat split; reflexivity.
Qed.

End ChannelStrategyFacts.

(** ** acf_engine.py: an alternating series, exactly *)

Section AlternatingExact.

Import AcfEngine AcfSeries.

Lemma div2_split (n : nat) : (Nat.div2 (S n) + Nat.div2 n = n)%nat.
Proof.
  induction n as [n IH] using (well_founded_induction lt_wf).
  destruct n as [| [| n]]; [reflexivity | reflexivity |].
  change (Nat.div2 (S (S (S n)))) with (S (Nat.div2 (S n))).
  change (Nat.div2 (S (S n))) with (S (Nat.div2 n)).
  pose proof (IH n ltac:(lia)). lia.
Qed.

Lemma np_sum_alternating (x y : Q) (n : nat) :
  np_sum (alternating x y n)
  == inject_Z (Z.of_nat (Nat.div2 (S n))) * x
     + inject_Z (Z.of_nat (Nat.div2 n)) * y.
Proof.
  revert x y. induction n as [| n IH]; intros x y.
  - simpl. change (inject_Z (Z.of_nat 0)) with 0. ring.
  - change (np_sum (alternating x y (S n)))
      with (x + np_sum (alternating y x n)).
    rewrite IH.
    change (Nat.div2 (S (S n))) with (S (Nat.div2 n)).
    rewrite inject_nat_S. ring.
Qed.

(** Lag-1 autocorrelation of at least two alternating values whose
    variance is not zero. *)
Lemma acf_lag1_alternating_exact (u v : Q) (k : nat) :
  let returns := alternating u v (S (S k)) in
  0 < np_var returns ->
  acf_at returns (np_mean returns) (np_var returns) 1 == - (1).
Proof.
  intros returns Hvar.
  set (n := S (S k)) in *.
  set (A := inject_Z (Z.of_nat (Nat.div2 (S n)))).
  set (B := inject_Z (Z.of_nat (Nat.div2 n))).
  set (N := inject_Z (Z.of_nat n)).
  assert (HN : N == A + B).
  { unfold N, A, B. rewrite <- inject_Z_plus, <- Nat2Z.inj_add, div2_split.
    reflexivity. }
  assert (HNpos : 0 < N) by (apply inject_nat_pos; unfold n; lia).
  assert (Hm : np_mean returns == (A * u + B * v) / N).
  { unfold np_mean, returns. rewrite alternating_length, np_sum_alternating.
    reflexivity. }
  set (m := np_mean returns) in *.
  assert (Hv : np_var returns
               == (A * ((u - m) * (u - m)) + B * ((v - m) * (v - m))) / N).
  { unfold np_var. cbv zeta. change (np_mean returns) with m.
    unfold returns. rewrite alternating_map. unfold np_mean.
    rewrite alternating_length, np_sum_alternating. reflexivity. }
  (* the lag-1 product mean *)
  assert (Hc : acf_at returns m (np_var returns) 1
               == (u - m) * (v - m) / np_var returns).
  { unfold acf_at, returns, n. rewrite alternating_length.
    replace (S (S k) - 1)%nat with (S k) by lia.
    rewrite alternating_firstn.
    change (skipn 1 (alternating u v (S (S k)))) with (alternating v u (S k)).
    rewrite !alternating_map.
    assert (Hmean : np_mean (np_mul (alternating (u - m) (v - m) (S k))
                                    (alternating (v - m) (u - m) (S k)))
                    == (u - m) * (v - m)).
    { apply np_mean_all_eq; [discriminate | apply np_mul_alternating]. }
    rewrite Hmean. reflexivity. }
  rewrite Hc.
  assert (Hum : u - m == B * (u - v) / N).
  { rewrite Hm, HN. field. lra. }
  assert (Hvm : v - m == - (A * (u - v)) / N).
  { rewrite Hm, HN. field. lra. }
  assert (Hv' : np_var returns == A * B * ((u - v) * (u - v)) / (N * N)).
  { rewrite Hv, Hum, Hvm, HN. field. lra. }
  assert (Hp : (u - m) * (v - m) == - np_var returns).
  { rewrite Hv', Hum, Hvm. field. lra. }
  rewrite Hp. field. lra.
Qed.

(** An exactly alternating price series that passes the length guard and
    whose returns have a variance of at least 1e-12 has, in exact
    arithmetic, lag-1 autocorrelation -1, and [classify_regime] reads it
    as LONG_GAMMA. *)
Theorem alternating_series_long_gamma (a b : Q) (n max_lag : nat) :
  let prices := alternating a b n in
  0 < a -> 0 < b ->
  (1 <= max_lag)%nat ->
  (max_lag + 10 <= length (pct_change prices))%nat ->
  (1 # 1000000000000) <= np_var (pct_change prices) ->
  exists lag1 rest,
    compute_daily_acf prices max_lag = Some (lag1 :: rest)
    /\ lag1 == - (1)
    /\ classify_regime lag1 = "LONG_GAMMA"%string.
Proof.
  intros prices _ _ Hlag Hlen Hvar.
  rewrite (compute_daily_acf_defined prices max_lag Hlen Hvar).
  destruct max_lag as [| max_lag]; [lia |].
  cbn [seq map]. eexists. eexists. split; [reflexivity |].
  subst prices.
  destruct n as [| n]; [simpl in Hlen; lia |].
  rewrite pct_change_alternating in *.
  rewrite alternating_length in Hlen.
  destruct n as [| [| k]]; [lia | lia |].
  assert (Hpos : 0 < np_var (alternating (b / a - 1) (a / b - 1) (S (S k)))).
  { eapply Qlt_le_trans; [| exact Hvar]. reflexivity. }
  pose proof (acf_lag1_alternating_exact _ _ k Hpos) as E.
  cbv zeta in E. split; [exact E |].
  unfold classify_regime.
  assert (F : Qltb (acf_at (alternating (b / a - 1) (a / b - 1) (S (S k)))
                      (np_mean (alternating (b / a - 1) (a / b - 1) (S (S k))))
                      (np_var (alternating (b / a - 1) (a / b - 1) (S (S k))))
                      1) (-0.05) = true).
  { apply Qltb_lt. rewrite E. reflexivity. }
  rewrite F. reflexivity.
Qed.

End AlternatingExact.

Lemma alternating_series_long_gamma_witness :
  exists lag1 rest,
    AcfEngine.compute_daily_acf (AcfSeries.alternating 2 1 16) 5
    = Some (lag1 :: rest)
    /\ lag1 == - (1)
    /\ AcfEngine.classify_regime lag1 = "LONG_GAMMA"%string.
Proof.
  apply (alternating_series_long_gamma 2 1 16%nat 5%nat).
  - reflexivity.
  - reflexivity.
  - lia.
  - vm_compute. lia.
  - apply Qle_bool_iff. vm_compute. reflexivity.
Defined.

(** ** acf_engine.py: how large an autocorrelation can get *)

Section AcfBound.

Import AcfEngine AcfSeries AcfAux.

Lemma sum_squares_nonneg (xs : list Q) : 0 <= sum_squares xs.
Proof.
  unfold sum_squares. induction xs as [| x xs IH]; simpl; [lra |].
  pose proof (Qsquare_nonneg x). fold (np_sum (map (fun x => x * x) xs)). lra.
Qed.

Lemma sum_squares_app (xs ys : list Q) :
  sum_squares (xs ++ ys) == sum_squares xs + sum_squares ys.
Proof.
  unfold sum_squares. induction xs as [| x xs IH]; simpl; [ring |].
  fold (np_sum (map (fun x => x * x) (xs ++ ys))).
  fold (np_sum (map (fun x => x * x) xs)). rewrite IH. ring.
Qed.

Lemma sum_squares_firstn (k : nat) (xs : list Q) :
  sum_squares (firstn k xs) <= sum_squares xs.
Proof.
  rewrite <- (firstn_skipn k xs) at 2. rewrite sum_squares_app.
  pose proof (sum_squares_nonneg (skipn k xs)). lra.
Qed.

Lemma sum_squares_skipn (k : nat) (xs : list Q) :
  sum_squares (skipn k xs) <= sum_squares xs.
Proof.
  rewrite <- (firstn_skipn k xs) at 2. rewrite sum_squares_app.
  pose proof (sum_squares_nonneg (firstn k xs)). lra.
Qed.

(** Twice a sum of products is bounded by the two sums of squares. *)
Lemma np_mul_sum_bound (xs ys : list Q) :
  - (sum_squares xs + sum_squares ys) <= 2 * np_sum (np_mul xs ys) /\
  2 * np_sum (np_mul xs ys) <= sum_squares xs + sum_squares ys.
Proof.
  revert ys. induction xs as [| x xs IH]; intros ys.
  - pose proof (sum_squares_nonneg ys).
    change (np_sum (np_mul [] ys)) with 0.
    change (sum_squares []) with 0. split; lra.
  - destruct ys as [| y ys].
    + pose proof (sum_squares_nonneg (x :: xs)).
      change (np_sum (np_mul (x :: xs) [])) with 0.
      change (sum_squares []) with 0. split; lra.
    + change (np_sum (np_mul (x :: xs) (y :: ys)))
        with (x * y + np_sum (np_mul xs ys)).
      change (sum_squares (x :: xs)) with (x * x + sum_squares xs).
      change (sum_squares (y :: ys)) with (y * y + sum_squares ys).
      destruct (IH ys) as [H1 H2].
      pose proof (Qsquare_nonneg (x - y)).
      pose proof (Qsquare_nonneg (x + y)).
      split; lra.
Qed.

Lemma np_var_sum_squares (xs : list Q) :
  xs <> [] ->
  sum_squares (map (fun x => x - np_mean xs) xs)
  == inject_Z (Z.of_nat (length xs)) * np_var xs.
Proof.
  intro Hne. set (m := np_mean xs).
  unfold sum_squares, np_var. cbv zeta. fold m. rewrite map_map.
  unfold np_mean. rewrite length_map. field.
  assert (0 < inject_Z (Z.of_nat (length xs))).
  { apply inject_nat_pos. destruct xs; [congruence | simpl; lia]. }
  lra.
Qed.

(** The autocorrelation at lag [k] of [n] returns of positive variance is
    at most [n / (n - k)] in absolute value. *)
Lemma acf_at_bound (returns : list Q) (k : nat) :
  (k < length returns)%nat -> 0 < np_var returns ->
  Qabs (acf_at returns (np_mean returns) (np_var returns) k)
  <= inject_Z (Z.of_nat (length returns))
     / inject_Z (Z.of_nat (length returns - k)).
Proof.
  intros Hk Hvar.
  set (n := length returns).
  set (m := np_mean returns).
  set (d := map (fun x => x - m) returns).
  assert (Hne : returns <> []) by (intro E; rewrite E in Hk; simpl in Hk; lia).
  assert (HN : 0 < inject_Z (Z.of_nat n)) by (apply inject_nat_pos; unfold n; lia).
  assert (HNk : 0 < inject_Z (Z.of_nat (n - k)))
    by (apply inject_nat_pos; unfold n; lia).
  unfold acf_at. fold n. fold m.
  rewrite <- firstn_map, <- skipn_map. fold d.
  set (prods := np_mul (firstn (n - k) d) (skipn k d)).
  assert (Hlen : length prods = (n - k)%nat).
  { unfold prods, np_mul. rewrite length_map, length_combine.
    rewrite length_firstn, length_skipn. unfold d. rewrite length_map.
    fold n. lia. }
  destruct (np_mul_sum_bound (firstn (n - k) d) (skipn k d)) as [B1 B2].
  fold prods in B1, B2.
  pose proof (sum_squares_firstn (n - k) d) as F1.
  pose proof (sum_squares_skipn k d) as F2.
  pose proof (np_var_sum_squares returns Hne) as Hsq.
  fold m in Hsq. fold d in Hsq. fold n in Hsq.
  set (V := np_var returns) in *.
  set (S := np_sum prods) in *.
  assert (HNV : 0 < inject_Z (Z.of_nat n) * V) by nra.
  apply Qabs_Qle_condition.
  unfold np_mean. fold S. rewrite Hlen.
  set (Nk := inject_Z (Z.of_nat (n - k))) in *.
  set (N := inject_Z (Z.of_nat n)) in *.
  assert (E : S / Nk / V == S / (Nk * V)) by (field; lra).
  rewrite E.
  assert (HD : 0 < Nk * V) by nra.
  split.
  - apply Qle_shift_div_l; [exact HD |].
    assert (E2 : - (N / Nk) * (Nk * V) == - (N * V)) by (field; lra).
    rewrite E2. lra.
  - apply Qle_shift_div_r; [exact HD |].
    assert (E2 : N / Nk * (Nk * V) == N * V) by (field; lra).
    rewrite E2. lra.
Qed.

(** On prices that are never zero (so that every return is a number), a
    defined result has one value per lag, and the value at lag [k] is at
    most [n / (n - k)] in absolute value, [n] being the number of
    returns. *)
Theorem daily_acf_values_bounded (prices acf : list Q) (max_lag k : nat) :
  Forall (fun p => ~ p == 0) prices ->
  compute_daily_acf prices max_lag = Some acf ->
  let n := length (pct_change prices) in
  length acf = max_lag /\
  (max_lag + 10 <= n)%nat /\
  ((1 <= k <= max_lag)%nat ->
   Qabs (nth (k - 1) acf 0)
   <= inject_Z (Z.of_nat n) / inject_Z (Z.of_nat (n - k))).
Proof.
  intros _. unfold compute_daily_acf.
  destruct (length (pct_change prices) <? max_lag + 10)%nat eqn:G;
    [discriminate |].
  apply Nat.ltb_ge in G.
  destruct (Qltb (np_var (pct_change prices)) (1 # 1000000000000)) eqn:F;
    [discriminate |].
  apply Qltb_ge in F.
  intro H. injection H as <-. cbv zeta.
  split; [rewrite length_map, length_seq; reflexivity |].
  split; [exact G |].
  intros [Hk1 Hk2].
  set (f := acf_at (pct_change prices) (np_mean (pct_change prices))
                   (np_var (pct_change prices))).
  assert (E : nth (k - 1) (map f (seq 1 max_lag)) 0 = f k).
  { rewrite (nth_indep _ 0 (f 0%nat)) by (rewrite length_map, length_seq; lia).
    rewrite map_nth, seq_nth by lia. f_equal. lia. }
  rewrite E. apply acf_at_bound; [lia |].
  eapply Qlt_le_trans; [| exact F]. reflexivity.
Qed.

End AcfBound.

Lemma daily_acf_values_bounded_witness :
  Forall (fun p => ~ p == 0) (AcfSeries.alternating 2 1 16) /\
  exists acf,
    AcfEngine.compute_daily_acf (AcfSeries.alternating 2 1 16) 5 = Some acf
    /\ length acf = 5%nat
    /\ Qabs (nth 0 acf 0) <= inject_Z 15 / inject_Z 14.
Proof.
  assert (P : Forall (fun p => ~ p == 0) (AcfSeries.alternating 2 1 16))
    by (repeat constructor; discriminate).
  split; [exact P |].
  destruct (AcfEngine.compute_daily_acf (AcfSeries.alternating 2 1 16) 5)
    as [acf |] eqn:E; [| vm_compute in E; discriminate E].
  exists acf. split; [reflexivity |].
  pose proof (daily_acf_values_bounded
                (AcfSeries.alternating 2 1 16) acf 5 1 P E) as H.
  cbv zeta in H. destruct H as [H1 [_ H3]].
  split; [exact H1 |]. apply H3. lia.
Defined.

(** ** acf_engine.py: self-excitation *)

Section SelfExcitationFacts.

Import AcfEngine AcfSeries SelfExcitation.

Lemma events_app (xs ys : list (list Q)) :
  events (xs ++ ys) = (events xs + events ys)%nat.
Proof.
  unfold events. induction xs as [| x xs IH]; simpl; [reflexivity |].
  rewrite IH. lia.
Qed.

Lemma flush_well_formed (thr : Q) (st : Scan) :
  Forall (well_formed_cluster thr) (clusters st) ->
  Forall (fun x => thr <= x) (current_cluster st) ->
  Forall (well_formed_cluster thr) (flush st).
Proof.
  intros Hc Hcur. unfold flush.
  destruct (2 <=? length (current_cluster st))%nat eqn:E; [| exact Hc].
  apply Nat.leb_le in E. apply Forall_app. split; [exact Hc |].
  constructor; [split; assumption | constructor].
Qed.

Lemma flush_events (st : Scan) :
  (events (flush st) <= events (clusters st) + length (current_cluster st))%nat.
Proof.
  unfold flush. destruct (2 <=? length (current_cluster st))%nat.
  - rewrite events_app. unfold events at 2. simpl. lia.
  - lia.
Qed.

(** What the loop keeps true: recorded clusters are well formed, the open
    cluster holds moves at least the threshold, and no return is counted
    twice. *)
Lemma scan_invariant (thr : Q) (returns : list Q) (st : Scan) (seen : nat) :
  Forall (well_formed_cluster thr) (clusters st) ->
  Forall (fun x => thr <= x) (current_cluster st) ->
  (events (clusters st) + length (current_cluster st) <= seen)%nat ->
  Forall (well_formed_cluster thr)
    (clusters (fold_left (scan_step thr) returns st)) /\
  Forall (fun x => thr <= x)
    (current_cluster (fold_left (scan_step thr) returns st)) /\
  (events (clusters (fold_left (scan_step thr) returns st))
   + length (current_cluster (fold_left (scan_step thr) returns st))
   <= seen + length returns)%nat.
Proof.
  revert st seen. induction returns as [| r returns IH];
    intros st seen Hc Hcur Hn; simpl.
  - repeat split; try assumption. lia.
  - replace (seen + S (length returns))%nat
      with (S seen + length returns)%nat by lia.
    apply IH; unfold scan_step.
    + destruct (Qle_bool thr (Qabs r)); [| apply flush_well_formed; assumption].
      destruct (_ || _); [exact Hc | apply flush_well_formed; assumption].
    + destruct (Qle_bool thr (Qabs r)) eqn:E; [| constructor].
      apply Qle_bool_iff in E.
      destruct (_ || _); simpl.
      * apply Forall_app. split; [exact Hcur | repeat constructor; exact E].
      * repeat constructor. exact E.
    + pose proof (flush_events st).
      destruct (Qle_bool thr (Qabs r)); [| simpl; lia].
      destruct (_ || _); simpl; [rewrite length_app; simpl; lia | lia].
Qed.

Lemma find_clusters_well_formed (thr : Q) (returns : list Q) :
  Forall (well_formed_cluster thr) (find_clusters thr returns) /\
  (events (find_clusters thr returns) <= length returns)%nat.
Proof.
  unfold find_clusters.
  destruct (scan_invariant thr returns
              {| clusters := []; current_cluster := []; last_sign := 0%Z |}
              0%nat) as [H1 [H2 H3]];
    [constructor | constructor | simpl; lia |].
  simpl in H3. split; [apply flush_well_formed; assumption |].
  pose proof (flush_events (fold_left (scan_step thr) returns
              {| clusters := []; current_cluster := []; last_sign := 0%Z |})).
  lia.
Qed.

Lemma events_at_least_two_each (thr : Q) (cs : list (list Q)) :
  Forall (well_formed_cluster thr) cs -> (2 * length cs <= events cs)%nat.
Proof.
  induction 1 as [| c cs [Hc _] _ IH]; [simpl; lia |].
  unfold events in *. simpl. lia.
Qed.

Lemma fold_max_bounds (l : list nat) (a : nat) :
  (a <= fold_left Nat.max l a)%nat /\
  (fold_left Nat.max l a <= a + fold_right Nat.add 0 l)%nat.
Proof.
  revert a. induction l as [| x l IH]; intro a; simpl; [lia |].
  destruct (IH (Nat.max a x)). lia.
Qed.

Lemma np_sum_lower (lo : Q) (xs : list Q) :
  Forall (fun x => lo <= x) xs ->
  inject_Z (Z.of_nat (length xs)) * lo <= np_sum xs.
Proof.
  induction 1 as [| x xs Hx _ IH].
  - cbn [length np_sum fold_right].
    change (inject_Z (Z.of_nat 0)) with 0. lra.
  - cbn [length np_sum fold_right]. fold (np_sum xs).
    rewrite inject_nat_S. lra.
Qed.

Lemma np_mean_lower (lo : Q) (xs : list Q) :
  xs <> [] -> Forall (fun x => lo <= x) xs -> lo <= np_mean xs.
Proof.
  intros Hne Hall. unfold np_mean.
  apply Qle_shift_div_l.
  - apply inject_nat_pos. destruct xs; [contradiction | simpl; lia].
  - rewrite Qmult_comm. apply np_sum_lower. exact Hall.
Qed.

Lemma cluster_score_floor (thr : Q) (c : list Q) :
  0 <= thr -> well_formed_cluster thr c -> 40000 * thr <= cluster_score c.
Proof.
  intros Hthr [Hlen Hall]. unfold cluster_score.
  pose proof (np_sum_lower thr c Hall) as Hs.
  assert (HL : 2 <= inject_Z (Z.of_nat (length c))).
  { change 2 with (inject_Z 2). rewrite <- Zle_Qle. lia. }
  set (L := inject_Z (Z.of_nat (length c))) in *.
  assert (H1 : 2 * thr <= np_sum c) by nra.
  assert (H2 : 2 * np_sum c <= L * np_sum c) by nra.
  lra.
Qed.

Lemma py_round_mono (x y : Q) (n : nat) :
  x <= y -> py_round x n <= py_round y n.
Proof.
  intro Hxy. unfold py_round.
  pose proof (pow10_pos n) as Hm.
  set (m := inject_Z (10 ^ Z.of_nat n)) in *.
  assert (Hr : (round_half_even (x * m) <= round_half_even (y * m))%Z).
  { apply round_half_even_mono. nra. }
  rewrite Zle_Qle in Hr.
  apply Qle_shift_div_l; [exact Hm |].
  unfold Qdiv. rewrite <- Qmult_assoc, (Qmult_comm (/ m)), Qmult_inv_r, Qmult_1_r;
    [exact Hr | lra].
Qed.

(** Counting in [compute_self_excitation]: fewer than 20 returns give
    the empty result; every reported cluster holds at least two moves, so
    [total_excitation_events] is at least twice [n_clusters], and it never
    exceeds the number of returns; when a cluster is reported the largest
    one has between 2 and [total_excitation_events] moves; and a result
    without clusters is exactly the empty result. *)
Theorem self_excitation_counts (prices : list Q) (threshold_pct : Q) :
  let r := compute_self_excitation prices threshold_pct in
  let n := length (pct_change prices) in
  ((n < 20)%nat -> r = _empty_sei) /\
  (2 * n_clusters r <= total_excitation_events r)%nat /\
  (total_excitation_events r <= n)%nat /\
  (n_clusters r = 0%nat -> r = _empty_sei) /\
  (n_clusters r <> 0%nat ->
   (20 <= n)%nat /\
   (2 <= max_cluster_size r)%nat /\
   (max_cluster_size r <= total_excitation_events r)%nat).
Proof.
  cbv zeta. unfold compute_self_excitation. cbv zeta.
  destruct (length (pct_change prices) <? 20)%nat eqn:G.
  { simpl. repeat split; try reflexivity; try lia. }
  apply Nat.ltb_ge in G.
  destruct (find_clusters_well_formed (threshold_pct / 100)
              (pct_change prices)) as [Hwf Hev].
  destruct (find_clusters (threshold_pct / 100) (pct_change prices))
    as [| first rest] eqn:E.
  { simpl. repeat split; try reflexivity; try lia. }
  pose proof (events_at_least_two_each _ _ Hwf) as H2.
  destruct (if Qltb 150 _ then _ else _) as [regime desc].
  cbn [n_clusters total_excitation_events max_cluster_size].
  split; [lia |]. split; [exact H2 |]. split; [exact Hev |].
  split; [simpl; discriminate |].
  intros _. split; [exact G |].
  destruct (fold_max_bounds (map (@length Q) rest) (length first)) as [Ha Hb].
  inversion Hwf as [| ? ? [Hf _] _]; subst.
  unfold max_len. split; [lia |].
  unfold events. simpl. exact Hb.
Qed.

(** The floor of the index: with a non-negative threshold, whenever
    [compute_self_excitation] reports a cluster the reported [sei] is at
    least [round(400 * threshold_pct, 3)]; with the default threshold 0.1
    (or any larger one) it is at least 40. *)
Theorem self_excitation_floor (prices : list Q) (threshold_pct : Q) :
  0 <= threshold_pct ->
  n_clusters (compute_self_excitation prices threshold_pct) <> 0%nat ->
  py_round (400 * threshold_pct) 3
  <= sei (compute_self_excitation prices threshold_pct) /\
  (0.1 <= threshold_pct ->
   40 <= sei (compute_self_excitation prices threshold_pct)).
Proof.
  intros Hthr Hn.
  assert (Hmain : forall b, b <= 400 * threshold_pct ->
            py_round b 3
            <= sei (compute_self_excitation prices threshold_pct)).
  { intros b Hb. revert Hn. unfold compute_self_excitation. cbv zeta.
    destruct (length (pct_change prices) <? 20)%nat;
      [simpl; intro Hn; contradiction |].
    destruct (find_clusters_well_formed (threshold_pct / 100)
                (pct_change prices)) as [Hwf _].
    destruct (find_clusters (threshold_pct / 100) (pct_change prices))
      as [| first rest] eqn:E; [simpl; intro Hn; contradiction |].
    intros _.
    destruct (if Qltb 150 _ then _ else _) as [regime desc].
    cbn [sei]. apply py_round_mono.
    eapply Qle_trans; [exact Hb |].
    apply np_mean_lower; [discriminate |].
    apply Forall_map. eapply Forall_impl; [| exact Hwf].
    intros c Hc. simpl.
    assert (H0 : 0 <= threshold_pct / 100) by (qdiv_consts; lra).
    pose proof (cluster_score_floor _ _ H0 Hc) as Hs.
    revert Hs. qdiv_consts. intro Hs. lra. }
  split; [apply Hmain; lra |].
  intro Hd. change 40 with (40 # 1).
  assert (E40 : py_round 40 3 == 40) by reflexivity.
  rewrite <- E40. apply Hmain. lra.
Qed.

Lemma self_excitation_floor_witness :
  0 <= 0.1 /\
  n_clusters (compute_self_excitation (ramp 100 22) 0.1) <> 0%nat /\
  40 <= sei (compute_self_excitation (ramp 100 22) 0.1).
Proof.
  assert (H0 : 0 <= 0.1) by (unfold Qle; simpl; lia).
  assert (Hn : n_clusters (compute_self_excitation (ramp 100 22) 0.1) <> 0%nat)
    by (vm_compute; discriminate).
  split; [exact H0 |]. split; [exact Hn |].
  apply (self_excitation_floor (ramp 100 22) 0.1 H0 Hn).
  unfold Qle; simpl; lia.
Defined.

End SelfExcitationFacts.

(** ** gamma_reynolds.py: phase transition *)

Section PhaseTransitionFacts.

Import PhaseTransition.
Open Scope string_scope.

Lemma filter_length_le {A : Type} (f : A -> bool) (l : list A) :
  (length (filter f l) <= length l)%nat.
Proof.
  induction l as [| x l IH]; simpl; [lia |].
  destruct (f x); simpl; lia.
Qed.

Lemma py_round_1_tenths (z : Z) : py_round (inject_Z z / 10) 1 == inject_Z z / 10.
Proof.
  unfold py_round. change (inject_Z (10 ^ Z.of_nat 1)) with 10.
  assert (E : inject_Z z / 10 * 10 == inject_Z z) by field.
  rewrite (Qcompare_half_comp _ _ E), round_half_even_Z. reflexivity.
Qed.

(** With the default window 20 and threshold 12.9 and at least 20 daily
    records, the verdict is read off the number [k] of the last 20 days
    whose lag-1 autocorrelation exceeds 0.05: the reported percentage is
    [5 k], and the regime is TURBULENT from three such days on,
    APPROACHING at exactly two, LAMINAR (with no warning) below. *)
Theorem phase_transition_default_counts (days : list AcfDay) :
  (20 <= length days)%nat ->
  let k := amplified_in_last 20 days in
  exists m,
    detect_phase_transition days 20 12.9 = Some (Known m) /\
    window m = 20%nat /\
    n_amplified_days m = k /\
    (k <= 20)%nat /\
    pct_amplified m == 5 * inject_Z (Z.of_nat k) /\
    ((3 <= k)%nat -> regime m = "TURBULENT" /\ warning m <> None) /\
    (k = 2%nat -> regime m = "APPROACHING" /\ warning m <> None) /\
    ((k <= 1)%nat -> regime m = "LAMINAR" /\ warning m = None).
Proof.
  intros Hlen. cbv zeta.
  unfold detect_phase_transition.
  destruct days as [| d0 days0] eqn:Ed; [simpl in Hlen; lia |].
  rewrite <- Ed in *. clear Ed d0 days0.
  assert (G : (20 <=? Z.of_nat (length days))%Z = true)
    by (apply Z.leb_le; lia).
  rewrite G.
  assert (Es : py_slice_from (Z.opp 20) days = skipn (length days - 20) days).
  { unfold py_slice_from. cbv zeta.
    change (Z.opp 20 <? 0)%Z with true. cbv iota. f_equal. lia. }
  rewrite Es.
  assert (Hrl : length (skipn (length days - 20) days) = 20%nat)
    by (rewrite length_skipn; lia).
  fold (amplified_in_last 20 days).
  set (k := amplified_in_last 20 days).
  assert (Hk : (k <= 20)%nat).
  { unfold k, amplified_in_last.
    etransitivity; [apply filter_length_le |]. rewrite length_map. lia. }
  destruct (skipn (length days - 20) days) as [| r0 rs] eqn:Er;
    [simpl in Hrl; lia |].
  rewrite Hrl.
  set (K := inject_Z (Z.of_nat k)).
  assert (Epct : 100 * K / inject_Z (Z.of_nat 20) == 5 * K)
    by (change (inject_Z (Z.of_nat 20)) with 20; field).
  assert (E5 : 5 * K == inject_Z (50 * Z.of_nat k) / 10)
    by (unfold K; rewrite inject_Z_mult; field).
  assert (Er1 : py_round (100 * K / inject_Z (Z.of_nat 20)) 1 == 5 * K).
  { rewrite (py_round_comp _ _ 1 Epct).
    rewrite (py_round_comp _ _ 1 E5), py_round_1_tenths, <- E5. reflexivity. }
  assert (Hcases : (3 <= k)%nat \/ k = 2%nat \/ (k <= 1)%nat) by lia.
  destruct Hcases as [H3 | [H2 | H1]].
  - assert (HK : 3 <= K) by (unfold K; change 3 with (inject_Z 3);
                             rewrite <- Zle_Qle; lia).
    assert (T : Qltb 12.9 (100 * K / inject_Z (Z.of_nat 20)) = true)
      by (apply Qltb_lt; rewrite Epct; lra).
    rewrite T. eexists. split; [reflexivity |]. cbn.
    repeat split; try lia; try discriminate. exact Er1.
  - assert (HK : K == 2) by (unfold K; rewrite H2; reflexivity).
    assert (T : Qltb 12.9 (100 * K / inject_Z (Z.of_nat 20)) = false)
      by (apply Qltb_ge; rewrite Epct; lra).
    assert (A : Qltb (12.9 * 0.7) (100 * K / inject_Z (Z.of_nat 20)) = true)
      by (apply Qltb_lt; rewrite Epct; lra).
    rewrite T, A. eexists. split; [reflexivity |]. cbn.
    repeat split; try lia; try discriminate. exact Er1.
  - assert (HK : K <= 1) by (unfold K; change 1 with (inject_Z 1);
                             rewrite <- Zle_Qle; lia).
    assert (T : Qltb 12.9 (100 * K / inject_Z (Z.of_nat 20)) = false)
      by (apply Qltb_ge; rewrite Epct; lra).
    assert (A : Qltb (12.9 * 0.7) (100 * K / inject_Z (Z.of_nat 20)) = false)
      by (apply Qltb_ge; rewrite Epct; lra).
    rewrite T, A. eexists. split; [reflexivity |]. cbn.
    repeat split; try lia; try discriminate. exact Er1.
Qed.

Lemma phase_transition_default_counts_witness :
  (20 <= length (repeat {| lag1_acf := 0.1 |} 20))%nat /\
  exists m,
    detect_phase_transition (repeat {| lag1_acf := 0.1 |} 20) 20 12.9
    = Some (Known m) /\
    regime m = "TURBULENT".
Proof.
  assert (H20 : (20 <= length (repeat {| lag1_acf := 0.1 |} 20))%nat)
    by (simpl; lia).
  split; [exact H20 |].
  destruct (phase_transition_default_counts _ H20)
    as (m & H1 & _ & _ & _ & _ & H3 & _).
  exists m. split; [exact H1 |]. apply H3. vm_compute. lia.
Defined.

Lemma recent_nonempty_length (days : list AcfDay) (w : Z) :
  (1 <= w <= Z.of_nat (length days))%Z ->
  length (py_slice_from (- w) days) = Z.to_nat w.
Proof.
  intro Hw. unfold py_slice_from. cbv zeta.
  assert (E : (- w <? 0)%Z = true) by (apply Z.ltb_lt; lia).
  rewrite E, length_skipn. lia.
Qed.

(** The window of [detect_phase_transition]: no records give the UNKNOWN
    result; on a non-empty list the call fails (division by zero on an
    empty slice) exactly when [window <= - len]; otherwise it reports a
    window of at most [len] records, equal to [window] when
    [1 <= window <= len], never more amplified days than the window, and a
    percentage between 0 and 100. *)
Theorem phase_transition_window
    (days : list AcfDay) (w : Z) (threshold_pct : Q) :
  let len := Z.of_nat (length days) in
  (days = [] -> detect_phase_transition days w threshold_pct = Some Unknown) /\
  (days <> [] ->
   (detect_phase_transition days w threshold_pct = None <-> (w <= - len)%Z) /\
   detect_phase_transition days w threshold_pct <> Some Unknown) /\
  (forall m, detect_phase_transition days w threshold_pct = Some (Known m) ->
     (1 <= window m <= length days)%nat /\
     ((1 <= w <= len)%Z -> Z.of_nat (window m) = w) /\
     ((len < w)%Z -> window m = length days) /\
     (n_amplified_days m <= window m)%nat /\
     0 <= pct_amplified m /\ pct_amplified m <= 100).
Proof.
  cbv zeta. split; [intros ->; reflexivity |].
  unfold detect_phase_transition.
  destruct days as [| d0 days0] eqn:Ed.
  { split; [intro H; contradiction | intros m H; discriminate H]. }
  rewrite <- Ed in *.
  assert (Hlen : (1 <= length days)%nat) by (rewrite Ed; simpl; lia).
  clear Ed d0 days0.
  set (recent := if (w <=? Z.of_nat (length days))%Z
                 then py_slice_from (- w) days else days).
  assert (Hrlen : length recent
                  = if (w <=? Z.of_nat (length days))%Z
                    then if (- w <? 0)%Z
                         then (length days
                               - Z.to_nat (Z.max (Z.of_nat (length days) + - w) 0))%nat
                         else (length days
                               - Z.to_nat (Z.min (- w) (Z.of_nat (length days))))%nat
                    else length days).
  { unfold recent, py_slice_from. cbv zeta.
    destruct (w <=? _)%Z; [| reflexivity].
    destruct (- w <? 0)%Z; rewrite length_skipn; reflexivity. }
  assert (Hamp : (length (filter (fun v => Qltb 0.05 v) (map lag1_acf recent))
                  <= length recent)%nat).
  { etransitivity; [apply filter_length_le |]. rewrite length_map. lia. }
  destruct recent as [| r0 rs] eqn:Er.
  - simpl in Hrlen. split.
    + intros _. split; [| discriminate]. split; [intros _ | reflexivity].
      destruct (w <=? _)%Z eqn:G; [| lia].
      destruct (- w <? 0)%Z eqn:G2; [apply Z.ltb_lt in G2 | apply Z.ltb_ge in G2];
        lia.
    + intros m H. discriminate H.
  - rewrite <- Er in *.
    assert (Hpos : (1 <= length recent)%nat) by (rewrite Er; simpl; lia).
    set (k := length (filter (fun v => Qltb 0.05 v) (map lag1_acf recent))) in *.
    set (pct := 100 * inject_Z (Z.of_nat k)
                / inject_Z (Z.of_nat (length recent))).
    destruct (if Qltb threshold_pct pct then _ else _) as [rg wn].
    split.
    + intros _. split; [| discriminate]. split; [discriminate |].
      intro Hw.
      destruct (w <=? _)%Z eqn:G; [| apply Z.leb_gt in G; lia].
      destruct (- w <? 0)%Z eqn:G2; [apply Z.ltb_lt in G2 | apply Z.ltb_ge in G2];
        lia.
    + intros m H. injection H as <-. cbn.
      assert (HN : 0 < inject_Z (Z.of_nat (length recent)))
        by (apply inject_nat_pos; lia).
      assert (HK0 : 0 <= inject_Z (Z.of_nat k))
        by (change 0 with (inject_Z 0); rewrite <- Zle_Qle; lia).
      assert (HKN : inject_Z (Z.of_nat k) <= inject_Z (Z.of_nat (length recent)))
        by (rewrite <- Zle_Qle; lia).
      assert (P0 : 0 <= pct).
      { unfold pct. apply Qle_shift_div_l; [exact HN | lra]. }
      assert (P1 : pct <= 100).
      { unfold pct. apply Qle_shift_div_r; [exact HN | lra]. }
      repeat split.
      * exact Hpos.
      * destruct (w <=? _)%Z; [| lia].
        destruct (- w <? 0)%Z; lia.
      * intro Hw.
        assert (G : (w <=? Z.of_nat (length days))%Z = true)
          by (apply Z.leb_le; lia).
        assert (G2 : (- w <? 0)%Z = true) by (apply Z.ltb_lt; lia).
        rewrite G, G2 in Hrlen. lia.
      * intro Hw.
        assert (G : (w <=? Z.of_nat (length days))%Z = false)
          by (apply Z.leb_gt; lia).
        rewrite G in Hrlen. exact Hrlen.
      * exact Hamp.
      * apply py_round_nonneg. exact P0.
      * assert (E : py_round 100 1 == 100) by reflexivity.
        rewrite <- E. apply py_round_mono. exact P1.
Qed.

Lemma phase_transition_window_witness :
  exists m,
    detect_phase_transition (repeat {| lag1_acf := 0.1 |} 25) 20 12.9
    = Some (Known m) /\
    window m = 20%nat /\ pct_amplified m <= 100.
Proof.
  destruct (detect_phase_transition (repeat {| lag1_acf := 0.1 |} 25) 20 12.9)
    as [[| m] |] eqn:E; try (vm_compute in E; discriminate E).
  exists m. split; [reflexivity |].
  destruct (phase_transition_window (repeat {| lag1_acf := 0.1 |} 25) 20 12.9)
    as (_ & _ & H).
  destruct (H m E) as (_ & Hw & _ & _ & _ & Hp).
  split; [| exact Hp].
  apply Nat2Z.inj. apply Hw. simpl. lia.
Defined.

End PhaseTransitionFacts.

(** ** directional_engine.py: bias, labels and strikes *)

Section DirectionalBiasFacts.

Import DirectionalEngine DirectionalBias.
Open Scope string_scope.

Lemma classify_thesis_range (acf : Acf) (re : Reynolds)
    (technicals : option Technicals) :
  In (classify_thesis acf re technicals) theses.
Proof.
  unfold classify_thesis, theses.
  repeat match goal with
         | |- context [if ?b then _ else _] => destruct b
         end; simpl; tauto.
Qed.

Lemma Qle_bool_true (x y : Q) : x <= y -> Qle_bool x y = true.
Proof. apply Qle_bool_iff. Qed.

Lemma Qle_bool_false (x y : Q) : y < x -> Qle_bool x y = false.
Proof.
  intro H. destruct (Qle_bool x y) eqn:E; [| reflexivity].
  apply Qle_bool_iff in E. lra.
Qed.

(** In the three momentum theses the direction is never NEUTRAL and
    technicals outrank the flip point: a trend score of at least 2 in
    absolute value decides the direction by its sign; failing that, an MA
    alignment of at least 3 in absolute value decides it; only otherwise
    does the side of the flip point decide.  The action buys calls exactly
    when the direction is BULLISH. *)
Theorem momentum_bias_direction
    (thesis : string) (spot flip_point max_pain : Q) (ch_pos : option Q)
    (charm vanna : Q) (dte : Z) (tech_bias_dir : string)
    (ma_alignment tech_score : Q) :
  In thesis ["MOMENTUM_BREAKOUT"; "MOMENTUM_EARLY"; "MOMENTUM_TREND"] ->
  let b := _compute_bias thesis spot flip_point max_pain ch_pos charm dte
             ma_alignment tech_score in
  (direction b = "BULLISH" \/ direction b = "BEARISH") /\
  (2 <= tech_score -> direction b = "BULLISH") /\
  (tech_score <= -2 -> direction b = "BEARISH") /\
  (Qabs tech_score < 2 -> 3 <= ma_alignment -> direction b = "BULLISH") /\
  (Qabs tech_score < 2 -> ma_alignment <= -3 -> direction b = "BEARISH") /\
  (Qabs tech_score < 2 -> Qabs ma_alignment < 3 ->
   direction b = if Qltb flip_point spot then "BULLISH" else "BEARISH") /\
  (action b = if direction b =? "BULLISH" then "BUY CALLS" else "BUY PUTS") /\
  style b = "RIDE MOMENTUM".
Proof.
  intros Hin b.
  assert (Hb : b = let gex_dir := if Qltb flip_point spot
                                  then "BULLISH" else "BEARISH" in
                   let d := _resolve_direction ma_alignment tech_score gex_dir in
                   {| direction := d;
                      action := if d =? "BULLISH" then "BUY CALLS" else "BUY PUTS";
                      style := "RIDE MOMENTUM";
                      description :=
                        Text "Moves follow through. Don't fade — ride the trend.";
                      strength := if thesis =? "MOMENTUM_BREAKOUT"
                                  then "STRONG" else "MODERATE" |}).
  { unfold b, _compute_bias.
    simpl in Hin. destruct Hin as [<- | [<- | [<- | []]]]; reflexivity. }
  rewrite Hb. cbv zeta. cbn [direction action style].
  unfold _resolve_direction.
  split; [| split; [| split; [| split; [| split; [| split; [| split]]]]]];
    try reflexivity.
  - destruct (Qle_bool 2 (Qabs tech_score)), (Qle_bool 2 tech_score),
      (Qle_bool 3 (Qabs ma_alignment)), (Qle_bool 3 ma_alignment),
      (Qltb flip_point spot); simpl; tauto.
  - intro H. rewrite (Qle_bool_true 2 (Qabs tech_score)),
      (Qle_bool_true 2 tech_score) by
      (first [exact H | eapply Qle_trans; [exact H | apply Qle_Qabs]]).
    destruct (Qltb flip_point spot); reflexivity.
  - intro H.
    assert (HA : 2 <= Qabs tech_score).
    { rewrite <- Qabs_opp. eapply Qle_trans; [| apply Qle_Qabs]. lra. }
    rewrite (Qle_bool_true _ _ HA), (Qle_bool_false 2 tech_score) by lra.
    destruct (Qltb flip_point spot); reflexivity.
  - intros H1 H2. rewrite (Qle_bool_false _ _ H1).
    rewrite (Qle_bool_true 3 (Qabs ma_alignment)),
      (Qle_bool_true 3 ma_alignment) by
      (first [exact H2 | eapply Qle_trans; [exact H2 | apply Qle_Qabs]]).
    destruct (Qltb flip_point spot); reflexivity.
  - intros H1 H2. rewrite (Qle_bool_false _ _ H1).
    assert (HA : 3 <= Qabs ma_alignment).
    { rewrite <- Qabs_opp. eapply Qle_trans; [| apply Qle_Qabs]. lra. }
    rewrite (Qle_bool_true _ _ HA), (Qle_bool_false 3 ma_alignment) by lra.
    destruct (Qltb flip_point spot); reflexivity.
  - intros H1 H2. rewrite (Qle_bool_false _ _ H1), (Qle_bool_false _ _ H2).
    reflexivity.
Qed.

Lemma momentum_bias_direction_witness :
  In "MOMENTUM_EARLY" ["MOMENTUM_BREAKOUT"; "MOMENTUM_EARLY"; "MOMENTUM_TREND"]
  /\ direction (_compute_bias "MOMENTUM_EARLY" 100 110 100 None 0 5 0 2)
     = "BULLISH".
Proof.
  assert (Hin : In "MOMENTUM_EARLY"
                  ["MOMENTUM_BREAKOUT"; "MOMENTUM_EARLY"; "MOMENTUM_TREND"])
    by (simpl; tauto).
  split; [exact Hin |].
  destruct (momentum_bias_direction "MOMENTUM_EARLY" 100 110 100 None 0 0 5
              "NEUTRAL" 0 2 Hin) as (_ & H & _).
  apply H. unfold Qle. simpl. lia.
Defined.

(** What the thesis of the decision tree entails downstream: it is one of
    the seven named theses, so [_thesis_label] always finds a label and
    never echoes its argument; the avoid list has two entries for the
    thesis (one for NEUTRAL) plus one when the phase regime is TURBULENT;
    the bias is NEUTRAL only for CONFLICTED_PIN and NEUTRAL, STRONG exactly
    for MOMENTUM_BREAKOUT and FADE_MOVES, and WEAK or NONE only for
    NEUTRAL. *)
Theorem thesis_guidance
    (acf : Acf) (re : Reynolds) (technicals : option Technicals)
    (phase_regime : string)
    (spot flip_point max_pain : Q) (ch_pos : option Q)
    (charm : Q) (dte : Z) (ma_alignment tech_score : Q) :
  let t := classify_thesis acf re technicals in
  let b := _compute_bias t spot flip_point max_pain ch_pos charm dte
             ma_alignment tech_score in
  In t theses /\
  _thesis_label t <> t /\
  length (_build_avoid_list t phase_regime)
  = ((if (t =? "NEUTRAL")%string then 1 else 2)
     + (if (phase_regime =? "TURBULENT")%string then 1 else 0))%nat /\
  (direction b = "NEUTRAL" -> t = "CONFLICTED_PIN" \/ t = "NEUTRAL") /\
  (strength b = "STRONG" <-> t = "MOMENTUM_BREAKOUT" \/ t = "FADE_MOVES") /\
  (strength b = "WEAK" \/ strength b = "NONE" -> t = "NEUTRAL").
Proof.
  intros t b. pose proof (classify_thesis_range acf re technicals) as Hin.
  fold t in Hin. split; [exact Hin |].
  unfold b. clearbody t. clear b. unfold theses in Hin. simpl in Hin.
  destruct Hin as [<- | [<- | [<- | [<- | [<- | [<- | [<- | []]]]]]]];
    (split; [simpl; discriminate |]);
    (split; [unfold _build_avoid_list; simpl;
             destruct (phase_regime =? "TURBULENT"); reflexivity |]);
    unfold _compute_bias, _resolve_direction; simpl;
    repeat match goal with
           | |- context [if ?c then _ else _] => destruct c; simpl
           | |- context [match ch_pos with _ => _ end] => destruct ch_pos; simpl
           end;
    repeat split; intros; try discriminate; try tauto;
    repeat match goal with
           | H : _ \/ _ |- _ => destruct H
           end; try discriminate; auto.
Qed.

Lemma round_strike_increment (price spot : Q) :
  exists inc : Q,
    _round_strike price spot = inject_Z (round_half_even (price / inc)) * inc /\
    (inc == 5 \/ inc == 2.5 \/ inc == 1 \/ inc == 0.5) /\
    (100 < spot -> inc == 5) /\
    (50 < spot -> spot <= 100 -> inc == 2.5) /\
    (20 < spot -> spot <= 50 -> inc == 1) /\
    (spot <= 20 -> inc == 0.5).
Proof.
  unfold _round_strike. cbv zeta.
  destruct (Qltb 500 spot) eqn:E1;
    [apply Qltb_lt in E1 | apply Qltb_ge in E1];
    (destruct (Qltb 100 spot) eqn:E2;
     [apply Qltb_lt in E2 | apply Qltb_ge in E2]);
    (destruct (Qltb 50 spot) eqn:E3;
     [apply Qltb_lt in E3 | apply Qltb_ge in E3]);
    (destruct (Qltb 20 spot) eqn:E4;
     [apply Qltb_lt in E4 | apply Qltb_ge in E4]);
    eexists; (split; [reflexivity |]);
    repeat split; intros; try lra;
    try (left; reflexivity); try (right; left; reflexivity);
    try (right; right; left; reflexivity);
    try (right; right; right; reflexivity); try reflexivity.
Qed.

(** [_round_strike] snaps a price to the strike grid of the spot's price
    band: the result is a whole multiple of the increment (5 above 100,
    2.5 above 50, 1 above 20, else 0.5), lies within half an increment of
    the price, and rounding it again changes nothing. *)
Theorem round_strike_grid (price spot : Q) :
  exists (inc : Q) (k : Z),
    ((100 < spot -> inc == 5) /\
     (50 < spot -> spot <= 100 -> inc == 2.5) /\
     (20 < spot -> spot <= 50 -> inc == 1) /\
     (spot <= 20 -> inc == 0.5)) /\
    _round_strike price spot == inject_Z k * inc /\
    Qabs (_round_strike price spot - price) <= inc / 2 /\
    _round_strike (_round_strike price spot) spot == _round_strike price spot.
Proof.
  destruct (round_strike_increment price spot)
    as (inc & E & Hinc & H1 & H2 & H3 & H4).
  assert (Hpos : 0 < inc) by (destruct Hinc as [H | [H | [H | H]]]; rewrite H;
                              reflexivity).
  exists inc, (round_half_even (price / inc)).
  split; [repeat split; assumption |].
  split; [rewrite E; reflexivity |].
  split.
  - rewrite E. destruct (round_half_even_near (price / inc)) as [Lo Hi].
    set (k := inject_Z (round_half_even (price / inc))) in *.
    assert (Ep : price == price / inc * inc) by (field; lra).
    apply Qabs_Qle_condition. split.
    + assert (G : price / inc * inc <= (k + (1 # 2)) * inc) by nra.
      rewrite <- Ep in G. unfold Qdiv. change (/ 2) with (1 # 2). lra.
    + assert (G : (k - (1 # 2)) * inc <= price / inc * inc) by nra.
      rewrite <- Ep in G. unfold Qdiv. change (/ 2) with (1 # 2). lra.
  - destruct (round_strike_increment (_round_strike price spot) spot)
      as (inc' & E' & _ & H1' & H2' & H3' & H4').
    assert (Einc : inc' == inc).
    { destruct (Qlt_le_dec 100 spot) as [C1 | C1];
        [rewrite (H1 C1), (H1' C1); reflexivity |].
      destruct (Qlt_le_dec 50 spot) as [C2 | C2];
        [rewrite (H2 C2 C1), (H2' C2 C1); reflexivity |].
      destruct (Qlt_le_dec 20 spot) as [C3 | C3];
        [rewrite (H3 C3 C2), (H3' C3 C2); reflexivity |].
      rewrite (H4 C3), (H4' C3). reflexivity. }
    rewrite E'.
    assert (Ek : _round_strike price spot / inc'
                 == inject_Z (round_half_even (price / inc))).
    { rewrite E, Einc. field. lra. }
    rewrite (Qcompare_half_comp _ _ Ek), round_half_even_Z, E, Einc.
    reflexivity.
Qed.

Lemma kelly_full_mono (b1 b2 p1 p2 : Q) :
  0 < b1 -> b1 <= b2 -> p1 <= p2 -> p2 <= 1 ->
  (b1 * p1 - (1 - p1)) / b1 <= (b2 * p2 - (1 - p2)) / b2.
Proof.
  intros Hb1 Hb Hp Hp2.
  assert (E1 : (b1 * p1 - (1 - p1)) / b1 == p1 - (1 - p1) / b1)
    by (field; lra).
  assert (E2 : (b2 * p2 - (1 - p2)) / b2 == p2 - (1 - p2) / b2)
    by (field; lra).
  rewrite E1, E2.
  assert (H : (1 - p2) / b2 <= (1 - p1) / b1).
  { apply Qle_shift_div_r; [lra |].
    assert (E3 : (1 - p1) / b1 * b2 == (1 - p1) * (b2 / b1)) by (field; lra).
    rewrite E3.
    assert (H1 : 1 <= b2 / b1) by (apply Qle_shift_div_l; lra).
    nra. }
  lra.
Qed.

(** Growing the edge, the win probability or the vol-regime multiplier
    never lowers the position size by more than one rounding step: for
    positive edges and win probabilities, [e1 <= e2], [w1 <= w2] and a
    multiplier that is not smaller give a size that is at most 0.1
    smaller.  The margin is the last decimal kept by [round(., 1)], on
    which the floating-point product may land either side of a tie. *)
Theorem kelly_size_monotone (e1 e2 w1 w2 iv1 iv2 : Q) (v1 v2 : string) :
  0 < e1 -> e1 <= e2 -> 0 < w1 -> w1 <= w2 ->
  regime_scale iv1 v1 <= regime_scale iv2 v2 ->
  fst (_kelly_size e1 w1 iv1 v1) <= fst (_kelly_size e2 w2 iv2 v2) + 0.1.
Proof.
  intros He1 He Hw1 Hw Hs.
  rewrite !kelly_positive_unfold by lra.
  apply Qle_trans with
    (Qmax 0.25
       (Qmin 5.0
          (py_round
             (Qmax 0
                ((if Qltb 0 (Qmax (e2 / 100) 0.5)
                  then (Qmax (e2 / 100) 0.5 * Qmin (w2 / 100) 0.9
                        - (1 - Qmin (w2 / 100) 0.9)) / Qmax (e2 / 100) 0.5
                  else 0) * 0.5)
              * regime_scale iv2 v2 * 100) 1)));
    [| lra].
  apply Q.max_le_compat_l, Q.min_le_compat_l, py_round_mono.
  assert (Hb1 : 0.5 <= Qmax (e1 / 100) 0.5) by apply Q.le_max_r.
  assert (Hb2 : 0.5 <= Qmax (e2 / 100) 0.5) by apply Q.le_max_r.
  assert (Hb : Qmax (e1 / 100) 0.5 <= Qmax (e2 / 100) 0.5).
  { apply Q.max_le_compat_r. qdiv_consts. lra. }
  assert (Hp : Qmin (w1 / 100) 0.9 <= Qmin (w2 / 100) 0.9).
  { apply Q.min_le_compat_r. qdiv_consts. lra. }
  assert (Hp2 : Qmin (w2 / 100) 0.9 <= 1).
  { eapply Qle_trans; [apply Q.le_min_r | lra]. }
  set (b1 := Qmax (e1 / 100) 0.5) in *. set (b2 := Qmax (e2 / 100) 0.5) in *.
  set (p1 := Qmin (w1 / 100) 0.9) in *. set (p2 := Qmin (w2 / 100) 0.9) in *.
  assert (T1 : Qltb 0 b1 = true) by (apply Qltb_lt; lra).
  assert (T2 : Qltb 0 b2 = true) by (apply Qltb_lt; lra).
  rewrite T1, T2.
  pose proof (kelly_full_mono b1 b2 p1 p2) as Hk.
  assert (Hk' : (b1 * p1 - (1 - p1)) / b1 <= (b2 * p2 - (1 - p2)) / b2)
    by (apply Hk; lra).
  set (k1 := (b1 * p1 - (1 - p1)) / b1) in *.
  set (k2 := (b2 * p2 - (1 - p2)) / b2) in *.
  assert (Hh : Qmax 0 (k1 * 0.5) <= Qmax 0 (k2 * 0.5))
    by (apply Q.max_le_compat_l; lra).
  pose proof (kelly_half_nonneg (k1 * 0.5)) as N1.
  pose proof (kelly_half_nonneg (k2 * 0.5)) as N2.
  assert (S1 : 0 <= regime_scale iv1 v1).
  { unfold regime_scale.
    repeat match goal with
           | |- context [if ?c then _ else _] => destruct c
           end; lra. }
  set (h1 := Qmax 0 (k1 * 0.5)) in *. set (h2 := Qmax 0 (k2 * 0.5)) in *.
  set (s1 := regime_scale iv1 v1) in *. set (s2 := regime_scale iv2 v2) in *.
  nra.
Qed.

Lemma kelly_size_monotone_witness :
  fst (_kelly_size 10 68 1 "FAIR") <= fst (_kelly_size 20 70 0.8 "FAIR") + 0.1.
Proof.
  apply kelly_size_monotone; unfold Qlt, Qle; simpl; lia.
Defined.

End DirectionalBiasFacts.

(** ** directional_engine.py: reachability and wall-break odds *)

Section WallBreakFacts.

Import GexCalculator WallBreak.
Local Open Scope R_scope.
Open Scope string_scope.

Lemma round_half_even_mono_R (x y : R) :
  x <= y -> (round_half_even x <= round_half_even y)%Z.
Proof.
  intro Hxy.
  destruct (Z_le_gt_dec (round_half_even x) (round_half_even y)) as [H | H];
    [exact H | exfalso].
  destruct (round_half_even_near_R x) as [Hx _].
  destruct (round_half_even_near_R y) as [_ Hy].
  assert (H1 : (round_half_even y + 1 <= round_half_even x)%Z) by lia.
  apply IZR_le in H1. rewrite plus_IZR in H1.
  assert (E : x = y) by lra.
  subst y. lia.
Qed.

Lemma round_half_even_IZR (n : Z) : round_half_even (IZR n) = n.
Proof. apply round_half_even_unique. lra. Qed.

Lemma round_half_even_between (lo hi : Z) (x : R) :
  IZR lo <= x <= IZR hi -> (lo <= round_half_even x <= hi)%Z.
Proof.
  intros [H1 H2]. split.
  - rewrite <- (round_half_even_IZR lo). apply round_half_even_mono_R, H1.
  - rewrite <- (round_half_even_IZR hi). apply round_half_even_mono_R, H2.
Qed.

Lemma py_round_1_between (lo hi : Z) (x : R) :
  IZR lo <= x <= IZR hi -> IZR lo <= py_round x 1 <= IZR hi.
Proof.
  intros [H1 H2]. unfold py_round.
  replace (10 ^ 1) with 10 by (simpl; lra).
  destruct (round_half_even_between (lo * 10) (hi * 10) (x * 10)) as [A B].
  { rewrite !mult_IZR. lra. }
  apply IZR_le in A, B. rewrite mult_IZR in A, B. lra.
Qed.

Lemma collision_probability_range (spot level atr_dollar : R) (dte : Z) :
  0.05 <= _collision_probability spot level atr_dollar dte <= 0.95.
Proof.
  unfold _collision_probability.
  destruct (_ || _); [lra |]. cbv zeta.
  destruct (Rltb _ _); [lra |].
  unfold Rmin, Rmax.
  repeat match goal with
         | |- context [Rle_dec ?a ?b] => destruct (Rle_dec a b)
         end; lra.
Qed.

(** The odds [_collision_probability] gives for reaching a level: always
    between 0.05 and 0.95; 0.5 when the ATR, the days to expiry or the
    level is not positive; 0.95 for a level within a cent of spot; and
    otherwise never larger for the farther of two levels. *)
Theorem collision_probability_spec (spot l1 l2 atr_dollar : R) (dte : Z) :
  0.05 <= _collision_probability spot l1 atr_dollar dte <= 0.95 /\
  (atr_dollar <= 0 \/ (dte <= 0)%Z \/ l1 <= 0 ->
   _collision_probability spot l1 atr_dollar dte = 0.5) /\
  (0 < atr_dollar -> (0 < dte)%Z -> 0 < l1 -> Rabs (spot - l1) < 0.01 ->
   _collision_probability spot l1 atr_dollar dte = 0.95) /\
  (0 < atr_dollar -> (0 < dte)%Z -> 0 < l1 -> 0 < l2 ->
   Rabs (spot - l1) <= Rabs (spot - l2) ->
   _collision_probability spot l2 atr_dollar dte
   <= _collision_probability spot l1 atr_dollar dte).
Proof.
  split; [apply collision_probability_range |].
  split; [| split].
  - intros [H | [H | H]]; unfold _collision_probability.
    + apply Rleb_le in H. rewrite H. reflexivity.
    + apply Z.leb_le in H. rewrite H, orb_true_r. reflexivity.
    + apply Rleb_le in H. rewrite H, orb_true_r. reflexivity.
  - intros Ha Hd Hl Hn. unfold _collision_probability.
    apply Rleb_gt in Ha, Hl. apply Z.leb_gt in Hd. rewrite Ha, Hd, Hl.
    cbn [orb]. cbv zeta. apply Rltb_lt in Hn. rewrite Hn. reflexivity.
  - intros Ha Hd Hl1 Hl2 Hdist.
    pose proof (collision_probability_range spot l2 atr_dollar dte) as R2.
    revert R2. unfold _collision_probability.
    pose proof Ha as Ha'. apply Rleb_gt in Ha'.
    pose proof Hd as Hd'. apply Z.leb_gt in Hd'.
    apply Rleb_gt in Hl1, Hl2. rewrite Ha', Hd', Hl1, Hl2.
    cbn [orb]. cbv zeta.
    destruct (Rltb (Rabs (spot - l1)) 0.01) eqn:E1.
    { intros [_ H]. exact H. }
    apply Rltb_ge in E1.
    assert (E2 : Rltb (Rabs (spot - l2)) 0.01 = false)
      by (apply Rltb_ge; lra).
    rewrite E2. intros _.
    set (m := atr_dollar * sqrt (IZR dte)).
    assert (Hm : 0 < m).
    { unfold m. apply Rmult_lt_0_compat; [exact Ha |].
      apply sqrt_lt_R0. apply IZR_lt. exact Hd. }
    set (d1 := Rabs (spot - l1)) in *. set (d2 := Rabs (spot - l2)) in *.
    assert (Hq : m / (2 * d2) <= m / (2 * d1)).
    { unfold Rdiv. apply Rmult_le_compat_l; [lra |].
      apply Rinv_le_contravar; lra. }
    apply Rle_min_compat_l, Rle_max_compat_l. exact Hq.
Qed.

Lemma collision_probability_spec_witness :
  _collision_probability 100 110 2 4 <= _collision_probability 100 95 2 4.
Proof.
  destruct (collision_probability_spec 100 95 110 2 4) as (_ & _ & _ & H).
  apply H; try lra; try lia.
  unfold Rabs. destruct (Rcase_abs (100 - 95)), (Rcase_abs (100 - 110)); lra.
Defined.

(** The wall-break estimate stays in range whatever the inputs: the
    reported probability is a whole number between 5 and 95, and both
    collision percentages lie between 5 and 95. *)
Theorem wall_break_probability_range
    (re_gamma : R) (re_regime : string) (acf1 pct_amp pct_damp : R)
    (phase_regime : string) (cp_ratio beta_adj atr_dollar : R) (dte : Z)
    (call_wall_strike put_wall_strike spot sei : R)
    (entropy_regime gex_regime : string) :
  let e := _estimate_wall_break_probability re_gamma re_regime acf1 pct_amp
             pct_damp phase_regime cp_ratio beta_adj atr_dollar dte
             call_wall_strike put_wall_strike spot sei entropy_regime
             gex_regime in
  (5 <= probability e <= 95)%Z /\
  5 <= collision_prob_call_wall e <= 95 /\
  5 <= collision_prob_put_wall e <= 95 /\
  (gamma_asymmetry e = -12 \/ gamma_asymmetry e = 5).
Proof.
  cbv zeta. unfold _estimate_wall_break_probability. cbv zeta.
  match goal with
  | |- context [round_half_even (Rmax 5 (Rmin 95 ?P))] =>
      generalize P; intro prob
  end.
  destruct (if (2 <=? _)%nat && _ then _ else _) as [conf expl].
  cbn [probability collision_prob_call_wall collision_prob_put_wall
       gamma_asymmetry].
  split; [| split; [| split]].
  - apply round_half_even_between.
    unfold Rmax, Rmin.
    repeat match goal with
           | |- context [Rle_dec ?a ?b] => destruct (Rle_dec a b)
           end; lra.
  - apply py_round_1_between.
    destruct (_ && _);
      [pose proof (collision_probability_range spot call_wall_strike
                     atr_dollar dte) |]; lra.
  - apply py_round_1_between.
    destruct (_ && _);
      [pose proof (collision_probability_range spot put_wall_strike
                     atr_dollar dte) |]; lra.
  - destruct (gex_regime =? "POSITIVE_GAMMA"); [left | right]; reflexivity.
Qed.

(** The confidence of the wall-break estimate is a function of the three
    verdicts: MEDIUM exactly when only Reynolds says BREAK, LOW exactly
    when Reynolds says HOLD while ACF and SEI both say BREAK, and HIGH in
    every other case; Reynolds says BREAK exactly when the beta-adjusted
    ratio exceeds 1, and the closing else-branch (all signals agree) is
    never the one that answers. *)
Theorem wall_break_confidence_table
    (re_gamma : R) (re_regime : string) (acf1 pct_amp pct_damp : R)
    (phase_regime : string) (cp_ratio beta_adj atr_dollar : R) (dte : Z)
    (call_wall_strike put_wall_strike spot sei : R)
    (entropy_regime gex_regime : string) :
  let e := _estimate_wall_break_probability re_gamma re_regime acf1 pct_amp
             pct_damp phase_regime cp_ratio beta_adj atr_dollar dte
             call_wall_strike put_wall_strike spot sei entropy_regime
             gex_regime in
  (re_says e = "BREAK" <-> 1 < re_gamma * beta_adj) /\
  (sei_says e = "BREAK" <-> 150 < sei) /\
  (confidence e = "MEDIUM" <->
   re_says e = "BREAK" /\ acf_says e = "HOLD" /\ sei_says e = "HOLD") /\
  (confidence e = "LOW" <->
   re_says e = "HOLD" /\ acf_says e = "BREAK" /\ sei_says e = "BREAK") /\
  (confidence e <> "MEDIUM" -> confidence e <> "LOW" ->
   confidence e = "HIGH") /\
  explanation e <> "All signals agree: walls hold (expect reversal)".
Proof.
  cbv zeta. unfold _estimate_wall_break_probability. cbv zeta.
  match goal with
  | |- context [round_half_even (Rmax 5 (Rmin 95 ?P))] =>
      generalize (round_half_even (Rmax 5 (Rmin 95 P))); intro prob
  end.
  generalize (py_round (re_gamma * beta_adj) 2) (py_round beta_adj 2).
  intros r1 r2.
  repeat match goal with
         | |- context [py_round (?p * 100) 1] =>
             generalize (py_round (p * 100) 1); intro
         end.
  generalize (if gex_regime =? "POSITIVE_GAMMA" then -12 else 5). intro ga.
  replace 1.0 with 1 by lra.
  destruct (Rltb 1 (re_gamma * beta_adj)) eqn:Ere;
    [apply Rltb_lt in Ere | apply Rltb_ge in Ere];
    (destruct (Rltb 150 sei) eqn:Esei;
     [apply Rltb_lt in Esei | apply Rltb_ge in Esei]);
    destruct ((Rltb pct_damp pct_amp && Rltb 0 acf1) || Rltb 0.10 acf1);
    cbn;
    repeat split; intros; try discriminate; try lra; try tauto;
    repeat match goal with
           | H : _ /\ _ |- _ => destruct H
           end; try discriminate; try congruence.
Qed.

Lemma Rabs_le_bounds (a b : R) : Rabs a <= b -> - b <= a <= b.
Proof. unfold Rabs. destruct (Rcase_abs a); lra. Qed.

Lemma round_strike_near (price spot : R) :
  Rabs (_round_strike price spot - price) <= 2.5.
Proof.
  unfold _round_strike. cbv zeta.
  set (inc := if Rltb 500 spot then 5.0 else _).
  assert (Hinc : 0 < inc <= 5).
  { unfold inc. repeat destruct (Rltb _ _); lra. }
  destruct (round_half_even_near_R (price / inc)) as [Lo Hi].
  set (k := IZR (round_half_even (price / inc))) in *.
  assert (Ep : price = price / inc * inc) by (field; lra).
  apply Rabs_le. split.
  - assert (G : price / inc * inc <= (k + 1 / 2) * inc) by nra. nra.
  - assert (G : (k - 1 / 2) * inc <= price / inc * inc) by nra. nra.
Qed.

(** With a positive ATR and at least one day to expiry, the reach clamps
    hold: a clamped target lies within [2 * atr * sqrt(dte)] of spot and
    a target already that close is returned unchanged; a clamped call
    strike is never above the desired one nor more than 2.5 above
    [spot + 1.5 * atr * sqrt(dte)], and a clamped put strike never below
    the desired one nor more than 2.5 below
    [spot - 1.5 * atr * sqrt(dte)]. *)
Theorem clamp_reach (x spot atr_dollar : R) (dte : Z) :
  0 < atr_dollar -> (0 < dte)%Z ->
  let reach := atr_dollar * sqrt (IZR dte) in
  Rabs (_clamp_target x spot atr_dollar dte - spot) <= 2 * reach /\
  (Rabs (x - spot) <= 2 * reach ->
   _clamp_target x spot atr_dollar dte = x) /\
  _clamp_strike x spot atr_dollar dte true <= x /\
  _clamp_strike x spot atr_dollar dte true <= spot + 1.5 * reach + 2.5 /\
  x <= _clamp_strike x spot atr_dollar dte false /\
  spot - 1.5 * reach - 2.5 <= _clamp_strike x spot atr_dollar dte false.
Proof.
  intros Ha Hd reach.
  assert (Hr : 0 < reach).
  { unfold reach. apply Rmult_lt_0_compat; [exact Ha |].
    apply sqrt_lt_R0, IZR_lt. exact Hd. }
  pose proof Ha as Ha'. apply Rleb_gt in Ha'.
  pose proof Hd as Hd'. apply Z.leb_gt in Hd'.
  unfold _clamp_target, _clamp_strike, _atr_max_move.
  rewrite Ha', Hd'. cbn [orb]. cbv zeta. fold reach.
  pose proof (round_strike_near (spot + reach * 1.5) spot) as Hc.
  pose proof (round_strike_near (spot - reach * 1.5) spot) as Hp.
  apply Rabs_le_bounds in Hc, Hp.
  clearbody reach.
  repeat split.
  - apply Rabs_le. unfold Rmax, Rmin.
    repeat match goal with
           | |- context [Rle_dec ?a ?b] => destruct (Rle_dec a b)
           end; lra.
  - intro Hx. apply Rabs_le_bounds in Hx.
    rewrite Rmin_right by lra. rewrite Rmax_right by lra. reflexivity.
  - apply Rmin_l.
  - eapply Rle_trans; [apply Rmin_r | lra].
  - apply Rmax_l.
  - eapply Rle_trans; [| apply Rmax_r]. lra.
Qed.

Lemma clamp_reach_witness :
  Rabs (_clamp_target 150 100 2 4 - 100) <= 2 * (2 * sqrt (IZR 4)).
Proof.
  destruct (clamp_reach 150 100 2 4) as [H _]; [lra | lia |].
  exact H.
Defined.

End WallBreakFacts.

(** ** gamma_reynolds.py: the gamma Reynolds number *)

Section GammaReynoldsFacts.

Import GexCalculator GammaReynolds.
Local Open Scope R_scope.
Open Scope string_scope.

Lemma pow10_pos_R (n : nat) : 0 < 10 ^ n.
Proof. apply pow_lt. lra. Qed.

Lemma py_round_mono_R (x y : R) (n : nat) :
  x <= y -> py_round x n <= py_round y n.
Proof.
  intro H. unfold py_round. pose proof (pow10_pos_R n) as Hp.
  apply Rmult_le_compat_r; [left; apply Rinv_0_lt_compat; exact Hp |].
  apply IZR_le, round_half_even_mono_R. nra.
Qed.

Lemma py_round_exact (z : Z) (n : nat) :
  py_round (IZR z / 10 ^ n) n = IZR z / 10 ^ n.
Proof.
  unfold py_round. pose proof (pow10_pos_R n) as Hp.
  replace (IZR z / 10 ^ n * 10 ^ n) with (IZR z) by (field; lra).
  rewrite round_half_even_IZR. reflexivity.
Qed.

Lemma py_round_4_tenths (z : Z) : py_round (IZR z / 10) 4 = IZR z / 10.
Proof.
  replace (IZR z / 10) with (IZR (z * 1000) / 10 ^ 4)
    by (rewrite mult_IZR; simpl; field).
  apply py_round_exact.
Qed.

Lemma py_round_4_lower (c x : R) (z : Z) :
  c = IZR z / 10 -> c <= x -> c <= py_round x 4.
Proof.
  intros -> H. eapply Rle_trans; [| apply py_round_mono_R, H].
  rewrite py_round_4_tenths. lra.
Qed.

Lemma py_round_4_upper (c x : R) (z : Z) :
  c = IZR z / 10 -> x <= c -> py_round x 4 <= c.
Proof.
  intros -> H. eapply Rle_trans; [apply py_round_mono_R, H |].
  rewrite py_round_4_tenths. lra.
Qed.

Lemma tally_volume_calls (spot : R) (calls : list Quote) (t : Tally) :
  t_volume (fold_left (call_step spot) calls t)
  = (t_volume t + total_of volume calls)%Z /\
  t_oi (fold_left (call_step spot) calls t)
  = (t_oi t + total_of openInterest calls)%Z.
Proof.
  revert t. induction calls as [| c calls IH]; intro t.
  - unfold total_of. simpl. lia.
  - cbn [fold_left]. destruct (IH (call_step spot t c)) as [E1 E2].
    rewrite E1, E2. unfold total_of. cbn [map fold_right].
    unfold call_step. cbv zeta.
    destruct (_ || _); cbn [t_volume t_oi]; lia.
Qed.

Lemma tally_volume_puts (spot : R) (puts : list Quote) (t : Tally) :
  t_volume (fold_left (put_step spot) puts t)
  = (t_volume t + total_of volume puts)%Z /\
  t_oi (fold_left (put_step spot) puts t)
  = (t_oi t + total_of openInterest puts)%Z /\
  t_speculative (fold_left (put_step spot) puts t) = t_speculative t.
Proof.
  revert t. induction puts as [| c puts IH]; intro t.
  - unfold total_of. simpl. repeat split; lia.
  - cbn [fold_left]. destruct (IH (put_step spot t c)) as (E1 & E2 & E3).
    rewrite E1, E2, E3. unfold total_of. cbn [map fold_right].
    unfold put_step. cbv zeta.
    destruct (_ || _); cbn [t_volume t_oi t_speculative];
      repeat split; lia.
Qed.

Lemma capped_range (re : Ratio) :
  (forall r, re = Finite r -> 0 <= r) -> 0 <= capped re 99 <= 99.
Proof.
  intro H. destruct re as [r |]; simpl; [| lra].
  specialize (H r eq_refl). unfold Rmin. destruct (Rle_dec r 99); lra.
Qed.

(** The Reynolds number and its regime agree: the reported number lies
    in [0, 99]; the result is UNKNOWN exactly when a leg is empty or spot
    is not positive; LAMINAR comes with a number of at most 0.7,
    TRANSITIONAL with one between 0.7 and 1, TURBULENT with one of at
    least 1; and past the guard the volume and open-interest totals count
    every record, also those whose strike or IV is skipped. *)
Theorem gamma_reynolds_regime (calls puts : list Quote) (spot : R) :
  let r := compute_gamma_reynolds calls puts spot in
  0 <= reynolds_number r <= 99 /\
  (regime r = "UNKNOWN" <-> calls = [] \/ puts = [] \/ spot <= 0) /\
  (regime r = "UNKNOWN" -> r = unknown) /\
  (regime r = "LAMINAR" -> reynolds_number r <= 0.7) /\
  (regime r = "TRANSITIONAL" -> 0.7 <= reynolds_number r <= 1) /\
  (regime r = "TURBULENT" -> 1 <= reynolds_number r) /\
  (regime r <> "UNKNOWN" ->
   call_volume r = total_of volume calls /\
   put_volume r = total_of volume puts /\
   call_oi r = total_of openInterest calls /\
   put_oi r = total_of openInterest puts).
Proof.
  cbv zeta. unfold compute_gamma_reynolds.
  destruct calls as [| c0 calls0] eqn:Ec.
  { simpl. repeat split; intros; try discriminate; try lra; try tauto;
      try contradiction. }
  destruct puts as [| p0 puts0] eqn:Ep.
  { simpl. repeat split; intros; try discriminate; try lra; try tauto;
      try contradiction. }
  rewrite <- Ec, <- Ep.
  destruct (Rleb spot 0) eqn:G.
  { apply Rleb_le in G.
    simpl. repeat split; intros; try discriminate; try lra; try tauto;
      try contradiction. }
  apply Rleb_gt in G. cbv zeta.
  set (t0 := {| t_volume := 0; t_oi := 0; t_speculative := 0; t_dealer := 0;
                t_atm_ivs := [] |}).
  set (ac := fold_left (call_step spot) calls t0).
  set (ap := fold_left (put_step spot) puts _).
  destruct (tally_volume_calls spot calls t0) as [V1 O1].
  fold ac in V1, O1.
  destruct (tally_volume_puts spot puts
              {| t_volume := 0; t_oi := 0;
                 t_speculative := t_speculative ac;
                 t_dealer := t_dealer ac;
                 t_atm_ivs := t_atm_ivs ac |}) as (V2 & O2 & _).
  fold ap in V2, O2. unfold t0 in V1, O1.
  cbn [t_volume t_oi] in V1, O1, V2, O2.
  set (re := if Rltb (Rabs (t_dealer ap)) 0.000001 then _ else _).
  assert (Hre : forall x, re = Finite x -> 0 <= x).
  { intros x. unfold re.
    destruct (Rltb (Rabs (t_dealer ap)) 0.000001).
    - destruct (Rltb 0 (t_speculative ap)); [discriminate |].
      intro E. injection E as <-. lra.
    - intro E. injection E as <-. apply Rabs_pos. }
  clearbody re.
  cbn [reynolds_number regime call_volume put_volume call_oi put_oi].
  pose proof (capped_range re Hre) as Hc.
  assert (Hmin : forall x, Rmin x 99 <= x /\ Rmin x 99 <= 99 /\
                           (x <= 99 -> Rmin x 99 = x) /\
                           (99 <= x -> Rmin x 99 = 99)).
  { intro x. unfold Rmin. destruct (Rle_dec x 99); repeat split; lra. }
  split.
  { split; [apply (py_round_4_lower _ _ 0) | apply (py_round_4_upper _ _ 990)];
      lra. }
  replace 1.0 with 1 by lra.
  split.
  { split.
    - destruct (exceeds re 1); [discriminate |].
      destruct (exceeds re 0.7); discriminate.
    - intros [H | [H | H]]; [rewrite Ec in H; discriminate H
                            | rewrite Ep in H; discriminate H | lra]. }
  split.
  { destruct (exceeds re 1); [discriminate |].
    destruct (exceeds re 0.7); discriminate. }
  destruct re as [x |]; cbn [exceeds capped] in *.
  - destruct (Hmin x) as (M1 & M2 & M3 & M4).
    destruct (Rltb 1 x) eqn:T1; [apply Rltb_lt in T1 | apply Rltb_ge in T1].
    + repeat split; intros; try discriminate; try lia.
      apply (py_round_4_lower _ _ 10); [lra |].
      destruct (Rle_dec x 99); [rewrite M3 | rewrite M4]; lra.
    + rewrite M3 by lra.
      destruct (Rltb 0.7 x) eqn:T7;
        [apply Rltb_lt in T7 | apply Rltb_ge in T7];
        repeat split; intros; try discriminate; try lia;
        first [ apply (py_round_4_lower _ _ 7); lra
              | apply (py_round_4_upper _ _ 10); lra
              | apply (py_round_4_upper _ _ 7); lra ].
  - repeat split; intros; try discriminate; try lia.
    apply (py_round_4_lower _ _ 10); lra.
Qed.

Lemma quiet_calls_no_speculation (spot : R) (calls : list Quote) (t : Tally) :
  Forall (fun c => get (volume c) 0%Z = 0%Z \/
                   0.10 < Rabs (get (strike c) 0 - spot) / spot) calls ->
  t_speculative (fold_left (call_step spot) calls t) = t_speculative t.
Proof.
  intro H. revert t. induction H as [| c calls Hc _ IH]; intro t;
    [reflexivity |].
  cbn [fold_left]. rewrite IH. unfold call_step. cbv zeta.
  destruct (_ || _); [reflexivity |]. cbn [t_speculative].
  destruct (Rleb (Rabs (get (strike c) 0 - spot) / spot) 0.10) eqn:N;
    [| reflexivity].
  apply Rleb_le in N. destruct Hc as [Hv | Hf]; [| lra].
  rewrite Hv. simpl. ring.
Qed.

(** Without call volume near the money there is no turbulence: when
    every call either trades no volume or has its strike more than 10%
    away from spot, the speculative gamma is 0, the Reynolds number is 0
    and the regime is LAMINAR, whatever the open interest and the puts. *)
Theorem quiet_calls_laminar (calls puts : list Quote) (spot : R) :
  calls <> [] -> puts <> [] -> 0 < spot ->
  Forall (fun c => get (volume c) 0%Z = 0%Z \/
                   0.10 < Rabs (get (strike c) 0 - spot) / spot) calls ->
  let r := compute_gamma_reynolds calls puts spot in
  regime r = "LAMINAR" /\ reynolds_number r = 0 /\ speculative_gamma r = 0.
Proof.
  intros Hc Hp Hs Hq. cbv zeta. unfold compute_gamma_reynolds.
  destruct calls as [| c0 calls0] eqn:Ec; [contradiction |].
  destruct puts as [| p0 puts0] eqn:Ep; [contradiction |].
  rewrite <- Ec, <- Ep in *.
  apply Rleb_gt in Hs. rewrite Hs. cbv zeta.
  set (t0 := {| t_volume := 0; t_oi := 0; t_speculative := 0; t_dealer := 0;
                t_atm_ivs := [] |}).
  set (ac := fold_left (call_step spot) calls t0).
  set (ap := fold_left (put_step spot) puts _).
  assert (Es : t_speculative ap = 0).
  { destruct (tally_volume_puts spot puts
                {| t_volume := 0; t_oi := 0;
                   t_speculative := t_speculative ac;
                   t_dealer := t_dealer ac;
                   t_atm_ivs := t_atm_ivs ac |}) as (_ & _ & E).
    fold ap in E. rewrite E. cbn [t_speculative]. unfold ac.
    rewrite (quiet_calls_no_speculation spot calls t0 Hq). reflexivity. }
  rewrite Es.
  assert (Ere : (if Rltb (Rabs (t_dealer ap)) 0.000001
                 then if Rltb 0 0 then Infinite else Finite 0
                 else Finite (Rabs (0 / t_dealer ap))) = Finite 0).
  { rewrite Rltb_irrefl. destruct (Rltb _ _); [reflexivity |].
    f_equal. unfold Rdiv. rewrite Rmult_0_l. apply Rabs_R0. }
  rewrite Ere. cbn [exceeds capped reynolds_number regime speculative_gamma].
  assert (F1 : Rltb 1.0 0 = false) by (apply Rltb_ge; lra).
  assert (F7 : Rltb 0.7 0 = false) by (apply Rltb_ge; lra).
  rewrite F1, F7.
  assert (Em : Rmin 0 99 = 0) by (apply Rmin_left; lra).
  rewrite Em.
  assert (Z4 : py_round 0 4 = 0).
  { pose proof (py_round_exact 0 4) as H.
    replace (IZR 0 / 10 ^ 4) with 0 in H by (simpl; lra). exact H. }
  assert (Z2 : py_round 0 2 = 0).
  { pose proof (py_round_exact 0 2) as H.
    replace (IZR 0 / 10 ^ 2) with 0 in H by (simpl; lra). exact H. }
  rewrite Z4, Z2. repeat split; reflexivity.
Qed.

Lemma quiet_calls_laminar_witness :
  regime (compute_gamma_reynolds
            [ {| strike := Some 100; volume := None;
                 openInterest := Some 500%Z; impliedVolatility := Some 0.3 |} ]
            [ {| strike := Some 95; volume := Some 40%Z;
                 openInterest := Some 300%Z; impliedVolatility := Some 0.3 |} ]
            100)
  = "LAMINAR".
Proof.
  apply quiet_calls_laminar; try discriminate; try lra.
  repeat constructor.
Defined.

End GammaReynoldsFacts.

(** ** gex_calculator.py: the shape of the profile *)

Section ProfileShape.

Import GexCalculator GexAux.
Local Open Scope R_scope.
Open Scope string_scope.

Lemma Reqb_eq (x y : R) : Reqb x y = true <-> x = y.
Proof.
  unfold Reqb. destruct (Req_dec_T x y); split; intro H;
    try reflexivity; try assumption; try discriminate; contradiction.
Qed.

Lemma add_strike_In_R (k x : R) (l : list R) :
  In x (add_strike k l) <-> x = k \/ In x l.
Proof.
  induction l as [| y l IH]; simpl; [intuition |].
  destruct (Rltb k y); [simpl; intuition |].
  destruct (Reqb k y) eqn:E.
  - apply Reqb_eq in E. subst y. simpl. intuition.
  - simpl. rewrite IH. intuition.
Qed.

Lemma add_strike_sorted_R (k : R) (l : list R) :
  StronglySorted Rlt l -> StronglySorted Rlt (add_strike k l).
Proof.
  induction 1 as [| y l Hs IH Hall]; simpl.
  - repeat constructor.
  - destruct (Rltb k y) eqn:E1.
    + apply Rltb_lt in E1. constructor; [constructor; assumption |].
      constructor; [exact E1 |].
      eapply Forall_impl; [| exact Hall]. intros a Ha. simpl in Ha. lra.
    + apply Rltb_ge in E1. destruct (Reqb k y) eqn:E2.
      * constructor; assumption.
      * assert (Hne : k <> y) by (intro Hc; apply Reqb_eq in Hc; congruence).
        constructor; [exact IH |].
        apply Forall_forall. intros a Ha. apply add_strike_In_R in Ha.
        destruct Ha as [-> | Ha]; [lra |].
        rewrite Forall_forall in Hall. apply Hall, Ha.
Qed.

Lemma collect_strikes_sorted (leg : list Quote) (acc : list R) :
  StronglySorted Rlt acc -> StronglySorted Rlt (collect_strikes leg acc).
Proof.
  unfold collect_strikes. revert acc.
  induction leg as [| c leg IH]; intros acc H; [exact H |].
  cbn [fold_left]. apply IH.
  destruct (Rleb (strike_of c) 0); [exact H | apply add_strike_sorted_R, H].
Qed.

Lemma collect_strikes_In (leg : list Quote) (acc : list R) (k : R) :
  In k (collect_strikes leg acc) <->
  In k acc \/ (0 < k /\ exists c, In c leg /\ strike_of c = k).
Proof.
  unfold collect_strikes. revert acc.
  induction leg as [| c leg IH]; intro acc; cbn [fold_left].
  - split; [intro H; left; exact H |].
    intros [H | (_ & c & [] & _)]. exact H.
  - rewrite IH. destruct (Rleb (strike_of c) 0) eqn:E.
    + apply Rleb_le in E. split.
      * intros [H | (Hk & q & Hq & Eq)]; [left; exact H |].
        right. split; [exact Hk |]. exists q. split; [right; exact Hq | exact Eq].
      * intros [H | (Hk & q & [<- | Hq] & Eq)]; [left; exact H | lra |].
        right. split; [exact Hk |]. exists q. split; assumption.
    + apply Rleb_gt in E. rewrite add_strike_In_R. split.
      * intros [[-> | H] | (Hk & q & Hq & Eq)].
        -- right. split; [exact E |]. exists c. split; [left |]; reflexivity.
        -- left; exact H.
        -- right. split; [exact Hk |]. exists q.
           split; [right; exact Hq | exact Eq].
      * intros [H | (Hk & q & [<- | Hq] & Eq)].
        -- left. right. exact H.
        -- left. left. symmetry. exact Eq.
        -- right. split; [exact Hk |]. exists q. split; assumption.
Qed.

Lemma profile_rows (calls puts : list Quote) (spot : R) (dte : Z) (r : R) :
  gex_by_strike (calculate_gex_profile calls puts spot dte r)
  = map (make_row calls puts spot dte r)
        (collect_strikes puts (collect_strikes calls [])).
Proof. reflexivity. Qed.

Lemma profile_row_strikes (calls puts : list Quote) (spot : R) (dte : Z)
    (r : R) :
  map row_strike (gex_by_strike (calculate_gex_profile calls puts spot dte r))
  = collect_strikes puts (collect_strikes calls []).
Proof.
  rewrite profile_rows, map_map. unfold make_row. cbn [row_strike].
  apply map_id.
Qed.

Lemma py_round_zero (n : nat) : py_round 0 n = 0.
Proof.
  unfold py_round. rewrite Rmult_0_l.
  rewrite (round_half_even_IZR 0). unfold Rdiv. apply Rmult_0_l.
Qed.

Lemma profile_strikes_sorted (calls puts : list Quote) (spot : R) (dte : Z)
    (r : R) :
  StronglySorted Rlt
    (map row_strike
         (gex_by_strike (calculate_gex_profile calls puts spot dte r))).
Proof.
  rewrite profile_row_strikes.
  apply collect_strikes_sorted, collect_strikes_sorted. constructor.
Qed.

(** The rows of the profile are the distinct positive strikes of the
    chain, lowest first: their strikes strictly increase, each is a
    positive strike of some call or put, and every such strike has its
    row.  A chain without a positive strike gives no rows, zero totals,
    no flip point, the spot as absolute-gamma strike and regime
    POSITIVE_GAMMA. *)
Theorem profile_strikes (calls puts : list Quote) (spot : R) (dte : Z)
    (r : R) :
  let p := calculate_gex_profile calls puts spot dte r in
  let ks := map row_strike (gex_by_strike p) in
  StronglySorted Rlt ks /\
  (forall k, In k ks <->
             0 < k /\ exists q, In q (calls ++ puts) /\ strike_of q = k) /\
  (Forall (fun q => strike_of q <= 0) (calls ++ puts) ->
   gex_by_strike p = [] /\ total_gex p = 0 /\ total_call_gex p = 0 /\
   total_put_gex p = 0 /\ flip_point p = None /\
   abs_gamma_strike p = spot /\ regime p = "POSITIVE_GAMMA").
Proof.
  intros p ks.
  assert (Eks : ks = collect_strikes puts (collect_strikes calls []))
    by apply profile_row_strikes.
  split; [| split].
  - rewrite Eks. apply collect_strikes_sorted, collect_strikes_sorted.
    constructor.
  - intro k. rewrite Eks, collect_strikes_In, collect_strikes_In.
    split.
    + intros [[[] | (Hk & q & Hq & E)] | (Hk & q & Hq & E)];
        (split; [exact Hk |]); exists q; (split; [| exact E]);
        apply in_or_app; [left | right]; exact Hq.
    + intros (Hk & q & Hq & E). apply in_app_or in Hq.
      destruct Hq as [Hq | Hq]; [left; right | right];
        (split; [exact Hk |]); exists q; split; assumption.
  - intro Hall.
    assert (Enil : collect_strikes puts (collect_strikes calls []) = []).
    { destruct (collect_strikes puts (collect_strikes calls []))
        as [| k l] eqn:E; [reflexivity | exfalso].
      assert (Hin : In k (collect_strikes puts (collect_strikes calls [])))
        by (rewrite E; left; reflexivity).
      rewrite collect_strikes_In, collect_strikes_In in Hin.
      rewrite Forall_forall in Hall.
      destruct Hin as [[[] | (Hk & q & Hq & Eq)] | (Hk & q & Hq & Eq)].
      - specialize (Hall q (in_or_app _ _ _ (or_introl Hq))). lra.
      - specialize (Hall q (in_or_app _ _ _ (or_intror Hq))). lra. }
    unfold p, calculate_gex_profile. cbv zeta. rewrite Enil.
    cbn [map gex_by_strike total_gex total_call_gex total_put_gex flip_point
         abs_gamma_strike regime accumulate fold_left _find_gex_flip length
         Nat.ltb Nat.leb].
    rewrite Rplus_0_l, py_round_zero.
    assert (T : Rleb 0 0 = true) by (apply Rleb_le; lra).
    rewrite T. repeat split; reflexivity.
Qed.

Lemma black_scholes_gamma_nonneg (S K T r sigma : R) :
  0 <= black_scholes_gamma S K T r sigma.
Proof.
  destruct (Rle_dec T 0) as [HT | HT];
    [unfold black_scholes_gamma; rewrite guard_true by tauto; lra |].
  destruct (Rle_dec sigma 0) as [Hs | Hs];
    [unfold black_scholes_gamma; rewrite guard_true by tauto; lra |].
  destruct (Rle_dec S 0) as [HS | HS];
    [unfold black_scholes_gamma; rewrite guard_true by tauto; lra |].
  left. apply black_scholes_gamma_pos; lra.
Qed.

Lemma leg_get_from (leg : list Quote) (k : R) (found : option Quote) :
  let res := fold_left
               (fun found c => if Rleb (strike_of c) 0 then found
                               else if Reqb (strike_of c) k then Some c
                                    else found) leg found in
  res = found \/ exists c, res = Some c /\ In c leg /\ strike_of c = k.
Proof.
  revert found. induction leg as [| c leg IH]; intro found; cbn [fold_left];
    [left; reflexivity |].
  cbv zeta in *.
  destruct (Rleb (strike_of c) 0).
  - destruct (IH found) as [H | (q & H1 & H2 & H3)]; [left; exact H |].
    right. exists q. repeat split; try assumption. right. exact H2.
  - destruct (Reqb (strike_of c) k) eqn:E.
    + apply Reqb_eq in E.
      destruct (IH (Some c)) as [H | (q & H1 & H2 & H3)].
      * right. exists c. repeat split; try assumption. left. reflexivity.
      * right. exists q. repeat split; try assumption. right. exact H2.
    + destruct (IH found) as [H | (q & H1 & H2 & H3)]; [left; exact H |].
      right. exists q. repeat split; try assumption. right. exact H2.
Qed.

Lemma leg_get_In (leg : list Quote) (k : R) (c : Quote) :
  leg_get leg k = Some c -> In c leg /\ strike_of c = k.
Proof.
  intro H. unfold leg_get in H.
  destruct (leg_get_from leg k None) as [E | (q & E & Hq & Ek)];
    cbv zeta in E; rewrite E in H; [discriminate |].
  injection H as <-. split; assumption.
Qed.

Lemma leg_oi_nonneg (leg : list Quote) (k : R) :
  Forall (fun c => (0 <= get (openInterest c) 0)%Z) leg ->
  (0 <= leg_oi leg k)%Z.
Proof.
  intro H. unfold leg_oi. destruct (leg_get leg k) as [c |] eqn:E; [| lia].
  apply leg_get_In in E. rewrite Forall_forall in H. apply H, E.
Qed.

Lemma leg_oi_nil (k : R) : leg_oi [] k = 0%Z.
Proof. reflexivity. Qed.

Lemma raw_call_gex_nonneg (calls : list Quote) (spot : R) (dte : Z)
    (r k : R) :
  Forall (fun c => (0 <= get (openInterest c) 0)%Z) calls ->
  0 <= raw_call_gex calls spot dte r k.
Proof.
  intro H. unfold raw_call_gex, SHARES_PER_CONTRACT.
  pose proof (leg_oi_nonneg calls k H) as Hoi. apply IZR_le in Hoi.
  destruct (Rle_dec spot 0) as [Hs | Hs].
  - unfold black_scholes_gamma. rewrite guard_true by tauto. lra.
  - pose proof (black_scholes_gamma_nonneg spot k (time_to_expiry dte) r
                  (leg_iv calls k)) as Hg.
    repeat apply Rmult_le_pos; lra.
Qed.

Lemma raw_put_gex_nonpos (puts : list Quote) (spot : R) (dte : Z)
    (r k : R) :
  Forall (fun c => (0 <= get (openInterest c) 0)%Z) puts ->
  raw_put_gex puts spot dte r k <= 0.
Proof.
  intro H. unfold raw_put_gex, SHARES_PER_CONTRACT.
  pose proof (leg_oi_nonneg puts k H) as Hoi. apply IZR_le in Hoi.
  destruct (Rle_dec spot 0) as [Hs | Hs].
  - unfold black_scholes_gamma. rewrite guard_true by tauto. lra.
  - pose proof (black_scholes_gamma_nonneg spot k (time_to_expiry dte) r
                  (leg_iv puts k)) as Hg.
    set (g := black_scholes_gamma _ _ _ _ _) in *.
    assert (0 <= g * IZR (leg_oi puts k) * 100 * spot)
      by (repeat apply Rmult_le_pos; lra).
    lra.
Qed.

Lemma accumulate_shift (f : R -> R) (ks : list R) (a : R) :
  fold_left (fun total k => total + f k) ks a
  = a + fold_right Rplus 0 (map f ks).
Proof.
  revert a. induction ks as [| k ks IH]; intro a; simpl; [lra |].
  rewrite IH. lra.
Qed.

Lemma accumulate_sum (f : R -> R) (ks : list R) :
  accumulate f ks = fold_right Rplus 0 (map f ks).
Proof. unfold accumulate. rewrite accumulate_shift. lra. Qed.

Lemma sum_nonneg (xs : list R) :
  Forall (fun x => 0 <= x) xs -> 0 <= fold_right Rplus 0 xs.
Proof. induction 1; simpl; lra. Qed.

Lemma sum_nonpos (xs : list R) :
  Forall (fun x => x <= 0) xs -> fold_right Rplus 0 xs <= 0.
Proof. induction 1; simpl; lra. Qed.

Lemma py_round_nonneg_R (x : R) (n : nat) : 0 <= x -> 0 <= py_round x n.
Proof.
  intro H. rewrite <- (py_round_zero n). apply py_round_mono_R, H.
Qed.

Lemma py_round_nonpos_R (x : R) (n : nat) : x <= 0 -> py_round x n <= 0.
Proof.
  intro H. rewrite <- (py_round_zero n). apply py_round_mono_R, H.
Qed.

Lemma same_sign_no_change (rows : list Row) :
  Forall (fun row => 0 <= net_gex row) rows \/
  Forall (fun row => net_gex row <= 0) rows ->
  no_adjacent_sign_change rows.
Proof.
  induction rows as [| r1 rows IH]; [intros _; exact I |].
  destruct rows as [| r2 rows]; [intros _; exact I |].
  intro H. split.
  - unfold opposite_signed.
    destruct H as [H | H]; inversion H as [| ? ? H1 H']; subst;
      inversion H' as [| ? ? H2 _]; subst; lra.
  - apply IH. destruct H as [H | H]; inversion H; subst; tauto.
Qed.

(** The signs of dealer gamma.  With non-negative open interest every row
    has [call_gex >= 0] and [put_gex <= 0], and so have the totals.  A
    chain without puts then has no flip point and regime POSITIVE_GAMMA;
    a chain without calls has no flip point and a total that is not
    positive, and its regime is NEGATIVE_GAMMA whenever the returned
    total is negative. *)
Theorem dealer_gamma_signs (calls puts : list Quote) (spot : R) (dte : Z)
    (r : R) :
  Forall (fun c => (0 <= get (openInterest c) 0)%Z) calls ->
  Forall (fun c => (0 <= get (openInterest c) 0)%Z) puts ->
  let p := calculate_gex_profile calls puts spot dte r in
  Forall (fun row => 0 <= call_gex row /\ put_gex row <= 0) (gex_by_strike p)
  /\ 0 <= total_call_gex p /\ total_put_gex p <= 0 /\
  (puts = [] -> flip_point p = None /\ regime p = "POSITIVE_GAMMA") /\
  (calls = [] ->
   flip_point p = None /\ total_gex p <= 0 /\
   (total_gex p < 0 -> regime p = "NEGATIVE_GAMMA")).
Proof.
  intros Hc Hp p.
  set (ks := collect_strikes puts (collect_strikes calls [])).
  assert (Hrows : gex_by_strike p = map (make_row calls puts spot dte r) ks)
    by reflexivity.
  assert (Htc : 0 <= accumulate (raw_call_gex calls spot dte r) ks).
  { rewrite accumulate_sum. apply sum_nonneg, Forall_map, Forall_forall.
    intros k _. apply raw_call_gex_nonneg, Hc. }
  assert (Htp : accumulate (raw_put_gex puts spot dte r) ks <= 0).
  { rewrite accumulate_sum. apply sum_nonpos, Forall_map, Forall_forall.
    intros k _. apply raw_put_gex_nonpos, Hp. }
  split; [| split; [| split; [| split]]].
  - rewrite Hrows. apply Forall_map, Forall_forall. intros k _.
    unfold make_row. cbn [call_gex put_gex]. split.
    + apply py_round_nonneg_R, raw_call_gex_nonneg, Hc.
    + apply py_round_nonpos_R, raw_put_gex_nonpos, Hp.
  - unfold p, calculate_gex_profile. cbn [total_call_gex].
    apply py_round_nonneg_R. exact Htc.
  - unfold p, calculate_gex_profile. cbn [total_put_gex].
    apply py_round_nonpos_R. exact Htp.
  - intros ->.
    assert (Hns : no_adjacent_sign_change (gex_by_strike p)).
    { apply same_sign_no_change. left. rewrite Hrows.
      apply Forall_map, Forall_forall. intros k _.
      unfold make_row. cbn [net_gex]. apply py_round_nonneg_R.
      pose proof (raw_call_gex_nonneg calls spot dte r k Hc).
      assert (E : raw_put_gex [] spot dte r k = 0).
      { unfold raw_put_gex. rewrite leg_oi_nil. simpl. ring. }
      rewrite E. lra. }
    unfold p, calculate_gex_profile in *. cbn [gex_by_strike] in Hns.
    cbn [flip_point regime].
    rewrite (no_sign_change_no_flip _ spot Hns).
    split; [reflexivity |].
    fold ks.
    assert (Eput : accumulate (raw_put_gex [] spot dte r) ks = 0).
    { rewrite accumulate_sum. clear. induction ks as [| k ks IH]; simpl;
        [reflexivity |].
      rewrite IH. unfold raw_put_gex. rewrite leg_oi_nil. simpl. ring. }
    assert (T : Rleb 0 (accumulate (raw_call_gex calls spot dte r) ks
                        + accumulate (raw_put_gex [] spot dte r) ks) = true)
      by (apply Rleb_le; lra).
    rewrite T. reflexivity.
  - intros ->.
    assert (Hns : no_adjacent_sign_change (gex_by_strike p)).
    { apply same_sign_no_change. right. rewrite Hrows.
      apply Forall_map, Forall_forall. intros k _.
      unfold make_row. cbn [net_gex]. apply py_round_nonpos_R.
      pose proof (raw_put_gex_nonpos puts spot dte r k Hp).
      assert (E : raw_call_gex [] spot dte r k = 0).
      { unfold raw_call_gex. rewrite leg_oi_nil. simpl. ring. }
      rewrite E. lra. }
    unfold p, calculate_gex_profile in *. cbn [gex_by_strike] in Hns.
    cbn [flip_point regime total_gex].
    rewrite (no_sign_change_no_flip _ spot Hns).
    split; [reflexivity |].
    fold ks.
    assert (Ecall : accumulate (raw_call_gex [] spot dte r) ks = 0).
    { rewrite accumulate_sum. clear. induction ks as [| k ks IH]; simpl;
        [reflexivity |].
      rewrite IH. unfold raw_call_gex. rewrite leg_oi_nil. simpl. ring. }
    rewrite Ecall. split.
    + apply py_round_nonpos_R. lra.
    + intro Hneg.
      destruct (Rleb 0 (0 + accumulate (raw_put_gex puts spot dte r) ks))
        eqn:T; [| reflexivity].
      apply Rleb_le in T.
      pose proof (py_round_nonneg_R _ 2 T). lra.
Qed.

Lemma dealer_gamma_signs_witness :
  regime (calculate_gex_profile [make_option 100 10 0.3] [] 100 5 0.05)
  = "POSITIVE_GAMMA".
Proof.
  destruct (dealer_gamma_signs [make_option 100 10 0.3] [] 100 5 0.05)
    as (_ & _ & _ & H & _).
  - repeat constructor. simpl. lia.
  - constructor.
  - apply H. reflexivity.
Defined.

(** *** The flip point *)

Lemma min_from_spec {A : Type} (key : A -> R) (xs : list A) (best : A) :
  In (min_from key best xs) (best :: xs) /\
  forall x, In x (best :: xs) -> key (min_from key best xs) <= key x.
Proof.
  revert best. induction xs as [| y xs IH]; intro best; cbn [min_from].
  - split; [left; reflexivity |]. intros x [<- | []]. lra.
  - destruct (IH (if Rltb (key y) (key best) then y else best)) as [Hin Hle].
    split.
    + destruct Hin as [E | Hin]; [| right; right; exact Hin].
      rewrite <- E. destruct (Rltb (key y) (key best));
        [right; left | left]; reflexivity.
    + intros x Hx.
      assert (Hb : key (min_from key (if Rltb (key y) (key best)
                                      then y else best) xs)
                   <= key best /\
                   key (min_from key (if Rltb (key y) (key best)
                                      then y else best) xs)
                   <= key y).
      { pose proof (Hle _ (or_introl eq_refl)) as H0.
        destruct (Rltb (key y) (key best)) eqn:E;
          [apply Rltb_lt in E | apply Rltb_ge in E]; lra. }
      destruct Hx as [<- | [<- | Hx]]; [tauto | tauto |].
      apply Hle. right. exact Hx.
Qed.

Lemma crossings_adjacent (rows : list Row) (x : R) :
  In x (crossings rows) ->
  exists l1 r1 r2 l2,
    rows = (l1 ++ r1 :: r2 :: l2)%list /\
    net_gex r1 * net_gex r2 < 0 /\
    x = py_round (row_strike r1
                  + (row_strike r2 - row_strike r1) * Rabs (net_gex r1)
                    / (Rabs (net_gex r1) + Rabs (net_gex r2))) 2.
Proof.
  induction rows as [| r1 rows IH]; [intros [] |].
  destruct rows as [| r2 rows]; [intros [] |].
  change (crossings (r1 :: r2 :: rows)) with
    (if Rltb (net_gex r1 * net_gex r2) 0
     then py_round (row_strike r1
                    + (row_strike r2 - row_strike r1) * Rabs (net_gex r1)
                      / (Rabs (net_gex r1) + Rabs (net_gex r2))) 2
          :: crossings (r2 :: rows)
     else crossings (r2 :: rows)).
  intro H.
  assert (Hrest : In x (crossings (r2 :: rows)) ->
                  exists l1 a b l2,
                    r1 :: r2 :: rows = (l1 ++ a :: b :: l2)%list /\
                    net_gex a * net_gex b < 0 /\
                    x = py_round (row_strike a
                                  + (row_strike b - row_strike a)
                                    * Rabs (net_gex a)
                                    / (Rabs (net_gex a) + Rabs (net_gex b))) 2).
  { intro Hin. destruct (IH Hin) as (l1 & a & b & l2 & E & Hs & Ex).
    exists (r1 :: l1), a, b, l2. rewrite E. repeat split; assumption. }
  destruct (Rltb (net_gex r1 * net_gex r2) 0) eqn:E; [| exact (Hrest H)].
  destruct H as [<- | H]; [| exact (Hrest H)].
  apply Rltb_lt in E. exists [], r1, r2, rows. repeat split. exact E.
Qed.

Lemma crossings_nil_no_change (rows : list Row) :
  crossings rows = [] -> no_adjacent_sign_change rows.
Proof.
  induction rows as [| r1 rows IH]; [intros _; exact I |].
  destruct rows as [| r2 rows]; [intros _; exact I |].
  change (crossings (r1 :: r2 :: rows)) with
    (if Rltb (net_gex r1 * net_gex r2) 0
     then py_round (row_strike r1
                    + (row_strike r2 - row_strike r1) * Rabs (net_gex r1)
                      / (Rabs (net_gex r1) + Rabs (net_gex r2))) 2
          :: crossings (r2 :: rows)
     else crossings (r2 :: rows)).
  destruct (Rltb (net_gex r1 * net_gex r2) 0) eqn:E; [discriminate |].
  apply Rltb_ge in E. intro H. split; [| apply IH, H].
  unfold opposite_signed. intros [[H1 H2] | [H1 H2]]; nra.
Qed.

Lemma crossings_short (rows : list Row) :
  (length rows < 2)%nat -> crossings rows = [].
Proof.
  destruct rows as [| r1 [| r2 rows]]; simpl; intro H;
    [reflexivity | reflexivity | lia].
Qed.

Lemma interpolation_between (s1 s2 g1 g2 : R) :
  s1 < s2 -> g1 * g2 < 0 ->
  s1 < s1 + (s2 - s1) * Rabs g1 / (Rabs g1 + Rabs g2) < s2.
Proof.
  intros Hs Hg.
  assert (H1 : 0 < Rabs g1) by (apply Rabs_pos_lt; intro E; subst; lra).
  assert (H2 : 0 < Rabs g2) by (apply Rabs_pos_lt; intro E; subst; lra).
  set (a := Rabs g1) in *. set (b := Rabs g2) in *.
  assert (Hw : 0 < a / (a + b) < 1).
  { split.
    - apply Rdiv_lt_0_compat; lra.
    - apply Rmult_lt_reg_r with (a + b); [lra |].
      unfold Rdiv. rewrite Rmult_assoc, Rinv_l by lra. lra. }
  replace ((s2 - s1) * a / (a + b)) with ((s2 - s1) * (a / (a + b)))
    by (unfold Rdiv; ring).
  set (w := a / (a + b)) in *. nra.
Qed.

Lemma sorted_app_adjacent (l1 l2 : list Row) (r1 r2 : Row) :
  StronglySorted Rlt (map row_strike (l1 ++ r1 :: r2 :: l2)) ->
  row_strike r1 < row_strike r2.
Proof.
  induction l1 as [| x l1 IH]; simpl; intro H.
  - inversion H as [| ? ? _ Hall]; subst.
    inversion Hall; subst. assumption.
  - inversion H; subst. apply IH. assumption.
Qed.

(** The flip point of a profile.  There is none exactly when no two
    neighbouring rows carry net GEX of opposite sign.  When there is
    one, it is the cent-rounded linear interpolation between two
    neighbouring strikes of opposite-signed net GEX, a point strictly
    between them; no other crossing is nearer to spot; and the regime is
    POSITIVE_GAMMA exactly when spot is at or above it. *)
Theorem flip_point_spec (calls puts : list Quote) (spot : R) (dte : Z)
    (r : R) :
  let p := calculate_gex_profile calls puts spot dte r in
  (flip_point p = None <-> no_adjacent_sign_change (gex_by_strike p)) /\
  forall f, flip_point p = Some f ->
    (exists l1 r1 r2 l2 raw,
       gex_by_strike p = (l1 ++ r1 :: r2 :: l2)%list /\
       opposite_signed (net_gex r1) (net_gex r2) /\
       row_strike r1 < raw < row_strike r2 /\
       f = py_round raw 2) /\
    (forall x, In x (crossings (gex_by_strike p)) ->
               Rabs (f - spot) <= Rabs (x - spot)) /\
    (regime p = "POSITIVE_GAMMA" <-> f <= spot) /\
    (regime p = "NEGATIVE_GAMMA" <-> spot < f).
Proof.
  intro p.
  pose proof (profile_strikes_sorted calls puts spot dte r) as Hsorted.
  fold p in Hsorted.
  assert (Hflip : flip_point p = _find_gex_flip (gex_by_strike p) spot)
    by reflexivity.
  assert (Hreg : regime p
                 = match flip_point p with
                   | Some f => if Rleb f spot then "POSITIVE_GAMMA"
                               else "NEGATIVE_GAMMA"
                   | None =>
                       if Rleb 0 (aggregate_gex calls puts spot dte r)
                       then "POSITIVE_GAMMA" else "NEGATIVE_GAMMA"
                   end) by reflexivity.
  set (rows := gex_by_strike p) in *. clearbody rows.
  split.
  - split; [| rewrite Hflip; apply no_sign_change_no_flip].
    rewrite Hflip. unfold _find_gex_flip.
    destruct (length rows <? 2)%nat eqn:L.
    + intros _. apply Nat.ltb_lt in L.
      apply crossings_nil_no_change, crossings_short, L.
    + destruct (crossings rows) eqn:C; [| discriminate].
      intros _. apply crossings_nil_no_change, C.
  - intros f Hf. rewrite Hf in Hreg. rewrite Hflip in Hf.
    unfold _find_gex_flip in Hf.
    destruct (length rows <? 2)%nat; [discriminate |].
    destruct (crossings rows) as [| x0 xs] eqn:C; [discriminate |].
    injection Hf as Hf.
    destruct (min_from_spec (fun x => Rabs (x - spot)) xs x0) as [Hin Hmin].
    rewrite Hf in Hin, Hmin.
    split; [| split; [exact Hmin |]].
    + rewrite <- C in Hin.
      destruct (crossings_adjacent rows f Hin)
        as (l1 & r1 & r2 & l2 & E & Hs & Ef).
      exists l1, r1, r2, l2. eexists.
      split; [exact E |].
      split; [apply negative_product_opposite, Hs |].
      split; [| exact Ef].
      apply interpolation_between; [| exact Hs].
      rewrite E in Hsorted. apply (sorted_app_adjacent _ _ _ _ Hsorted).
    + rewrite Hreg.
      destruct (Rleb f spot) eqn:E;
        [apply Rleb_le in E | apply Rleb_gt in E];
        split; split; intro H; try reflexivity; try discriminate; lra.
Qed.

(** *** The absolute-gamma strike and the totals *)

Lemma max_from_first {A : Type} (key : A -> R) (xs : list A) (best : A) :
  exists l1 l2,
    best :: xs = (l1 ++ max_from key best xs :: l2)%list /\
    Forall (fun x => key x < key (max_from key best xs)) l1 /\
    Forall (fun x => key x <= key (max_from key best xs)) l2.
Proof.
  revert best. induction xs as [| y xs IH]; intro best; cbn [max_from].
  - exists [], []. repeat split; constructor.
  - destruct (Rltb (key best) (key y)) eqn:E.
    + apply Rltb_lt in E.
      destruct (IH y) as (l1 & l2 & E1 & H1 & H2).
      set (m := max_from key y xs) in *. clearbody m.
      exists (best :: l1), l2. split; [simpl; rewrite E1; reflexivity |].
      split; [| exact H2].
      constructor; [| exact H1].
      assert (Hy : key y <= key m).
      { destruct l1 as [| z l1]; simpl in E1; injection E1 as E1 _.
        - subst m. lra.
        - subst z. inversion H1; subst. lra. }
      lra.
    + apply Rltb_ge in E.
      destruct (IH best) as (l1 & l2 & E1 & H1 & H2).
      set (m := max_from key best xs) in *. clearbody m.
      destruct l1 as [| z l1]; simpl in E1; injection E1 as E1 E2.
      * subst m. subst xs. exists [], (y :: l2).
        split; [reflexivity |]. split; [constructor |].
        constructor; assumption.
      * subst z. subst xs. exists (best :: y :: l1), l2.
        split; [reflexivity |]. split; [| exact H2].
        inversion H1; subst.
        constructor; [assumption |]. constructor; [lra | assumption].
Qed.

Lemma sorted_app_before (l1 l2 : list Row) (m x : Row) :
  StronglySorted Rlt (map row_strike (l1 ++ m :: l2)) ->
  In x l2 -> row_strike m < row_strike x.
Proof.
  induction l1 as [| y l1 IH]; simpl; intros H Hx.
  - inversion H as [| ? ? _ Hall]; subst.
    rewrite Forall_forall in Hall. apply Hall, in_map, Hx.
  - inversion H; subst. apply IH; assumption.
Qed.

(** [abs_gamma_strike] is the spot on a profile without rows; otherwise
    it is the strike of a row whose net GEX is largest in absolute value,
    and among several such rows the one with the lowest strike. *)
Theorem abs_gamma_strike_spec (calls puts : list Quote) (spot : R) (dte : Z)
    (r : R) :
  let p := calculate_gex_profile calls puts spot dte r in
  (gex_by_strike p = [] -> abs_gamma_strike p = spot) /\
  (gex_by_strike p <> [] ->
   exists row,
     In row (gex_by_strike p) /\
     abs_gamma_strike p = row_strike row /\
     (forall x, In x (gex_by_strike p) ->
                Rabs (net_gex x) <= Rabs (net_gex row)) /\
     (forall x, In x (gex_by_strike p) ->
                Rabs (net_gex x) = Rabs (net_gex row) ->
                row_strike row <= row_strike x)).
Proof.
  intro p.
  pose proof (profile_strikes_sorted calls puts spot dte r) as Hsorted.
  fold p in Hsorted.
  assert (Habs : abs_gamma_strike p
                 = match gex_by_strike p with
                   | [] => spot
                   | x :: rest =>
                       row_strike (max_from (fun x => Rabs (net_gex x)) x rest)
                   end) by reflexivity.
  set (rows := gex_by_strike p) in *. clearbody rows.
  split; [intros E; rewrite Habs, E; reflexivity |].
  intro Hne. destruct rows as [| x0 rest]; [contradiction |].
  destruct (max_from_first (fun x => Rabs (net_gex x)) rest x0)
    as (l1 & l2 & E & H1 & H2).
  set (m := max_from (fun x => Rabs (net_gex x)) x0 rest) in *.
  exists m. rewrite Forall_forall in H1, H2.
  split; [rewrite E; apply in_or_app; right; left; reflexivity |].
  split; [exact Habs |].
  split.
  - intros x Hx. rewrite E in Hx. apply in_app_or in Hx.
    destruct Hx as [Hx | [<- | Hx]];
      [left; apply (H1 x Hx) | lra | apply (H2 x Hx)].
  - intros x Hx Heq. rewrite E in Hx. apply in_app_or in Hx.
    destruct Hx as [Hx | [<- | Hx]].
    + pose proof (H1 x Hx) as Hlt. cbv beta in Hlt. lra.
    + lra.
    + left. rewrite E in Hsorted.
      apply (sorted_app_before _ _ _ _ Hsorted Hx).
Qed.

Lemma py_round_2_near (x : R) : Rabs (py_round x 2 - x) <= 0.005.
Proof.
  rewrite py_round_2.
  destruct (round_half_even_near_R (x * 100)) as [Lo Hi].
  apply Rabs_le. lra.
Qed.

Lemma sum_rounded_near (f : R -> R) (ks : list R) :
  Rabs (fold_right Rplus 0 (map (fun k => py_round (f k) 2) ks)
        - fold_right Rplus 0 (map f ks))
  <= 0.005 * INR (length ks).
Proof.
  induction ks as [| k ks IH].
  - simpl. rewrite Rminus_diag, Rabs_R0. lra.
  - cbn [map fold_right length]. rewrite S_INR.
    pose proof (py_round_2_near (f k)) as Hk.
    apply Rabs_le_bounds in Hk, IH. apply Rabs_le. lra.
Qed.

(** The totals against the rows.  [total_gex] is the rounded sum of the
    unrounded call and put totals, so it differs from
    [total_call_gex + total_put_gex] by at most 0.01, and from the sum
    of the rows' [net_gex] by at most half a cent per row plus half a
    cent. *)
Theorem total_gex_tolerance (calls puts : list Quote) (spot : R) (dte : Z)
    (r : R) :
  let p := calculate_gex_profile calls puts spot dte r in
  let n := length (gex_by_strike p) in
  Rabs (total_gex p - (total_call_gex p + total_put_gex p)) <= 0.01 /\
  Rabs (total_gex p - fold_right Rplus 0 (map net_gex (gex_by_strike p)))
  <= 0.005 * (INR n + 1).
Proof.
  intros p n. split.
  - unfold p, calculate_gex_profile. cbn [total_gex total_call_gex total_put_gex].
    apply py_round_2_sum.
  - set (ks := collect_strikes puts (collect_strikes calls [])).
    assert (En : n = length ks) by (unfold n, p; rewrite profile_rows;
                                    apply length_map).
    assert (Enet : map net_gex (gex_by_strike p)
                   = map (fun k => py_round (raw_call_gex calls spot dte r k
                                             + raw_put_gex puts spot dte r k) 2)
                         ks).
    { unfold p. rewrite profile_rows, map_map. reflexivity. }
    assert (Etot : total_gex p
                   = py_round (fold_right Rplus 0
                                 (map (fun k => raw_call_gex calls spot dte r k
                                                + raw_put_gex puts spot dte r k)
                                      ks)) 2).
    { unfold p, calculate_gex_profile. cbn [total_gex]. fold ks.
      rewrite !accumulate_sum. f_equal.
      clear. induction ks as [| k ks IH]; simpl; [lra |].
      rewrite <- IH. lra. }
    rewrite Enet, Etot, En.
    set (f := fun k => raw_call_gex calls spot dte r k
                       + raw_put_gex puts spot dte r k).
    pose proof (py_round_2_near (fold_right Rplus 0 (map f ks))) as H1.
    pose proof (sum_rounded_near f ks) as H2.
    apply Rabs_le_bounds in H1, H2. unfold f in *. cbv beta in *.
    apply Rabs_le. lra.
Qed.

End ProfileShape.

(** ** gex_calculator.py: the entropy of the GEX distribution *)

Section GexEntropyFacts.

Import GexCalculator GexEntropy.
Local Open Scope R_scope.
Open Scope string_scope.

Lemma ln_le_minus_1 (y : R) : 0 < y -> ln y <= y - 1.
Proof.
  intro Hy. pose proof (exp_ineq1_le (ln y)) as H.
  rewrite exp_ln in H by exact Hy. lra.
Qed.

(** One term of the Gibbs inequality. *)
Lemma entropy_term_upper (p c : R) :
  0 < p -> 0 < c -> - (p * ln p) <= p * ln c + / c - p.
Proof.
  intros Hp Hc.
  assert (Hcp : 0 < / (c * p)) by (apply Rinv_0_lt_compat; nra).
  pose proof (ln_le_minus_1 (/ (c * p)) Hcp) as H.
  rewrite ln_Rinv, ln_mult in H by nra.
  assert (E : p * / (c * p) = / c) by (field; lra).
  nra.
Qed.

Lemma entropy_term_lower (p : R) : 0 < p -> p <= 1 -> 0 <= - (p * ln p).
Proof.
  intros Hp H1.
  assert (Hl : ln p <= 0).
  { destruct H1 as [H1 | ->]; [| rewrite ln_1; lra].
    left. rewrite <- ln_1. apply ln_increasing; assumption. }
  nra.
Qed.

Lemma entropy_sum_bounds (ps : list R) (c : R) :
  0 < c -> Forall (fun p => 0 < p <= 1) ps ->
  0 <= - np_sum (map (fun p => p * ln p) ps) /\
  - np_sum (map (fun p => p * ln p) ps)
  <= np_sum ps * ln c + INR (length ps) / c - np_sum ps.
Proof.
  intros Hc H. induction H as [| p ps [Hp H1] _ [IH1 IH2]].
  - simpl. unfold Rdiv. rewrite Rmult_0_l. lra.
  - cbn [map np_sum fold_right length]. rewrite S_INR.
    fold (np_sum (map (fun p => p * ln p) ps)). fold (np_sum ps).
    pose proof (entropy_term_upper p c Hp Hc).
    pose proof (entropy_term_lower p Hp H1).
    unfold Rdiv in *. split; lra.
Qed.

Lemma np_sum_map_div (xs : list R) (t : R) :
  np_sum (map (fun g => g / t) xs) = np_sum xs / t.
Proof.
  induction xs as [| x xs IH]; simpl; [unfold Rdiv; ring |].
  fold (np_sum (map (fun g => g / t) xs)). fold (np_sum xs).
  rewrite IH. unfold Rdiv. ring.
Qed.

Lemma np_sum_pos_parts (xs : list R) :
  Forall (fun x => 0 < x) xs ->
  0 <= np_sum xs /\ Forall (fun x => x <= np_sum xs) xs.
Proof.
  induction 1 as [| x xs Hx _ [IH1 IH2]]; [split; [simpl; lra | constructor] |].
  cbn [np_sum fold_right]. fold (np_sum xs). split; [lra |].
  constructor; [lra |].
  eapply Forall_impl; [| exact IH2]. intros a Ha. simpl in Ha. lra.
Qed.

Lemma filter_all {A : Type} (f : A -> bool) (l : list A) :
  Forall (fun x => f x = true) l -> filter f l = l.
Proof.
  induction 1 as [| x l Hx _ IH]; [reflexivity |].
  simpl. rewrite Hx, IH. reflexivity.
Qed.

Lemma filter_length_le_R {A : Type} (f : A -> bool) (l : list A) :
  (length (filter f l) <= length l)%nat.
Proof.
  induction l as [| x l IH]; simpl; [lia |].
  destruct (f x); simpl; lia.
Qed.

Lemma py_round_unit_R (x : R) (n : nat) :
  0 <= x <= 1 -> 0 <= py_round x n <= 1.
Proof.
  intros [H0 H1]. split.
  - apply py_round_nonneg_R, H0.
  - pose proof (py_round_exact (10 ^ Z.of_nat n) n) as E.
    assert (Ep : IZR (10 ^ Z.of_nat n) = 10 ^ n).
    { rewrite <- pow_IZR. reflexivity. }
    rewrite Ep in E. pose proof (pow10_pos_R n) as Hp.
    replace (10 ^ n / 10 ^ n) with 1 in E by (field; lra).
    rewrite <- E. apply py_round_mono_R, H1.
Qed.

Lemma py_round_3_upper (c x : R) (z : Z) :
  c = IZR z / 10 -> x <= c -> py_round x 3 <= c.
Proof.
  intros -> H. eapply Rle_trans; [apply py_round_mono_R, H |].
  replace (IZR z / 10) with (IZR (z * 100) / 10 ^ 3)
    by (rewrite mult_IZR; simpl; field).
  rewrite py_round_exact. lra.
Qed.

Lemma py_round_3_lower (c x : R) (z : Z) :
  c = IZR z / 10 -> c <= x -> c <= py_round x 3.
Proof.
  intros -> H. eapply Rle_trans; [| apply py_round_mono_R, H].
  replace (IZR z / 10) with (IZR (z * 100) / 10 ^ 3)
    by (rewrite mult_IZR; simpl; field).
  rewrite py_round_exact. lra.
Qed.

(** Shannon's bounds, as the code computes them.  For a non-zero spot the
    normalised entropy lies in [0, 1] and the entropy is not negative;
    fewer than three relevant strikes give entropy 1 and DISPERSED; the
    zero-total branch is never the one that answers; CRITICAL comes
    with a normalised entropy of at most 0.3, APPROACHING with one in
    [0.3, 0.5], MODERATE with one in [0.5, 0.7], and DISPERSED on three
    or more strikes with one of at least 0.7. *)
Theorem entropy_bounds (rows : list Row) (spot atm_range_pct : R) :
  spot <> 0 ->
  let e := compute_gex_entropy rows spot atm_range_pct in
  0 <= entropy_norm e <= 1 /\
  0 <= entropy e /\
  (n_strikes e <= length rows)%nat /\
  ((n_strikes e < 3)%nat ->
   regime e = "DISPERSED" /\ entropy e = 1 /\ entropy_norm e = 1) /\
  description e <> ZeroTotalGex /\
  (regime e = "CRITICAL" -> entropy_norm e <= 0.3) /\
  (regime e = "APPROACHING" -> 0.3 <= entropy_norm e <= 0.5) /\
  (regime e = "MODERATE" -> 0.5 <= entropy_norm e <= 0.7) /\
  (regime e = "DISPERSED" -> (3 <= n_strikes e)%nat ->
   0.7 <= entropy_norm e).
Proof.
  intros _. cbv zeta. unfold compute_gex_entropy.
  destruct rows as [| r0 rows0] eqn:Er.
  { cbn. repeat split; intros; try discriminate; try lra; try lia. }
  rewrite <- Er. clear Er r0 rows0. cbv zeta.
  set (relevant := filter _ rows).
  assert (Hlen : (length relevant <= length rows)%nat)
    by apply filter_length_le_R.
  assert (Hpos : Forall (fun s => 0 < Rabs (net_gex s)) relevant).
  { apply Forall_forall. intros s Hs. unfold relevant in Hs.
    apply filter_In in Hs. destruct Hs as [_ Hs].
    apply andb_true_iff in Hs. destruct Hs as [_ Hs].
    apply Rltb_lt in Hs. exact Hs. }
  clearbody relevant.
  destruct (length relevant <? 3)%nat eqn:L.
  { apply Nat.ltb_lt in L. cbn.
    repeat split; intros; try discriminate; try lra; try lia. }
  apply Nat.ltb_ge in L.
  set (gex_abs := map (fun s => Rabs (net_gex s)) relevant).
  assert (Habs : Forall (fun x => 0 < x) gex_abs)
    by (unfold gex_abs; apply Forall_map; exact Hpos).
  assert (Hn : length gex_abs = length relevant) by apply length_map.
  destruct (np_sum_pos_parts gex_abs Habs) as [_ Hparts].
  assert (Htot : 0 < np_sum gex_abs).
  { destruct gex_abs as [| a l]; [simpl in Hn; lia |].
    inversion Habs; subst. inversion Hparts; subst. lra. }
  set (total := np_sum gex_abs) in *.
  assert (G : Rleb total 0 = false) by (apply Rleb_gt; exact Htot).
  rewrite G.
  set (probs := map (fun g => g / total) gex_abs).
  assert (Hp : Forall (fun p => 0 < p <= 1) probs).
  { unfold probs. apply Forall_map.
    rewrite Forall_forall in Habs, Hparts. apply Forall_forall.
    intros a Ha. split.
    - apply Rdiv_lt_0_compat; [apply Habs, Ha | exact Htot].
    - apply Rmult_le_reg_r with total; [exact Htot |].
      unfold Rdiv. rewrite Rmult_assoc, Rinv_l by lra.
      specialize (Hparts a Ha). cbv beta in Hparts. lra. }
  assert (Ef : filter (fun p => Rltb 0 p) probs = probs).
  { apply filter_all. eapply Forall_impl; [| exact Hp].
    intros a [Ha _]. apply Rltb_lt, Ha. }
  rewrite Ef.
  assert (Elen : length probs = length relevant)
    by (unfold probs; rewrite length_map; exact Hn).
  assert (Esum : np_sum probs = 1).
  { unfold probs. rewrite np_sum_map_div. fold total. field. lra. }
  assert (HN : 3 <= INR (length probs)).
  { rewrite Elen. replace 3 with (INR 3) by (simpl; lra). apply le_INR, L. }
  set (N := INR (length probs)) in *.
  assert (Hmax : 0 < ln N).
  { rewrite <- ln_1. apply ln_increasing; lra. }
  destruct (entropy_sum_bounds probs N) as [H0 H1]; [lra | exact Hp |].
  fold N in H1. rewrite Esum in H1.
  assert (HH : - np_sum (map (fun p => p * ln p) probs) <= ln N).
  { replace (N / N) with 1 in H1 by (field; lra). lra. }
  set (H := - np_sum (map (fun p => p * ln p) probs)) in *.
  assert (T : Rltb 0 (ln N) = true) by (apply Rltb_lt; exact Hmax).
  rewrite T.
  assert (Hnorm : 0 <= H / ln N <= 1).
  { split.
    - apply Rmult_le_pos; [exact H0 | left; apply Rinv_0_lt_compat, Hmax].
    - apply Rmult_le_reg_r with (ln N); [exact Hmax |].
      unfold Rdiv. rewrite Rmult_assoc, Rinv_l by lra. lra. }
  set (Hn' := H / ln N) in *. clearbody Hn' H.
  destruct (Rltb Hn' 0.3) eqn:C3;
    [apply Rltb_lt in C3 | apply Rltb_ge in C3;
     destruct (Rltb Hn' 0.5) eqn:C5;
     [apply Rltb_lt in C5 | apply Rltb_ge in C5;
      destruct (Rltb Hn' 0.7) eqn:C7;
      [apply Rltb_lt in C7 | apply Rltb_ge in C7]]];
    cbn [entropy entropy_norm regime description n_strikes];
    (split; [apply py_round_unit_R; exact Hnorm |]);
    (split; [apply py_round_nonneg_R; exact H0 |]);
    (split; [lia |]);
    (split; [intros; lia |]);
    (split; [discriminate |]);
    repeat split; intros; try discriminate;
    first [ apply (py_round_3_upper _ _ 3); lra
          | apply (py_round_3_lower _ _ 3); lra
          | apply (py_round_3_upper _ _ 5); lra
          | apply (py_round_3_lower _ _ 5); lra
          | apply (py_round_3_upper _ _ 7); lra
          | apply (py_round_3_lower _ _ 7); lra ].
Qed.

Lemma entropy_bounds_witness :
  let row := fun k g =>
    {| row_strike := k; call_oi := 0; put_oi := 0; call_gex := 0;
       put_gex := 0; net_gex := g; call_delta := 0; put_delta := 0;
       net_dealer_delta := 0; call_charm := 0; put_charm := 0;
       net_charm := 0; call_vanna := 0; put_vanna := 0; net_vanna := 0 |} in
  let e := compute_gex_entropy [row 95 10; row 100 (-20); row 105 30] 100 10 in
  0 <= entropy_norm e <= 1 /\ 0 <= entropy e.
Proof.
  intros row e.
  destruct (entropy_bounds [row 95 10; row 100 (-20); row 105 30] 100 10)
    as (H1 & H2 & _); [lra |].
  split; [exact H1 | exact H2].
Defined.

End GexEntropyFacts.

(** ** collision_time.py *)

Section CollisionTimeFacts.

Import GexCalculator CollisionTime.
Local Open Scope R_scope.
Open Scope string_scope.

Lemma insert_by_days_perm (c : Collision) (l : list Collision) :
  Permutation (c :: l) (insert_by_days c l).
Proof.
  induction l as [| y l IH]; simpl; [reflexivity |].
  destruct (Rltb _ _); [reflexivity |].
  rewrite perm_swap. constructor. exact IH.
Qed.

Lemma insert_by_days_sorted (c : Collision) (l : list Collision) :
  StronglySorted (fun a b => expected_days_adj a <= expected_days_adj b) l ->
  StronglySorted (fun a b => expected_days_adj a <= expected_days_adj b)
    (insert_by_days c l).
Proof.
  induction 1 as [| y l Hs IH Hall]; simpl; [repeat constructor |].
  destruct (Rltb (expected_days_adj c) (expected_days_adj y)) eqn:E.
  - apply Rltb_lt in E. constructor; [constructor; assumption |].
    constructor; [lra |].
    eapply Forall_impl; [| exact Hall]. intros a Ha. simpl in Ha. lra.
  - apply Rltb_ge in E. constructor; [exact IH |].
    apply Forall_forall. intros a Ha.
    apply (Permutation_in _ (Permutation_sym (insert_by_days_perm c l))) in Ha.
    destruct Ha as [<- | Ha]; [exact E |].
    rewrite Forall_forall in Hall. apply Hall, Ha.
Qed.

Lemma sort_by_days_from (results acc : list Collision) :
  StronglySorted (fun a b => expected_days_adj a <= expected_days_adj b) acc ->
  StronglySorted (fun a b => expected_days_adj a <= expected_days_adj b)
    (fold_left (fun sorted c => insert_by_days c sorted) results acc) /\
  Permutation (acc ++ results)%list
    (fold_left (fun sorted c => insert_by_days c sorted) results acc).
Proof.
  revert acc. induction results as [| c results IH]; intros acc H; simpl.
  - split; [exact H | rewrite app_nil_r; reflexivity].
  - destruct (IH (insert_by_days c acc) (insert_by_days_sorted c acc H))
      as [H1 H2].
    split; [exact H1 |].
    etransitivity; [| exact H2].
    rewrite <- (insert_by_days_perm c acc). simpl.
    symmetry. apply Permutation_middle.
Qed.

Lemma collected_entries (spot atr : R) (dte : Z) (mult : R)
    (levels : list (string * option R)) (acc : list Collision) :
  fold_left
    (fun results lp =>
       match snd lp with
       | None => results
       | Some price =>
           if Reqb price 0 || Rleb price 0 then results
           else (results ++ [collision_entry spot atr dte mult (fst lp) price])%list
       end) levels acc
  = (acc ++ map (fun lp => collision_entry spot atr dte mult (fst lp) (snd lp))
             (priced_levels levels))%list.
Proof.
  revert acc. induction levels as [| [label price] levels IH]; intro acc;
    cbn [fold_left priced_levels flat_map snd fst].
  - simpl. rewrite app_nil_r. reflexivity.
  - fold (priced_levels levels). rewrite IH.
    destruct price as [v |]; [| reflexivity].
    destruct (Rltb 0 v) eqn:E.
    + apply Rltb_lt in E.
      assert (E1 : Reqb v 0 = false).
      { destruct (Reqb v 0) eqn:Q; [| reflexivity].
        apply Reqb_eq in Q. lra. }
      assert (E2 : Rleb v 0 = false) by (apply Rleb_gt; exact E).
      rewrite E1, E2. cbn [orb map app fst snd].
      rewrite <- app_assoc. reflexivity.
    + apply Rltb_ge in E.
      assert (E2 : Rleb v 0 = true) by (apply Rleb_le; exact E).
      rewrite E2, orb_true_r. reflexivity.
Qed.

Lemma collision_entry_ranges (spot atr : R) (dte : Z) (mult : R)
    (label : string) (price : R) :
  0 < mult ->
  let c := collision_entry spot atr dte mult label price in
  1 <= prob_within_dte c <= 99 /\
  0 <= expected_days_raw c /\ 0 <= expected_days_adj c /\
  0 <= distance c /\
  (Rabs (spot - price) < 0.01 ->
   expected_days_adj c = 0 /\ urgency c = "NOW").
Proof.
  intros Hm c. unfold c, collision_entry. cbv zeta.
  cbn [prob_within_dte expected_days_raw expected_days_adj distance urgency].
  assert (Hraw : 0 <= (if Rltb (Rabs (spot - price)) 0.01 then 0.0
                       else Rabs (spot - price) ^ 2 / (2 * atr ^ 2))).
  { destruct (Rltb _ _); [lra |].
    unfold Rdiv. apply Rmult_le_pos; [apply pow2_ge_0 |].
    destruct (Req_dec atr 0) as [-> | Ha].
    - replace (2 * 0 ^ 2) with 0 by (simpl; ring). rewrite Rinv_0. lra.
    - left. apply Rinv_0_lt_compat.
      apply Rlt_0_sqr in Ha. unfold Rsqr in Ha. simpl. lra. }
  split; [| split; [| split; [| split]]].
  - apply (py_round_1_between 1 99).
    set (p := if _ && _ && _ then _ else _).
    unfold Rmin, Rmax.
    destruct (Rle_dec 0.01 p); destruct (Rle_dec 0.99 _); lra.
  - apply py_round_nonneg_R. exact Hraw.
  - apply py_round_nonneg_R. apply Rmult_le_pos; [exact Hraw | lra].
  - apply py_round_nonneg_R, Rabs_pos.
  - intro Hd. apply Rltb_lt in Hd. rewrite Hd.
    replace (0.0 * mult) with 0 by lra.
    rewrite py_round_zero.
    assert (T : Rltb 0 1 = true) by (apply Rltb_lt; lra).
    rewrite T. split; reflexivity.
Qed.

Lemma regime_multiplier_pos (a r : string) : 0 < regime_multiplier a r.
Proof.
  unfold regime_multiplier.
  destruct (r =? "TURBULENT"); [lra |].
  destruct (r =? "TRANSITIONAL"); [lra |].
  destruct (a =? "LONG_GAMMA"); lra.
Qed.

(** The collision table: empty when the ATR or the spot is not positive;
    otherwise one entry per level with a positive price, listed by
    ascending adjusted days; every entry has a probability between 1 and
    99 percent and non-negative distance and days, and a level within a
    cent of spot is due NOW in 0 days. *)
Theorem collision_times_spec (spot : R) (levels : list (string * option R))
    (atr_dollar : R) (acf_regime reynolds_regime : string) (dte : Z) :
  let result := compute_collision_times spot levels atr_dollar acf_regime
                  reynolds_regime dte in
  (atr_dollar <= 0 \/ spot <= 0 -> result = []) /\
  (0 < atr_dollar -> 0 < spot ->
   Permutation
     (map (fun lp => collision_entry spot atr_dollar dte
                       (regime_multiplier acf_regime reynolds_regime)
                       (fst lp) (snd lp))
          (priced_levels levels))
     result) /\
  StronglySorted (fun a b => expected_days_adj a <= expected_days_adj b)
    result /\
  Forall (fun c =>
            1 <= prob_within_dte c <= 99 /\
            0 <= expected_days_raw c /\ 0 <= expected_days_adj c /\
            0 <= distance c /\
            exists price, In (level_label c, Some price) levels /\
                          0 < price /\
                          level_price c = py_round price 2 /\
                          (Rabs (spot - price) < 0.01 ->
                           expected_days_adj c = 0 /\ urgency c = "NOW"))
         result.
Proof.
  cbv zeta. unfold compute_collision_times.
  destruct (Rleb atr_dollar 0 || Rleb spot 0) eqn:G.
  { split; [reflexivity |]. split.
    - intros Ha Hs. apply Rleb_gt in Ha, Hs. rewrite Ha, Hs in G.
      discriminate G.
    - split; constructor. }
  apply orb_false_iff in G. destruct G as [Ga Gs].
  apply Rleb_gt in Ga, Gs. cbv zeta.
  rewrite (collected_entries spot atr_dollar dte _ levels []).
  cbn [app]. unfold sort_by_days.
  set (mult := regime_multiplier acf_regime reynolds_regime).
  set (entries := map _ (priced_levels levels)).
  destruct (sort_by_days_from entries []) as [Hs Hp]; [constructor |].
  cbn [app] in Hp.
  split; [intros [H | H]; lra |].
  split; [intros _ _; exact Hp |].
  split; [exact Hs |].
  apply Forall_forall. intros c Hc.
  apply (Permutation_in _ (Permutation_sym Hp)) in Hc.
  unfold entries in Hc. apply in_map_iff in Hc.
  destruct Hc as ([label price] & <- & Hin).
  cbn [fst snd].
  destruct (collision_entry_ranges spot atr_dollar dte mult label price
              (regime_multiplier_pos _ _)) as (R1 & R2 & R3 & R4 & R5).
  repeat split; try assumption; try apply R1.
  exists price.
  unfold priced_levels in Hin. apply in_flat_map in Hin.
  destruct Hin as ([l0 p0] & Hl & Hin). cbn [fst snd] in Hin.
  destruct p0 as [v |]; [| destruct Hin].
  destruct (Rltb 0 v) eqn:E; [| destruct Hin].
  destruct Hin as [Hin | []]. injection Hin as <- <-.
  apply Rltb_lt in E.
  repeat split; try assumption; try reflexivity; apply R5; assumption.
Qed.

End CollisionTimeFacts.

(** ** gex_calculator.py: the regime without a flip point *)

Section RegimeFallback.

Import GexCalculator GexAux.
Local Open Scope R_scope.
Open Scope string_scope.







(** *** Two far puts: a total that rounds to zero *)










End RegimeFallback.


(** ** gamma_channel.py: the channel on a profile *)

Section ChannelOnProfiles.

Import GammaChannel.

Lemma extract_channel_floor_member (gex : list Row) (spot ft ct mw f : Q) :
  floor (extract_channel gex spot ft ct mw) = Some f -> In f (map strike gex).
Proof.
  unfold extract_channel.
  destruct gex as [| g0 gex']; [discriminate |].
  remember (g0 :: gex') as rows eqn:Erows. clear Erows g0 gex'.
  destruct (Qle_bool spot 0); [discriminate |].
  destruct (py_max (fun x => x) _) as [max_gex |]; [| discriminate].
  destruct (Qle_bool max_gex 0); [discriminate |].
  cbv zeta.
  destruct (widen_if_degenerate rows spot max_gex mw
              (initial_floor rows spot max_gex ft)
              (initial_ceiling rows spot max_gex ct)) as [[d f1] c1] eqn:EW.
  destruct (widen_if_degenerate_member _ _ _ _ _ _ _ _ _ EW
              (initial_floor_member rows spot max_gex ft)
              (initial_ceiling_member rows spot max_gex ct)) as [Wf _].
  unfold build_channel. cbn [floor]. apply Wf.
Qed.

(** C9. For spot > 0, whenever [extract_channel] returns a floor and a
    ceiling, also after widening, floor < spot < ceiling, and the returned
    channel position lies in [0, 1]: it is set whenever the floor is not
    the zero strike, so on every profile whose strikes are positive, as
    [calculate_gex_profile] builds them. *)
Theorem channel_brackets_spot (gex : list Row) (spot ft ct mw f c : Q) :
  0 < spot ->
  floor (extract_channel gex spot ft ct mw) = Some f ->
  ceiling (extract_channel gex spot ft ct mw) = Some c ->
  f < spot /\ spot < c /\
  (~ f == 0 ->
   exists p, channel_position (extract_channel gex spot ft ct mw) = Some p
             /\ 0 <= p /\ p <= 1) /\
  (Forall (fun row => 0 < strike row) gex ->
   exists p, channel_position (extract_channel gex spot ft ct mw) = Some p
             /\ 0 <= p /\ p <= 1).
Proof.
  intros Hspot Hfl Hce.
  assert (Hmem : In f (map strike gex))
    by (apply (extract_channel_floor_member gex spot ft ct mw), Hfl).
  assert (Hmain : f < spot /\ spot < c /\
            (~ f == 0 ->
             exists p,
               channel_position (extract_channel gex spot ft ct mw) = Some p
               /\ 0 <= p /\ p <= 1)).
  { revert Hfl Hce. unfold extract_channel.
    destruct gex as [| g0 gex']; [discriminate |].
    remember (g0 :: gex') as rows eqn:Erows. clear Erows g0 gex' Hmem.
    destruct (Qle_bool spot 0); [discriminate |].
    destruct (py_max (fun x => x) _) as [max_gex |]; [| discriminate].
    destruct (Qle_bool max_gex 0); [discriminate |].
    cbv zeta.
    pose proof (initial_floor_below rows spot max_gex ft) as HF.
    pose proof (initial_ceiling_above rows spot max_gex ct) as HC.
    destruct (widen_if_degenerate rows spot max_gex mw
                (initial_floor rows spot max_gex ft)
                (initial_ceiling rows spot max_gex ct)) as [[d f1] c1] eqn:EW.
    destruct (widen_if_degenerate_outward _ _ _ _ _ _ _ _ _ EW) as [Wf Wc].
    unfold build_channel. cbn [floor ceiling channel_position].
    intros -> ->.
    destruct (Wf f eq_refl) as [f' [Ef Hf]].
    destruct (Wc c eq_refl) as [c' [Ec Hc]].
    apply HF in Ef. apply HC in Ec.
    assert (Hfs : f < spot) by lra.
    assert (Hsc : spot < c) by lra.
    split; [exact Hfs |]. split; [exact Hsc |].
    intro Hnz.
    assert (T1 : truthy (Some f) = true) by (apply truthy_Some; exact Hnz).
    assert (T2 : truthy (Some c) = true) by (apply truthy_Some; lra).
    assert (T3 : Qltb f c = true) by (apply Qltb_lt; lra).
    rewrite T1, T2, T3. simpl.
    eexists. split; [reflexivity |].
    apply py_round_unit.
    - apply Qle_shift_div_l; lra.
    - apply Qle_shift_div_r; lra. }
  destruct Hmain as (H1 & H2 & H3).
  split; [exact H1 |]. split; [exact H2 |]. split; [exact H3 |].
  intro Hpos. apply H3.
  apply in_map_iff in Hmem. destruct Hmem as (row & <- & Hrow).
  rewrite Forall_forall in Hpos. specialize (Hpos row Hrow).
  intro E. rewrite E in Hpos. lra.
Qed.

End ChannelOnProfiles.

Lemma channel_brackets_spot_witness :
  0 < 100 /\
  Forall (fun row => 0 < GammaChannel.strike row) narrow_profile /\
  95 < 100 /\ 100 < 105 /\
  exists p,
    GammaChannel.channel_position
      (GammaChannel.extract_channel narrow_profile 100 0.15 0.15 2.0) = Some p
    /\ 0 <= p /\ p <= 1.
Proof.
  assert (H0 : 0 < 100) by lra.
  assert (Hp : Forall (fun row => 0 < GammaChannel.strike row) narrow_profile)
    by (repeat constructor).
  split; [exact H0 |]. split; [exact Hp |].
  destruct (channel_brackets_spot narrow_profile 100 0.15 0.15 2.0 95 105 H0)
    as (H1 & H2 & _ & H4);
    [vm_compute; reflexivity | vm_compute; reflexivity |].
  split; [exact H1 |]. split; [exact H2 |]. exact (H4 Hp).
Defined.
